(** * Mixture of Diffusers: tile geometry, seeding and stitching

    A shallow embedding of [diffusiontools/tiling.py]: the coordinate
    transforms ([_tile2pixel_indices], [_pixel2latent_indices],
    [_tile2latent_indices], [_tile2latent_exclusive_indices]), the Gaussian
    blend mask ([_gaussian_weights]) and the body of
    [StableDiffusionTilingPipeline.__call__] (input validation, latent
    initialisation, per-tile seeding, reroll regions, per-step stitching).

    Python integers are [Z]; [//] is floor division, which is [Z.div] for
    the positive divisor 8.  Python floats are idealised as the reals [R].
    Exceptions are modelled by the [result] type. *)

From Stdlib Require Import ZArith List Bool Lia String.
From Stdlib Require Import Reals Lra.
Import ListNotations.

Open Scope Z_scope.

(** ** Exceptions *)

Inductive exn : Type :=
| ValueError
| IndexError
| RuntimeError.

Inductive result (A : Type) : Type :=
| Ok (a : A)
| Raise (e : exn).

Arguments Ok {A} a.
Arguments Raise {A} e.

Definition bind {A B : Type} (m : result A) (k : A -> result B) : result B :=
  match m with
  | Ok a => k a
  | Raise e => Raise e
  end.

Notation "x <- m ;; k" := (bind m (fun x => k))
  (at level 61, m at next level, right associativity).
Notation "' pat <- m ;; k" := (bind m (fun x => match x with pat => k end))
  (at level 61, pat pattern, m at next level, right associativity).

(** [for x in xs: s = body(x, s)], stopping at the first exception. *)
Fixpoint for_each {A S : Type} (xs : list A) (body : A -> S -> result S) (s : S)
  : result S :=
  match xs with
  | [] => Ok s
  | x :: xs' => s' <- body x s ;; for_each xs' body s'
  end.

(** Python's [range(n)]: empty when [n <= 0]. *)
Definition range (n : Z) : list Z := map Z.of_nat (seq 0 (Z.to_nat n)).

(** ** Coordinate transforms *)

Definition region : Type := (Z * Z * Z * Z)%type.

Definition _tile2pixel_indices
  (tile_row tile_col tile_width tile_height tile_row_overlap tile_col_overlap : Z)
  : region :=
  let px_row_init :=
    if tile_row =? 0 then 0 else tile_row * (tile_height - tile_row_overlap) in
  let px_row_end := px_row_init + tile_height in
  let px_col_init :=
    if tile_col =? 0 then 0 else tile_col * (tile_width - tile_col_overlap) in
  let px_col_end := px_col_init + tile_width in
  (px_row_init, px_row_end, px_col_init, px_col_end).

Definition _pixel2latent_indices (px_row_init px_row_end px_col_init px_col_end : Z)
  : region :=
  (px_row_init / 8, px_row_end / 8, px_col_init / 8, px_col_end / 8).

Definition _tile2latent_indices
  (tile_row tile_col tile_width tile_height tile_row_overlap tile_col_overlap : Z)
  : region :=
  let '(px_row_init, px_row_end, px_col_init, px_col_end) :=
    _tile2pixel_indices tile_row tile_col tile_width tile_height
                        tile_row_overlap tile_col_overlap in
  _pixel2latent_indices px_row_init px_row_end px_col_init px_col_end.

(** *** [ligo.segments.segment]

    The external interval class used by the exclusive-region computation.
    [segment(a, b)] orders its bounds; [s - o] is the part of [s] outside
    [o], and raises [ValueError] when that part is not exactly one segment
    ([s] lies inside [o], or [o] lies strictly inside [s]). *)

Definition segment (a b : Z) : Z * Z := if a <=? b then (a, b) else (b, a).

(** [o in s] *)
Definition segment_contains (s o : Z * Z) : bool :=
  (fst s <=? fst o) && (snd o <=? snd s).

Definition segment_sub (s o : Z * Z) : result (Z * Z) :=
  if (snd s <=? fst o) || (snd o <=? fst s) then Ok s
  else if segment_contains o s || ((fst s <? fst o) && (snd o <? snd s))
       then Raise ValueError
  else if fst s <? fst o then Ok (fst s, fst o)
  else Ok (snd o, snd s).

Definition _tile2latent_exclusive_indices
  (tile_row tile_col tile_width tile_height tile_row_overlap tile_col_overlap
   rows columns : Z) : result region :=
  let '(row_init, row_end, col_init, col_end) :=
    _tile2latent_indices tile_row tile_col tile_width tile_height
                         tile_row_overlap tile_col_overlap in
  let row_segment := segment row_init row_end in
  let col_segment := segment col_init col_end in
  '(row_segment, col_segment) <-
    for_each (range rows) (fun row =>
      for_each (range columns) (fun column '(row_segment, col_segment) =>
        if negb (row =? tile_row) && negb (column =? tile_col) then
          let '(clip_row_init, clip_row_end, clip_col_init, clip_col_end) :=
            _tile2latent_indices row column tile_width tile_height
                                 tile_row_overlap tile_col_overlap in
          row_segment <- segment_sub row_segment (segment clip_row_init clip_row_end) ;;
          col_segment <- segment_sub col_segment (segment clip_col_init clip_col_end) ;;
          Ok (row_segment, col_segment)
        else Ok (row_segment, col_segment)))
      (row_segment, col_segment) ;;
  Ok (fst row_segment, snd row_segment, fst col_segment, snd col_segment).

(** The inverse direction of [_tile2pixel_indices] as the specification
    describes it (tile indices reconstructed from the pixel start offsets);
    the source has no such function. *)
Definition pixel2tile_spec
  (px_row_init px_col_init tile_width tile_height tile_row_overlap tile_col_overlap : Z)
  : Z * Z :=
  (px_row_init / (tile_height - tile_row_overlap),
   px_col_init / (tile_width - tile_col_overlap)).

(** The tiles of a grid, in row-major order. *)
Definition grid_tiles (rows columns : Z) : list (Z * Z) :=
  flat_map (fun row => map (pair row) (range columns)) (range rows).

(** The exclusive region as the specification words it: start from the
    tile's inclusive latent region and, for every tile of the grid that
    [other] selects, in row-major order, subtract that tile's inclusive
    latent region from the row interval and from the column interval. *)
Definition exclusive_region_spec (other : Z -> Z -> bool)
  (tile_row tile_col tile_width tile_height tile_row_overlap tile_col_overlap
   rows columns : Z) : result region :=
  let '(row_init, row_end, col_init, col_end) :=
    _tile2latent_indices tile_row tile_col tile_width tile_height
                         tile_row_overlap tile_col_overlap in
  '(row_segment, col_segment) <-
    for_each (filter (fun '(row, column) => other row column) (grid_tiles rows columns))
      (fun '(row, column) '(row_segment, col_segment) =>
         let '(clip_row_init, clip_row_end, clip_col_init, clip_col_end) :=
           _tile2latent_indices row column tile_width tile_height
                                tile_row_overlap tile_col_overlap in
         row_segment <- segment_sub row_segment (segment clip_row_init clip_row_end) ;;
         col_segment <- segment_sub col_segment (segment clip_col_init clip_col_end) ;;
         Ok (row_segment, col_segment))
      (segment row_init row_end, segment col_init col_end) ;;
  Ok (fst row_segment, snd row_segment, fst col_segment, snd col_segment).

(** Every tile but (tile_row, tile_col). *)
Definition every_other_tile (tile_row tile_col row column : Z) : bool :=
  negb ((row =? tile_row) && (column =? tile_col)).

(** The tiles in another row and another column than (tile_row, tile_col). *)
Definition off_axis_tile (tile_row tile_col row column : Z) : bool :=
  negb (row =? tile_row) && negb (column =? tile_col).

(** ** Tensors

    A 4-dimensional [torch] tensor [batch, channels, height, width]: its
    shape and its entries.  Entries outside the shape are never read. *)

Record shape : Type := mkShape { dim_b : Z; dim_c : Z; dim_h : Z; dim_w : Z }.

Record Tensor : Type := mkTensor { tshape : shape; elem : Z -> Z -> Z -> Z -> R }.

Definition torch_zeros (sh : shape) : Tensor := mkTensor sh (fun _ _ _ _ => 0%R).

(** Python slice bounds: a negative bound counts from the end, and every
    bound is clamped to the dimension. *)
Definition slice_bound (n i : Z) : Z :=
  if i <? 0 then Z.max 0 (i + n) else Z.min i n.

Definition slice_len (n a b : Z) : Z := Z.max 0 (slice_bound n b - slice_bound n a).

Definition in_slice (n a b i : Z) : bool :=
  (slice_bound n a <=? i) && (i <? slice_bound n b).

Definition slice_shape (sh : shape) (a b c d : Z) : shape :=
  mkShape (dim_b sh) (dim_c sh) (slice_len (dim_h sh) a b) (slice_len (dim_w sh) c d).

(** [t[:, :, a:b, c:d]] *)
Definition getitem_hw (t : Tensor) (a b c d : Z) : Tensor :=
  let sh := tshape t in
  mkTensor (slice_shape sh a b c d)
           (fun n k i j => elem t n k (slice_bound (dim_h sh) a + i)
                                      (slice_bound (dim_w sh) c + j)).

(** Broadcasting of a source into a destination: a source dimension must
    equal the destination's or be 1. *)
Definition expandable (s d : Z) : bool := (s =? d) || (s =? 1).

Definition expand_index (s i : Z) : Z := if s =? 1 then 0 else i.

Definition expands_to (src dst : shape) : bool :=
  expandable (dim_b src) (dim_b dst) && expandable (dim_c src) (dim_c dst) &&
  expandable (dim_h src) (dim_h dst) && expandable (dim_w src) (dim_w dst).

Definition expanded (src : Tensor) (n k i j : Z) : R :=
  let ss := tshape src in
  elem src (expand_index (dim_b ss) n) (expand_index (dim_c ss) k)
           (expand_index (dim_h ss) i) (expand_index (dim_w ss) j).

(** In-place update of a slice, [t[:, :, a:b, c:d] (op)= src]; a source
    that does not broadcast to the slice raises [RuntimeError]. *)
Definition update_hw (f : R -> R -> R) (t : Tensor) (a b c d : Z) (src : Tensor)
  : result Tensor :=
  let sh := tshape t in
  if expands_to (tshape src) (slice_shape sh a b c d) then
    Ok (mkTensor sh (fun n k i j =>
          if in_slice (dim_h sh) a b i && in_slice (dim_w sh) c d j then
            f (elem t n k i j)
              (expanded src n k (i - slice_bound (dim_h sh) a)
                                (j - slice_bound (dim_w sh) c))
          else elem t n k i j))
  else Raise RuntimeError.

Definition setitem_hw : Tensor -> Z -> Z -> Z -> Z -> Tensor -> result Tensor :=
  update_hw (fun _ new => new).

Definition iadd_hw : Tensor -> Z -> Z -> Z -> Z -> Tensor -> result Tensor :=
  update_hw Rplus.

(** Element-wise binary operators with two-sided broadcasting. *)
Definition broadcast_dim (a b : Z) : option Z :=
  if a =? b then Some a
  else if a =? 1 then Some b
  else if b =? 1 then Some a
  else None.

Definition broadcast_shapes (s1 s2 : shape) : option shape :=
  match broadcast_dim (dim_b s1) (dim_b s2), broadcast_dim (dim_c s1) (dim_c s2),
        broadcast_dim (dim_h s1) (dim_h s2), broadcast_dim (dim_w s1) (dim_w s2) with
  | Some b, Some c, Some h, Some w => Some (mkShape b c h w)
  | _, _, _, _ => None
  end.

Definition tensor_binop (f : R -> R -> R) (t1 t2 : Tensor) : result Tensor :=
  match broadcast_shapes (tshape t1) (tshape t2) with
  | Some sh => Ok (mkTensor sh (fun n k i j => f (expanded t1 n k i j) (expanded t2 n k i j)))
  | None => Raise RuntimeError
  end.

Definition tensor_add := tensor_binop Rplus.
Definition tensor_sub := tensor_binop Rminus.
Definition tensor_mul := tensor_binop Rmult.

(** [t1 /= t2] for two tensors of one shape. *)
Definition tensor_idiv (t1 t2 : Tensor) : result Tensor :=
  if expands_to (tshape t2) (tshape t1) then
    Ok (mkTensor (tshape t1) (fun n k i j => (elem t1 n k i j / expanded t2 n k i j)%R))
  else Raise RuntimeError.

(** scalar [op] tensor *)
Definition tensor_map (f : R -> R) (t : Tensor) : Tensor :=
  mkTensor (tshape t) (fun n k i j => f (elem t n k i j)).

(** [torch.cat([t] * 2)] *)
Definition cat2 (t : Tensor) : Tensor :=
  let sh := tshape t in
  mkTensor (mkShape (2 * dim_b sh) (dim_c sh) (dim_h sh) (dim_w sh))
           (fun n k i j => elem t (if n <? dim_b sh then n else n - dim_b sh) k i j).

(** [a, b = t.chunk(2)]: two chunks along the batch dimension; a batch of
    one gives a single chunk, and the unpacking raises. *)
Definition chunk2 (t : Tensor) : result (Tensor * Tensor) :=
  let sh := tshape t in
  let n := dim_b sh in
  let size := (n + 1) / 2 in
  if n =? 1 then Raise ValueError
  else Ok (mkTensor (mkShape size (dim_c sh) (dim_h sh) (dim_w sh)) (elem t),
           mkTensor (mkShape (n - size) (dim_c sh) (dim_h sh) (dim_w sh))
                    (fun m k i j => elem t (size + m) k i j)).

(** Python's [xs[i]] *)
Definition getitem {A : Type} (xs : list A) (i : Z) : result A :=
  let i' := if i <? 0 then i + Z.of_nat (List.length xs) else i in
  if i' <? 0 then Raise IndexError
  else match nth_error xs (Z.to_nat i') with
       | Some x => Ok x
       | None => Raise IndexError
       end.

Definition getitem2 {A : Type} (xss : list (list A)) (i j : Z) : result A :=
  xs <- getitem xss i ;; getitem xs j.

(** ** The Gaussian blend mask *)

Definition var : R := 0.01%R.

Definition gaussian_prob (n : Z) (midpoint : R) (x : Z) : R :=
  (exp (- (IZR x - midpoint) * (IZR x - midpoint) / (IZR n * IZR n) / (2 * var))
   / sqrt (2 * PI * var))%R.

Definition x_probs (latent_width : Z) : list R :=
  let midpoint := ((IZR latent_width - 1) / 2)%R in
  map (gaussian_prob latent_width midpoint) (range latent_width).

Definition y_probs (latent_height : Z) : list R :=
  let midpoint := (IZR latent_height / 2)%R in
  map (gaussian_prob latent_height midpoint) (range latent_height).

(** ** Calls to the networks, in order

    The text encoder, the denoising network and the autoencoder are
    collaborators; a run records each call to one of them, up to the point
    where it returns or raises. *)

Inductive event : Type :=
| TextEncoderCall (text : string)
| UnetCall (latent_model_input : Tensor) (t : Z)
| VaeDecodeCall (latents : Tensor).

Definition traced (A : Type) : Type := (list event * result A)%type.

Definition tret {A : Type} (a : A) : traced A := ([], Ok a).

Definition tlift {A : Type} (r : result A) : traced A := ([], r).

Definition tbind {A B : Type} (m : traced A) (k : A -> traced B) : traced B :=
  match m with
  | (l, Ok a) => let '(l', r) := k a in (l ++ l', r)
  | (l, Raise e) => (l, Raise e)
  end.

Notation "x <-- m ;; k" := (tbind m (fun x => k))
  (at level 61, m at next level, right associativity).
Notation "' pat <-- m ;; k" := (tbind m (fun x => match x with pat => k end))
  (at level 61, pat pattern, m at next level, right associativity).

Definition emit (e : event) : traced unit := ([e], Ok tt).

Fixpoint tfor_each {A S : Type} (xs : list A) (body : A -> S -> traced S) (s : S)
  : traced S :=
  match xs with
  | [] => tret s
  | x :: xs' => s' <-- body x s ;; tfor_each xs' body s'
  end.

(** A list comprehension whose element expression calls a network. *)
Fixpoint tmap {A B : Type} (f : A -> traced B) (xs : list A) : traced (list B) :=
  match xs with
  | [] => tret []
  | x :: xs' => y <-- f x ;; ys <-- tmap f xs' ;; tret (y :: ys)
  end.

(** [for i, x in enumerate(xs)] *)
Fixpoint enumerate_from {A : Type} (i : Z) (xs : list A) : list (Z * A) :=
  match xs with
  | [] => []
  | x :: xs' => (i, x) :: enumerate_from (i + 1) xs'
  end.

Definition enumerate {A : Type} (xs : list A) : list (Z * A) := enumerate_from 0 xs.

(** [xss[i][j] = v] *)
Fixpoint list_set {A : Type} (xs : list A) (n : nat) (v : A) : option (list A) :=
  match xs, n with
  | [], _ => None
  | _ :: xs', O => Some (v :: xs')
  | x :: xs', S n' => option_map (cons x) (list_set xs' n' v)
  end.

Definition setitem {A : Type} (xs : list A) (i : Z) (v : A) : result (list A) :=
  let i' := if i <? 0 then i + Z.of_nat (List.length xs) else i in
  if i' <? 0 then Raise IndexError
  else match list_set xs (Z.to_nat i') v with
       | Some xs' => Ok xs'
       | None => Raise IndexError
       end.

Definition setitem2 {A : Type} (xss : list (list A)) (i j : Z) (v : A)
  : result (list (list A)) :=
  xs <- getitem xss i ;; xs' <- setitem xs j v ;; setitem xss i xs'.

(** ** Arguments of [StableDiffusionTilingPipeline.__call__] *)

Inductive prompt_arg : Type :=
| PromptStr (s : string)
| PromptGrid (g : list (list string)).

Inductive seed_tiles_mode_arg : Type :=
| ModeStr (s : string)
| ModeGrid (g : list (list string)).

Inductive SeedTilesMode : Type := FULL | EXCLUSIVE.

Definition SeedTilesMode_value (m : SeedTilesMode) : string :=
  match m with
  | FULL => "full"
  | EXCLUSIVE => "exclusive"
  end.

Record call_args : Type := mkArgs {
  prompt : prompt_arg;
  num_inference_steps : Z;
  guidance_scale : R;
  eta : R;
  seed : Z;
  tile_height : Z;
  tile_width : Z;
  tile_row_overlap : Z;
  tile_col_overlap : Z;
  guidance_scale_tiles : option (list (list (option R)));
  seed_tiles : option (list (list (option Z)));
  seed_tiles_mode : seed_tiles_mode_arg;
  seed_reroll_regions : option (list (Z * Z * Z * Z * Z));
  cpu_vae : bool
}.

Definition batch_size : Z := 1.

(** What the checks at the top of [__call__] leave behind: the prompt grid
    and its dimensions, the grid of seeding modes and the reroll list. *)
Record checked_args : Type := mkChecked {
  prompt_grid : list (list string);
  grid_rows : Z;
  grid_cols : Z;
  mode_grid : list (list string);
  reroll_regions : list (Z * Z * Z * Z * Z)
}.

Definition validate (a : call_args) : result checked_args :=
  match prompt a with
  | PromptStr _ => Raise ValueError
  | PromptGrid prompt =>
      let grid_rows := Z.of_nat (List.length prompt) in
      row0 <- getitem prompt 0 ;;
      let grid_cols := Z.of_nat (List.length row0) in
      if negb (forallb (fun row => Z.of_nat (List.length row) =? grid_cols) prompt)
      then Raise ValueError
      else
        let seed_tiles_mode :=
          match seed_tiles_mode a with
          | ModeStr mode =>
              map (fun row => map (fun _ => mode) (range (Z.of_nat (List.length row))))
                  prompt
          | ModeGrid g => g
          end in
        let modes := map SeedTilesMode_value [FULL; EXCLUSIVE] in
        if existsb (fun row =>
                      existsb (fun mode => negb (existsb (String.eqb mode) modes)) row)
                   seed_tiles_mode
        then Raise ValueError
        else
          let seed_reroll_regions :=
            match seed_reroll_regions a with
            | None => []
            | Some l => l
            end in
          Ok (mkChecked prompt grid_rows grid_cols seed_tiles_mode seed_reroll_regions)
  end.

(** ** The pipeline body *)

Section Pipeline.

(** [self.unet.in_channels] *)
Variable in_channels : Z.

(** [torch.randn(shape, generator=torch.Generator().manual_seed(seed))]:
    the entry at each index of the tensor drawn from a fresh stream. *)
Variable noise : Z -> shape -> Z -> Z -> Z -> Z -> R.

(** Tokenizer and text encoder, and [torch.cat] of two embeddings. *)
Variable Emb : Type.
Variable text_encoder : string -> Emb.
Variable emb_cat : Emb -> Emb -> Emb.

(** The denoising network: the entries of its [sample], which has the
    shape of its input. *)
Variable unet : Tensor -> Z -> Emb -> Z -> Z -> Z -> Z -> R.

(** The scheduler: its timesteps once [set_timesteps] has run, its
    [sigmas] when it is an [LMSDiscreteScheduler], and its [step]. *)
Variable scheduler_timesteps : Z -> list Z.
Variable lms_sigmas : option (Z -> R).
Variable scheduler_step : Tensor -> Z -> Tensor -> Tensor.

(** [decode_latents] of [StableDiffusionExtrasMixin]. *)
Variable Image : Type.
Variable decode_latents : Tensor -> bool -> Image.

Definition torch_randn (sh : shape) (seed : Z) : result Tensor :=
  if (dim_b sh <? 0) || (dim_c sh <? 0) || (dim_h sh <? 0) || (dim_w sh <? 0)
  then Raise RuntimeError
  else Ok (mkTensor sh (noise seed sh)).

Definition _gaussian_weights (tile_width tile_height nbatches : Z) : Tensor :=
  let latent_width := tile_width / 8 in
  let latent_height := tile_height / 8 in
  let x_probs := x_probs latent_width in
  let y_probs := y_probs latent_height in
  mkTensor (mkShape nbatches in_channels
                    (Z.of_nat (List.length y_probs)) (Z.of_nat (List.length x_probs)))
           (fun _ _ y x =>
              (nth (Z.to_nat y) y_probs 0 * nth (Z.to_nat x) x_probs 0)%R).

Section Call.

Variable a : call_args.
Variable v : checked_args.

Definition latents_shape : shape :=
  let height :=
    tile_height a + (grid_rows v - 1) * (tile_height a - tile_row_overlap a) in
  let width :=
    tile_width a + (grid_cols v - 1) * (tile_width a - tile_col_overlap a) in
  mkShape batch_size in_channels (height / 8) (width / 8).

(** One iteration of the seed-tile loop. *)
Definition seed_tile_body (seed_tiles : list (list (option Z))) (row col : Z)
  (latents : Tensor) : result Tensor :=
  seed_tile <- getitem2 seed_tiles row col ;;
  match seed_tile with
  | None => Ok latents
  | Some seed_tile =>
      mode <- getitem2 (mode_grid v) row col ;;
      '(row_init, row_end, col_init, col_end) <-
        (if String.eqb mode (SeedTilesMode_value FULL)
         then Ok (_tile2latent_indices row col (tile_width a) (tile_height a)
                    (tile_row_overlap a) (tile_col_overlap a))
         else _tile2latent_exclusive_indices row col (tile_width a) (tile_height a)
                (tile_row_overlap a) (tile_col_overlap a)
                (grid_rows v) (grid_cols v)) ;;
      let tile_shape :=
        mkShape (dim_b latents_shape) (dim_c latents_shape)
                (row_end - row_init) (col_end - col_init) in
      tile <- torch_randn tile_shape seed_tile ;;
      setitem_hw latents row_init row_end col_init col_end tile
  end.

Definition seed_tiles_loop (latents : Tensor) : result Tensor :=
  match seed_tiles a with
  | None => Ok latents
  | Some seed_tiles =>
      for_each (range (grid_rows v)) (fun row =>
        for_each (range (grid_cols v)) (fun col => seed_tile_body seed_tiles row col))
        latents
  end.

(** One iteration of the reroll loop. *)
Definition reroll_body (r : Z * Z * Z * Z * Z) (latents : Tensor) : result Tensor :=
  let '(row_init, row_end, col_init, col_end, seed_reroll) := r in
  let '(row_init, row_end, col_init, col_end) :=
    _pixel2latent_indices row_init row_end col_init col_end in
  let region_shape :=
    mkShape (dim_b latents_shape) (dim_c latents_shape)
            (row_end - row_init) (col_end - col_init) in
  src <- torch_randn region_shape seed_reroll ;;
  setitem_hw latents row_init row_end col_init col_end src.

Definition reroll_loop (latents : Tensor) : result Tensor :=
  for_each (reroll_regions v) reroll_body latents.

(** Lines 91-117: the initial canvas latent, with every overwrite. *)
Definition initial_latents : result Tensor :=
  latents <- torch_randn latents_shape (seed a) ;;
  latents <- seed_tiles_loop latents ;;
  reroll_loop latents.

Definition do_classifier_free_guidance : bool :=
  if Rlt_dec 1 (guidance_scale a) then true else false.

Definition encode (text : string) : traced Emb :=
  _ <-- emit (TextEncoderCall text) ;; tret (text_encoder text).

(** Lines 131-170: one embedding per tile, paired with the embedding
    of the empty prompt under guidance. *)
Definition text_embeddings : traced (list (list Emb)) :=
  text_embeddings <-- tmap (fun row => tmap encode row) (prompt_grid v) ;;
  if do_classifier_free_guidance then
    tfor_each (range (grid_rows v)) (fun i =>
      tfor_each (range (grid_cols v)) (fun j text_embeddings =>
        uncond_embeddings <-- encode "" ;;
        e <-- tlift (getitem2 text_embeddings i j) ;;
        tlift (setitem2 text_embeddings i j (emb_cat uncond_embeddings e))))
      text_embeddings
  else tret text_embeddings.

Definition call_unet (latent_model_input : Tensor) (t : Z) (e : Emb) : traced Tensor :=
  _ <-- emit (UnetCall latent_model_input t) ;;
  tret (mkTensor (tshape latent_model_input) (unet latent_model_input t e)).

(** Line 204. *)
Definition tile_guidance (row col : Z) : result R :=
  match guidance_scale_tiles a with
  | None => Ok (guidance_scale a)
  | Some g =>
      s <- getitem2 g row col ;;
      match s with
      | None => Ok (guidance_scale a)
      | Some s => Ok s
      end
  end.

(** Line 205. *)
Definition guide (guidance : R) (noise_pred_uncond noise_pred_text : Tensor)
  : result Tensor :=
  d <- tensor_sub noise_pred_text noise_pred_uncond ;;
  tensor_add noise_pred_uncond (tensor_map (Rmult guidance) d).

Section Step.

Variable text_embeddings : list (list Emb).
Variable tile_weights : Tensor.
Variables i t : Z.

(** Lines 191-206: the body of the per-tile loop. *)
Definition diffuse_tile (latents : Tensor) (row col : Z)
  (noise_preds_row : list Tensor) : traced (list Tensor) :=
  let '(px_row_init, px_row_end, px_col_init, px_col_end) :=
    _tile2latent_indices row col (tile_width a) (tile_height a)
                         (tile_row_overlap a) (tile_col_overlap a) in
  let tile_latents :=
    getitem_hw latents px_row_init px_row_end px_col_init px_col_end in
  let latent_model_input :=
    if do_classifier_free_guidance then cat2 tile_latents else tile_latents in
  let latent_model_input :=
    match lms_sigmas with
    | Some sigmas =>
        let sigma := sigmas i in
        tensor_map (fun x => (x / sqrt (sigma * sigma + 1))%R) latent_model_input
    | None => latent_model_input
    end in
  e <-- tlift (getitem2 text_embeddings row col) ;;
  noise_pred <-- call_unet latent_model_input t e ;;
  if do_classifier_free_guidance then
    '(noise_pred_uncond, noise_pred_text) <-- tlift (chunk2 noise_pred) ;;
    guidance <-- tlift (tile_guidance row col) ;;
    noise_pred_tile <-- tlift (guide guidance noise_pred_uncond noise_pred_text) ;;
    tret (noise_preds_row ++ [noise_pred_tile])
  else tret noise_preds_row.

(** Lines 187-207. *)
Definition diffuse_tiles (latents : Tensor) : traced (list (list Tensor)) :=
  tfor_each (range (grid_rows v)) (fun row noise_preds =>
    noise_preds_row <--
      tfor_each (range (grid_cols v)) (diffuse_tile latents row) [] ;;
    tret (noise_preds ++ [noise_preds_row]))
    [].

(** Lines 214-216: the body of the stitching loop. *)
Definition stitch_tile (noise_preds : list (list Tensor)) (row col : Z)
  (acc : Tensor * Tensor) : result (Tensor * Tensor) :=
  let '(noise_pred, contributors) := acc in
  let '(px_row_init, px_row_end, px_col_init, px_col_end) :=
    _tile2latent_indices row col (tile_width a) (tile_height a)
                         (tile_row_overlap a) (tile_col_overlap a) in
  p <- getitem2 noise_preds row col ;;
  weighted <- tensor_mul p tile_weights ;;
  noise_pred <-
    iadd_hw noise_pred px_row_init px_row_end px_col_init px_col_end weighted ;;
  contributors <-
    iadd_hw contributors px_row_init px_row_end px_col_init px_col_end
            tile_weights ;;
  Ok (noise_pred, contributors).

(** Lines 209-216: both buffers after every tile has been added. *)
Definition accumulate (latents : Tensor) (noise_preds : list (list Tensor))
  : result (Tensor * Tensor) :=
  let noise_pred := torch_zeros (tshape latents) in
  let contributors := torch_zeros (tshape latents) in
  for_each (range (grid_rows v)) (fun row =>
    for_each (range (grid_cols v)) (stitch_tile noise_preds row))
    (noise_pred, contributors).

(** Lines 186-224: one denoising step. *)
Definition denoising_step (latents : Tensor) : traced Tensor :=
  noise_preds <-- diffuse_tiles latents ;;
  '(noise_pred, contributors) <-- tlift (accumulate latents noise_preds) ;;
  noise_pred <-- tlift (tensor_idiv noise_pred contributors) ;;
  match lms_sigmas with
  | Some _ => tret (scheduler_step noise_pred i latents)
  | None => tret (scheduler_step noise_pred t latents)
  end.

End Step.

(** Lines 119-229. *)
Definition run_from (latents : Tensor) : traced Image :=
  let timesteps := scheduler_timesteps (num_inference_steps a) in
  let latents :=
    match lms_sigmas with
    | Some sigmas => tensor_map (fun x => (x * sigmas 0%Z)%R) latents
    | None => latents
    end in
  text_embeddings <-- text_embeddings ;;
  let tile_weights := _gaussian_weights (tile_width a) (tile_height a) batch_size in
  latents <--
    tfor_each (enumerate timesteps)
              (fun '(i, t) => denoising_step text_embeddings tile_weights i t)
              latents ;;
  _ <-- emit (VaeDecodeCall latents) ;;
  tret (decode_latents latents (cpu_vae a)).

End Call.

Definition __call__ (a : call_args) : traced Image :=
  v <-- tlift (validate a) ;;
  latents <-- tlift (initial_latents a v) ;;
  run_from a v latents.

End Pipeline.

(** ** Vocabulary of the properties *)

(** An index inside a shape. *)
Definition in_shape (sh : shape) (n k i j : Z) : Prop :=
  0 <= n < dim_b sh /\ 0 <= k < dim_c sh /\ 0 <= i < dim_h sh /\ 0 <= j < dim_w sh.

(** Entry (i, j) lies in the rectangle of rows [[r0, r1)] and columns
    [[c0, c1)]. *)
Definition in_rect (r0 r1 c0 c1 i j : Z) : bool :=
  (r0 <=? i) && (i <? r1) && ((c0 <=? j) && (j <? c1)).

(** The latent rectangle of a reroll region, as given. *)
Definition region_covers (r : Z * Z * Z * Z * Z) (i j : Z) : bool :=
  let '(r0, r1, c0, c1, _) := r in
  in_rect (r0 / 8) (r1 / 8) (c0 / 8) (c1 / 8) i j.

(** Entry (i, j) of the canvas lies in the inclusive latent region of
    tile (row, col). *)
Definition tile_covers (a : call_args) (row col i j : Z) : bool :=
  let '(r0, r1, c0, c1) :=
    _tile2latent_indices row col (tile_width a) (tile_height a)
                         (tile_row_overlap a) (tile_col_overlap a) in
  in_rect r0 r1 c0 c1 i j.

(** On one axis of length [n], the latent interval [[lo, hi)] starts at a
    non-negative index, ends beyond the axis and spans two cells or more. *)
Definition overshoots (n lo hi : Z) : Prop := 0 <= lo /\ n < hi /\ 2 <= hi - lo.

(** The first network call of a run. *)
Definition starts_with {A : Type} (e : event) (m : traced A) : Prop :=
  exists l, fst m = e :: l.

(** The weight-sum buffer [ct] against the set [cov] of entries covered so
    far: zero outside, strictly positive inside. *)
Definition weights_summed (cov : Z -> Z -> Prop) (ct : Tensor) : Prop :=
  forall n k i j,
    (0 <= elem ct n k i j)%R /\
    (cov i j -> (0 < elem ct n k i j)%R) /\
    (~ cov i j -> elem ct n k i j = 0%R).

Section Regions.

Variable in_channels : Z.
Variable a : call_args.
Variable v : checked_args.

(** A rectangle of latent coordinates inside the canvas. *)
Definition rect_in_canvas (r0 r1 c0 c1 : Z) : Prop :=
  0 <= r0 <= r1 /\ r1 <= dim_h (latents_shape in_channels a v) /\
  0 <= c0 <= c1 /\ c1 <= dim_w (latents_shape in_channels a v).

(** A reroll region whose latent rectangle lies inside the canvas. *)
Definition region_in_canvas (r : Z * Z * Z * Z * Z) : Prop :=
  let '(r0, r1, c0, c1, _) := r in
  rect_in_canvas (r0 / 8) (r1 / 8) (c0 / 8) (c1 / 8).

(** The slice of the canvas that a reroll region's assignment writes
    (negative bounds wrapped, every bound clamped). *)
Definition slice_covers (r : Z * Z * Z * Z * Z) (i j : Z) : bool :=
  let '(r0, r1, c0, c1, _) := r in
  in_slice (dim_h (latents_shape in_channels a v)) (r0 / 8) (r1 / 8) i &&
  in_slice (dim_w (latents_shape in_channels a v)) (c0 / 8) (c1 / 8) j.

(** Tile (row, col) has the latent size [hh] x [ww] of the mask and lies
    inside the canvas. *)
Definition tile_fits (hh ww row col : Z) : Prop :=
  let '(r0, r1, c0, c1) :=
    _tile2latent_indices row col (tile_width a) (tile_height a)
                         (tile_row_overlap a) (tile_col_overlap a) in
  0 <= r0 /\ r1 = r0 + hh /\ r1 <= dim_h (latents_shape in_channels a v) /\
  0 <= c0 /\ c1 = c0 + ww /\ c1 <= dim_w (latents_shape in_channels a v).

(** Entries covered by a tile of the rows [rs], any column. *)
Definition covered_by_rows (rs : list Z) (i j : Z) : Prop :=
  exists row col, In row rs /\ In col (range (grid_cols v)) /\
                  tile_covers a row col i j = true.

(** Entries covered by a tile of the row [row] in one of the columns
    [cs]. *)
Definition covered_in_row (row : Z) (cs : list Z) (i j : Z) : Prop :=
  exists col, In col cs /\ tile_covers a row col i j = true.

End Regions.

Section GuidedPrediction.

Variable Emb : Type.
Variable unet : Tensor -> Z -> Emb -> Z -> Z -> Z -> Z -> R.
Variable lms_sigmas : option (Z -> R).
Variable a : call_args.
Variable text_embeddings : list (list Emb).
Variables i t : Z.
Variable latents : Tensor.

(** The tile's slice of the canvas latent. *)
Definition tile_slice (row col : Z) : Tensor :=
  let '(r0, r1, c0, c1) :=
    _tile2latent_indices row col (tile_width a) (tile_height a)
                         (tile_row_overlap a) (tile_col_overlap a) in
  getitem_hw latents r0 r1 c0 c1.

(** The scaling of the model input under an [LMSDiscreteScheduler]. *)
Definition lms_scaled (x : Tensor) : Tensor :=
  match lms_sigmas with
  | Some sigmas =>
      tensor_map (fun y => (y / sqrt (sigmas i * sigmas i + 1))%R) x
  | None => x
  end.

(** The scale of tile (row, col): its entry of the per-tile grid when the
    grid is given and the entry is not [None], the pipeline-wide scale
    otherwise. *)
Definition tile_scale (row col : Z) : R :=
  match guidance_scale_tiles a with
  | Some grid =>
      match getitem2 grid row col with
      | Ok (Some s) => s
      | _ => guidance_scale a
      end
  | None => guidance_scale a
  end.

(** [pred] is the guided prediction of tile (row, col): the two halves of
    the network's output on the doubled slice, combined with the tile's
    own scale. *)
Definition guided_by (row col : Z) (pred : Tensor) : Prop :=
  exists e uncond cond,
    getitem2 text_embeddings row col = Ok e /\
    chunk2 (mkTensor (tshape (lms_scaled (cat2 (tile_slice row col))))
                     (unet (lms_scaled (cat2 (tile_slice row col))) t e)) =
    Ok (uncond, cond) /\
    tshape pred = tshape uncond /\
    forall n k y x,
      in_shape (tshape uncond) n k y x ->
      elem pred n k y x =
      (elem uncond n k y x +
       tile_scale row col * (elem cond n k y x - elem uncond n k y x))%R.

End GuidedPrediction.

(** The network call that a guided step makes for a tile: on the tile's
    slice of the canvas latent, doubled and scaled. *)
Definition tile_call (lms_sigmas : option (Z -> R)) (a : call_args) (i t : Z)
  (latents : Tensor) (tile : Z * Z) : event :=
  UnetCall (lms_scaled lms_sigmas i (cat2 (tile_slice a latents (fst tile) (snd tile)))) t.


(** A call to the denoising network. *)
Definition is_unet_call (e : event) : Prop :=
  match e with
  | UnetCall _ _ => True
  | _ => False
  end.

Definition Rsum (xs : list R) : R := fold_right Rplus 0%R xs.

Section Shares.

Variable a : call_args.
Variable tile_weights : Tensor.
Variable noise_preds : list (list Tensor).
Variables n k i j : Z.

(** What a tile adds to the weight-sum buffer at entry (n, k, i, j) of the
    canvas: its mask weight there, nothing outside its region. *)
Definition weight_share (tile : Z * Z) : R :=
  let '(r0, r1, c0, c1) :=
    _tile2latent_indices (fst tile) (snd tile) (tile_width a) (tile_height a)
                         (tile_row_overlap a) (tile_col_overlap a) in
  if in_rect r0 r1 c0 c1 i j then elem tile_weights n k (i - r0) (j - c0) else 0%R.

(** What a tile adds to the prediction buffer at that entry: its own
    prediction times its mask weight. *)
Definition pred_share (tile : Z * Z) : R :=
  let '(r0, r1, c0, c1) :=
    _tile2latent_indices (fst tile) (snd tile) (tile_width a) (tile_height a)
                         (tile_row_overlap a) (tile_col_overlap a) in
  if in_rect r0 r1 c0 c1 i j then
    match getitem2 noise_preds (fst tile) (snd tile) with
    | Ok p => (elem p n k (i - r0) (j - c0) * elem tile_weights n k (i - r0) (j - c0))%R
    | Raise _ => 0%R
    end
  else 0%R.

End Shares.

(** ** Concrete inputs *)

Definition example_prompt_2x3 : list (list string) :=
  [["a"; "b"; "c"]; ["d"; "e"; "f"]]%string.

Definition example_args (p : list (list string)) (overlap : Z)
  (tiles : option (list (list (option Z))))
  (rerolls : option (list (Z * Z * Z * Z * Z))) : call_args :=
  mkArgs (PromptGrid p) 50 7.5 0 1234 16 16 overlap overlap None tiles
         (ModeStr "full") rerolls false.

Definition example_checked_2x3 : checked_args :=
  mkChecked example_prompt_2x3 2 3
            (map (map (fun _ => "full"%string)) example_prompt_2x3) [].

Definition example_noise (s : Z) (_ : shape) (n k i j : Z) : R :=
  IZR (s + 1000 * i + 100 * j).

(** A run with stand-ins for the collaborators: a denoising network that
    echoes its input, a scheduler with one timestep whose step keeps the
    latent, and a decoder that returns the latent. *)
Definition example_call (a : call_args) : traced Tensor :=
  __call__ 4 example_noise unit (fun _ => tt) (fun _ _ => tt)
           (fun x _ _ => elem x) (fun _ => [1]) None (fun _ _ latents => latents)
           Tensor (fun latents _ => latents) a.

Definition two_rerolls_args : call_args :=
  example_args [["a"]]%string 0 (Some [[Some 5]])
               (Some [(0, 16, 0, 16, 7); (0, 8, 8, 16, 9)]).

Definition two_rerolls_checked : checked_args :=
  mkChecked [["a"]]%string 1 1 [["full"]]%string
            [(0, 16, 0, 16, 7); (0, 8, 8, 16, 9)].

Definition overshooting_reroll_args : call_args :=
  example_args [["a"]]%string 0 None (Some [(0, 32, 0, 16, 7)]).

Definition overshooting_reroll_checked : checked_args :=
  mkChecked [["a"]]%string 1 1 [["full"]]%string [(0, 32, 0, 16, 7)].

Definition wrapping_reroll_args : call_args :=
  example_args [["a"]]%string 0 None (Some [(-16, -8, 0, 16, 7)]).

Definition guided_example_args : call_args :=
  mkArgs (PromptGrid [["a"; "b"]]%string) 50 7.5 0 1234 16 16 8 8
         (Some [[Some 3%R; None]]) None (ModeStr "full") None false.

Definition unguided_example_args : call_args :=
  mkArgs (PromptGrid [["a"]]%string) 50 1 0 1234 16 16 0 0
         None None (ModeStr "full") None false.

Definition empty_row_args : call_args := example_args [[]] 8 None None.

Definition empty_row_checked : checked_args := mkChecked [[]] 1 0 [[]] [].

Definition overlap8_args : call_args := example_args [["a"; "b"]]%string 8 None None.

Definition checked_1x2 : checked_args :=
  mkChecked [["a"; "b"]]%string 1 2 [["full"; "full"]]%string [].

Definition zero_tile : Tensor := torch_zeros (mkShape 1 4 2 2).

(** A 1x2 grid of 16x16 tiles whose column overlap is -8: smaller than the
    tile width and a multiple of 8. *)
Definition gap_args : call_args :=
  mkArgs (PromptGrid [["a"; "b"]]%string) 50 7.5 0 1234 16 16 0 (-8)
         None None (ModeStr "full") None false.

(** A 1x2 grid whose first tile alone has a seed of its own, with one
    reroll region in the second tile. *)
Definition one_seeded_tile_args : call_args :=
  example_args [["a"; "b"]]%string 8 (Some [[Some 5; None]]) (Some [(0, 8, 16, 24, 9)]).

Definition one_seeded_tile_checked : checked_args :=
  mkChecked [["a"; "b"]]%string 1 2 [["full"; "full"]]%string [(0, 8, 16, 24, 9)].

(** A 1x2 grid whose two tiles both have a seed of their own. *)
Definition two_seeded_tiles_args : call_args :=
  example_args [["a"; "b"]]%string 8 (Some [[Some 5; Some 6]]) None.

(** Lines 104-107: the region written for a seeded tile, by its mode. *)
Definition seeded_region (a : call_args) (v : checked_args) (mode : string)
  (row col : Z) : result region :=
  if String.eqb mode (SeedTilesMode_value FULL)
  then Ok (_tile2latent_indices row col (tile_width a) (tile_height a)
             (tile_row_overlap a) (tile_col_overlap a))
  else _tile2latent_exclusive_indices row col (tile_width a) (tile_height a)
         (tile_row_overlap a) (tile_col_overlap a) (grid_rows v) (grid_cols v).

(** A 2x2 grid seeded in exclusive mode, its first tile alone with a seed
    of its own. *)
Definition exclusive_seed_args : call_args :=
  mkArgs (PromptGrid [["a"; "b"]; ["c"; "d"]]%string) 50 7.5 0 1234 16 16 8 8
         None (Some [[Some 5; None]; [None; None]]) (ModeStr "exclusive") None false.

Definition exclusive_seed_checked : checked_args :=
  mkChecked [["a"; "b"]; ["c"; "d"]]%string 2 2
            [["exclusive"; "exclusive"]; ["exclusive"; "exclusive"]]%string [].



(** A tile-shaped prediction that is 1 everywhere. *)
Definition one_tile : Tensor := mkTensor (mkShape 1 4 2 2) (fun _ _ _ _ => 1%R).

(** * Properties *)

Example tile2latent_2x2 :
  _tile2latent_indices 1 1 512 512 256 256 = (32, 96, 32, 96).
Proof. reflexivity. Qed.

Example exclusive_2x2 :
  _tile2latent_exclusive_indices 0 0 512 512 256 256 2 2 = Ok (0, 32, 0, 32).
Proof. reflexivity. Qed.

Example exclusive_3x2_raises :
  _tile2latent_exclusive_indices 1 0 512 512 256 256 3 2 = Raise ValueError.
Proof. reflexivity. Qed.

(** ** Loops *)

Lemma for_each_app {A S : Type} (xs ys : list A) (body : A -> S -> result S) (s : S) :
  for_each (xs ++ ys) body s = (s' <- for_each xs body s ;; for_each ys body s').
Proof.
  revert s; induction xs as [|x xs IH]; intros s; simpl; [reflexivity|].
  destruct (body x s); simpl; auto.
Qed.

Lemma for_each_skip {A S : Type} (xs : list A) (body : A -> S -> result S) (s : S) :
  (forall x, In x xs -> body x s = Ok s) -> for_each xs body s = Ok s.
Proof.
  induction xs as [|x xs IH]; intros H; simpl; [reflexivity|].
  rewrite (H x (or_introl eq_refl)); simpl. apply IH; intros; apply H; now right.
Qed.

Lemma in_range (n x : Z) : In x (range n) <-> 0 <= x < n.
Proof.
  unfold range. rewrite in_map_iff. split.
  - intros (k & <- & Hk). apply in_seq in Hk. lia.
  - intros H. exists (Z.to_nat x). split; [lia|]. apply in_seq. lia.
Qed.

Lemma range_succ (n : Z) : 0 <= n -> range (n + 1) = range n ++ [n].
Proof.
  intros H. unfold range.
  replace (Z.to_nat (n + 1)) with (Z.to_nat n + 1)%nat by lia.
  rewrite seq_app, map_app. simpl. now rewrite Z2Nat.id.
Qed.

(** ** Coordinate transforms *)

Lemma tile2latent_indices_eq (row col tw th ro co : Z) :
  _tile2latent_indices row col tw th ro co =
  ((row * (th - ro)) / 8, (row * (th - ro) + th) / 8,
   (col * (tw - co)) / 8, (col * (tw - co) + tw) / 8).
Proof.
  unfold _tile2latent_indices, _tile2pixel_indices, _pixel2latent_indices.
  destruct (Z.eqb_spec row 0) as [->|_], (Z.eqb_spec col 0) as [->|_];
    rewrite ?Z.mul_0_l; reflexivity.
Qed.

(** C9.  With an overlap strictly smaller than the tile size on each axis,
    the pixel start offsets returned by [_tile2pixel_indices] give back
    the tile's (row, col), so two tiles with the same pixel extents are
    the same tile. *)
Theorem tile2pixel_roundtrip
  (row col tile_width tile_height tile_row_overlap tile_col_overlap : Z)
  (Hrow : tile_row_overlap < tile_height) (Hcol : tile_col_overlap < tile_width) :
  (let '(px_row_init, _, px_col_init, _) :=
     _tile2pixel_indices row col tile_width tile_height
                         tile_row_overlap tile_col_overlap in
   pixel2tile_spec px_row_init px_col_init tile_width tile_height
                   tile_row_overlap tile_col_overlap = (row, col))
  /\ (forall row' col',
         _tile2pixel_indices row' col' tile_width tile_height
                             tile_row_overlap tile_col_overlap =
         _tile2pixel_indices row col tile_width tile_height
                             tile_row_overlap tile_col_overlap ->
         (row', col') = (row, col)).
Proof.
  assert (Hinit : forall r c,
             _tile2pixel_indices r c tile_width tile_height
                                 tile_row_overlap tile_col_overlap =
             (r * (tile_height - tile_row_overlap),
              r * (tile_height - tile_row_overlap) + tile_height,
              c * (tile_width - tile_col_overlap),
              c * (tile_width - tile_col_overlap) + tile_width)).
  { intros r c. unfold _tile2pixel_indices.
    destruct (Z.eqb_spec r 0) as [->|_], (Z.eqb_spec c 0) as [->|_];
      rewrite ?Z.mul_0_l; reflexivity. }
  split.
  - rewrite Hinit. unfold pixel2tile_spec.
    rewrite !Z.div_mul by lia. reflexivity.
  - intros row' col'. rewrite !Hinit. intros H.
    injection H as Hr _ Hc _.
    apply Z.mul_cancel_r in Hr; [|lia]. apply Z.mul_cancel_r in Hc; [|lia].
    congruence.
Qed.

Lemma tile2pixel_roundtrip_witness :
  (let '(px_row_init, _, px_col_init, _) := _tile2pixel_indices 2 3 512 512 256 128 in
   pixel2tile_spec px_row_init px_col_init 512 512 256 128 = (2, 3))
  /\ (forall row' col',
         _tile2pixel_indices row' col' 512 512 256 128 =
         _tile2pixel_indices 2 3 512 512 256 128 ->
         (row', col') = (2, 3)).
Proof. apply (tile2pixel_roundtrip 2 3 512 512 256 128); lia. Defined.

(** In a grid of a single row no tile is subtracted at all: the loop of
    [_tile2latent_exclusive_indices] skips every tile that shares the row
    (or the column) of the tile in hand, so the region it returns is the
    whole inclusive region, overlap with the neighbours included. *)
Lemma exclusive_indices_single_row
  (tile_col tile_width tile_height tile_row_overlap tile_col_overlap columns : Z)
  (Hh : 0 <= tile_height) (Hw : 0 <= tile_width) :
  _tile2latent_exclusive_indices 0 tile_col tile_width tile_height
                                 tile_row_overlap tile_col_overlap 1 columns =
  Ok (_tile2latent_indices 0 tile_col tile_width tile_height
                           tile_row_overlap tile_col_overlap).
Proof.
  unfold _tile2latent_exclusive_indices. rewrite tile2latent_indices_eq.
  rewrite for_each_skip.
  - simpl bind. unfold segment.
    assert (Hr : 0 / 8 <= tile_height / 8) by (apply Z.div_le_mono; lia).
    assert (Hc : tile_col * (tile_width - tile_col_overlap) / 8 <=
                 (tile_col * (tile_width - tile_col_overlap) + tile_width) / 8)
      by (apply Z.div_le_mono; lia).
    apply Z.leb_le in Hr, Hc. rewrite Hr, Hc. reflexivity.
  - intros row Hrow. apply in_range in Hrow. assert (row = 0) as -> by lia.
    apply for_each_skip. intros column _. reflexivity.
Qed.

Lemma for_each_ext {A S : Type} (xs : list A) (body body' : A -> S -> result S) :
  (forall x s, In x xs -> body x s = body' x s) ->
  forall s, for_each xs body s = for_each xs body' s.
Proof.
  induction xs as [|x xs IH]; intros Hext s; [reflexivity|].
  cbn [for_each]. rewrite (Hext x s (or_introl eq_refl)).
  destruct (body' x s) as [s'|e]; [|reflexivity]. cbn [bind].
  apply IH. intros y s0 Hy. apply Hext. now right.
Qed.

Lemma for_each_map {A B S : Type} (g : A -> B) (xs : list A)
  (body : B -> S -> result S) (s : S) :
  for_each (map g xs) body s = for_each xs (fun x => body (g x)) s.
Proof.
  revert s. induction xs as [|x xs IH]; intros s; [reflexivity|].
  cbn [map for_each]. destruct (body (g x) s); [|reflexivity]. apply IH.
Qed.

Lemma for_each_flat_map {A B S : Type} (f : A -> list B) (xs : list A)
  (body : B -> S -> result S) (s : S) :
  for_each (flat_map f xs) body s = for_each xs (fun x => for_each (f x) body) s.
Proof.
  revert s. induction xs as [|x xs IH]; intros s; [reflexivity|].
  cbn [flat_map for_each]. rewrite for_each_app.
  destruct (for_each (f x) body s); [|reflexivity]. apply IH.
Qed.

Lemma for_each_filter {A S : Type} (p : A -> bool) (xs : list A)
  (body : A -> S -> result S) (s : S) :
  for_each (filter p xs) body s =
  for_each xs (fun x s' => if p x then body x s' else Ok s') s.
Proof.
  revert s. induction xs as [|x xs IH]; intros s; [reflexivity|].
  cbn [filter for_each]. destruct (p x).
  - cbn [for_each]. destruct (body x s); [|reflexivity]. apply IH.
  - cbn [bind]. apply IH.
Qed.

Lemma filter_flat_map {A B : Type} (p : B -> bool) (f : A -> list B) (xs : list A) :
  filter p (flat_map f xs) = flat_map (fun x => filter p (f x)) xs.
Proof.
  induction xs as [|x xs IH]; [reflexivity|].
  cbn [flat_map]. now rewrite filter_app, IH.
Qed.

(** The loop of [_tile2latent_exclusive_indices], tile by tile: it
    subtracts, in row-major order, the inclusive latent region of every
    tile that lies in another row and another column, with the same
    [ValueError] when a subtraction does not leave one interval. *)
Lemma exclusive_indices_as_spec
  (tile_row tile_col tile_width tile_height tile_row_overlap tile_col_overlap
   rows columns : Z) :
  _tile2latent_exclusive_indices tile_row tile_col tile_width tile_height
                                 tile_row_overlap tile_col_overlap rows columns =
  exclusive_region_spec (off_axis_tile tile_row tile_col)
                        tile_row tile_col tile_width tile_height
                        tile_row_overlap tile_col_overlap rows columns.
Proof.
  unfold _tile2latent_exclusive_indices, exclusive_region_spec, grid_tiles.
  destruct (_tile2latent_indices tile_row tile_col tile_width tile_height
              tile_row_overlap tile_col_overlap) as [[[row_init row_end] col_init] col_end].
  f_equal.
  rewrite filter_flat_map, for_each_flat_map.
  apply for_each_ext. intros row [rs cs] _.
  rewrite for_each_filter, for_each_map.
  apply for_each_ext. intros column [rs' cs'] _.
  unfold off_axis_tile.
  destruct (negb (row =? tile_row) && negb (column =? tile_col)); reflexivity.
Qed.

(** C1 does not hold as stated.  In the 2x2 grid of 512-pixel tiles with
    overlap 256, subtracting every other tile would start with tile (0,1),
    whose row interval is the row interval of tile (0,0) itself and leaves
    nothing of it: the subtraction raises.  The code skips the tiles that
    share the row or the column of the tile in hand and returns rows and
    columns [0, 32). *)
Lemma exclusive_indices_not_every_other_tile :
  _tile2latent_exclusive_indices 0 0 512 512 256 256 2 2 = Ok (0, 32, 0, 32) /\
  exclusive_region_spec (every_other_tile 0 0) 0 0 512 512 256 256 2 2 =
  Raise ValueError /\
  _tile2latent_exclusive_indices 0 0 512 512 256 256 2 2 <>
  exclusive_region_spec (every_other_tile 0 0) 0 0 512 512 256 256 2 2.
Proof.
  split; [reflexivity|]. split; [reflexivity|]. discriminate.
Qed.

(** ** Slice updates *)

Lemma bind_ok {A B : Type} (m : result A) (k : A -> result B) (b : B) :
  bind m k = Ok b -> exists x, m = Ok x /\ k x = Ok b.
Proof. destruct m as [x|e]; simpl; [eauto | discriminate]. Qed.

Lemma for_each_ind {A S : Type} (P : list A -> S -> Prop) (body : A -> S -> result S) :
  forall xs pre s s',
    P pre s ->
    (forall pre' x s1 s2, P pre' s1 -> In x xs -> body x s1 = Ok s2 -> P (pre' ++ [x]) s2) ->
    for_each xs body s = Ok s' ->
    P (pre ++ xs) s'.
Proof.
  induction xs as [|x xs IH]; intros pre s s' HP Hstep Hrun; simpl in Hrun.
  - injection Hrun as <-. now rewrite app_nil_r.
  - apply bind_ok in Hrun as (s1 & Hx & Hrest).
    replace (pre ++ x :: xs) with ((pre ++ [x]) ++ xs)
      by (rewrite <- app_assoc; reflexivity).
    apply IH with (s := s1); auto.
    + apply Hstep with (s1 := s); auto. now left.
    + intros pre' y s2 s3 H1 H2 H3. apply Hstep with (s1 := s2); auto. now right.
Qed.

Lemma for_each_preserves {A S : Type} (P : S -> Prop) (body : A -> S -> result S) :
  forall xs s s',
    P s ->
    (forall x s1 s2, P s1 -> In x xs -> body x s1 = Ok s2 -> P s2) ->
    for_each xs body s = Ok s' ->
    P s'.
Proof.
  intros xs s s' HP Hstep Hrun.
  apply (for_each_ind (fun _ => P) body xs [] s s'); eauto.
Qed.

Lemma update_hw_ok (f : R -> R -> R) (t : Tensor) (a b c d : Z) (src t' : Tensor) :
  update_hw f t a b c d src = Ok t' ->
  expands_to (tshape src) (slice_shape (tshape t) a b c d) = true /\
  tshape t' = tshape t /\
  forall n k i j,
    elem t' n k i j =
    if in_slice (dim_h (tshape t)) a b i && in_slice (dim_w (tshape t)) c d j
    then f (elem t n k i j)
           (expanded src n k (i - slice_bound (dim_h (tshape t)) a)
                             (j - slice_bound (dim_w (tshape t)) c))
    else elem t n k i j.
Proof.
  unfold update_hw.
  destruct (expands_to (tshape src) (slice_shape (tshape t) a b c d)); [|discriminate].
  intros H. injection H as <-. repeat split.
Qed.

Lemma update_hw_shape (f : R -> R -> R) (t : Tensor) (a b c d : Z) (src t' : Tensor) :
  update_hw f t a b c d src = Ok t' -> tshape t' = tshape t.
Proof. intros H. now apply update_hw_ok in H. Qed.

Lemma slice_bound_in_range (n i : Z) : 0 <= i <= n -> slice_bound n i = i.
Proof.
  intros H. unfold slice_bound.
  destruct (Z.ltb_spec i 0); lia.
Qed.

Lemma expand_index_in_range (s i : Z) : 0 <= i < s -> expand_index s i = i.
Proof.
  intros H. unfold expand_index. destruct (Z.eqb_spec s 1); lia.
Qed.

Lemma expandable_refl (s : Z) : expandable s s = true.
Proof. unfold expandable. now rewrite Z.eqb_refl. Qed.

Lemma expands_to_refl (sh : shape) : expands_to sh sh = true.
Proof. unfold expands_to. now rewrite !expandable_refl. Qed.

(** A slice that lies inside the tensor, updated from a source of exactly
    the slice's shape. *)
Lemma update_hw_in_range (f : R -> R -> R) (t : Tensor) (a b c d : Z) (src : Tensor) :
  0 <= a <= b -> b <= dim_h (tshape t) ->
  0 <= c <= d -> d <= dim_w (tshape t) ->
  tshape src = mkShape (dim_b (tshape t)) (dim_c (tshape t)) (b - a) (d - c) ->
  exists t',
    update_hw f t a b c d src = Ok t' /\
    tshape t' = tshape t /\
    forall n k i j,
      0 <= n < dim_b (tshape t) -> 0 <= k < dim_c (tshape t) ->
      elem t' n k i j =
      if (a <=? i) && (i <? b) && ((c <=? j) && (j <? d))
      then f (elem t n k i j) (elem src n k (i - a) (j - c))
      else elem t n k i j.
Proof.
  intros Ha Hb Hc Hd Hs.
  unfold update_hw, slice_shape, slice_len, in_slice.
  rewrite !slice_bound_in_range by lia.
  rewrite !Z.max_r by lia. rewrite Hs, expands_to_refl.
  eexists; split; [reflexivity|]. split; [reflexivity|].
  intros n k i j Hn Hk. simpl.
  destruct ((a <=? i) && (i <? b)) eqn:Hi; [|reflexivity].
  destruct ((c <=? j) && (j <? d)) eqn:Hj; [|reflexivity]. simpl.
  unfold expanded. rewrite Hs. simpl.
  rewrite !expand_index_in_range by lia. reflexivity.
Qed.

(** ** The initial canvas latent *)

Section InitialLatents.

Variable in_channels : Z.
Variable noise : Z -> shape -> Z -> Z -> Z -> Z -> R.
Variable a : call_args.
Variable v : checked_args.

Let canvas := latents_shape in_channels a v.

Lemma torch_randn_ok (sh : shape) (s : Z) (t : Tensor) :
  torch_randn noise sh s = Ok t ->
  t = mkTensor sh (noise s sh) /\
  0 <= dim_b sh /\ 0 <= dim_c sh /\ 0 <= dim_h sh /\ 0 <= dim_w sh.
Proof.
  unfold torch_randn.
  destruct (Z.ltb_spec (dim_b sh) 0), (Z.ltb_spec (dim_c sh) 0),
    (Z.ltb_spec (dim_h sh) 0), (Z.ltb_spec (dim_w sh) 0); simpl;
    try discriminate.
  intros Heq. injection Heq as <-. repeat split; assumption.
Qed.

Lemma torch_randn_nonneg (sh : shape) (s : Z) :
  0 <= dim_b sh -> 0 <= dim_c sh -> 0 <= dim_h sh -> 0 <= dim_w sh ->
  torch_randn noise sh s = Ok (mkTensor sh (noise s sh)).
Proof.
  intros Hb Hc Hh Hw. unfold torch_randn.
  destruct (Z.ltb_spec (dim_b sh) 0), (Z.ltb_spec (dim_c sh) 0),
    (Z.ltb_spec (dim_h sh) 0), (Z.ltb_spec (dim_w sh) 0); simpl;
    try lia; reflexivity.
Qed.

Lemma seed_tile_body_shape (seed_tiles : list (list (option Z))) (row col : Z)
  (latents latents' : Tensor) :
  seed_tile_body in_channels noise a v seed_tiles row col latents = Ok latents' ->
  tshape latents' = tshape latents.
Proof.
  unfold seed_tile_body. intros H.
  apply bind_ok in H as (s & _ & H1). destruct s as [s|];
    [|now injection H1 as <-].
  apply bind_ok in H1 as (mode & _ & H2).
  apply bind_ok in H2 as ([[[r0 r1] c0] c1] & _ & H3).
  apply bind_ok in H3 as (tile & _ & H4).
  now apply update_hw_shape in H4.
Qed.

Lemma seed_tiles_loop_shape (latents latents' : Tensor) :
  seed_tiles_loop in_channels noise a v latents = Ok latents' ->
  tshape latents' = tshape latents.
Proof.
  unfold seed_tiles_loop. destruct (seed_tiles a) as [g|];
    [|now intros H; injection H as <-].
  apply (for_each_preserves (fun t => tshape t = tshape latents)); [reflexivity|].
  intros row s1 s2 H1 _.
  apply (for_each_preserves (fun t => tshape t = tshape latents)); [assumption|].
  intros col s3 s4 H3 _ H. apply seed_tile_body_shape in H. congruence.
Qed.

Lemma reroll_body_shape (r : Z * Z * Z * Z * Z) (latents latents' : Tensor) :
  reroll_body in_channels noise a v r latents = Ok latents' ->
  tshape latents' = tshape latents.
Proof.
  destruct r as [[[[r0 r1] c0] c1] s]. unfold reroll_body. simpl. intros H.
  apply bind_ok in H as (src & _ & H1). now apply update_hw_shape in H1.
Qed.

Lemma for_each_reroll_shape (rs : list (Z * Z * Z * Z * Z)) (latents latents' : Tensor) :
  for_each rs (reroll_body in_channels noise a v) latents = Ok latents' ->
  tshape latents' = tshape latents.
Proof.
  apply (for_each_preserves (fun t => tshape t = tshape latents)); [reflexivity|].
  intros r s1 s2 H1 _ H. apply reroll_body_shape in H. congruence.
Qed.

Lemma initial_latents_shape (latents : Tensor) :
  initial_latents in_channels noise a v = Ok latents ->
  tshape latents = canvas /\ 0 <= dim_c canvas /\ 0 <= dim_h canvas /\ 0 <= dim_w canvas.
Proof.
  unfold initial_latents. intros H.
  apply bind_ok in H as (l0 & H0 & H').
  apply bind_ok in H' as (l1 & H1 & H2).
  apply torch_randn_ok in H0 as (-> & _ & Hc & Hh & Hw).
  apply seed_tiles_loop_shape in H1. apply for_each_reroll_shape in H2.
  split; [|auto]. rewrite H2, H1. reflexivity.
Qed.

End InitialLatents.

(** ** Overwrites of the canvas latent *)

Section Overwrites.

Variable in_channels : Z.
Variable noise : Z -> shape -> Z -> Z -> Z -> Z -> R.
Variable a : call_args.
Variable v : checked_args.

Let canvas := latents_shape in_channels a v.

Lemma overwrite_in_canvas (latents : Tensor) (r0 r1 c0 c1 s : Z) :
  tshape latents = canvas -> 0 <= in_channels ->
  rect_in_canvas in_channels a v r0 r1 c0 c1 ->
  exists latents',
    (src <- torch_randn noise (mkShape (dim_b canvas) (dim_c canvas) (r1 - r0) (c1 - c0)) s ;;
     setitem_hw latents r0 r1 c0 c1 src) = Ok latents' /\
    tshape latents' = canvas /\
    forall n k i j,
      0 <= n < 1 -> 0 <= k < in_channels ->
      elem latents' n k i j =
      if in_rect r0 r1 c0 c1 i j
      then noise s (mkShape 1 in_channels (r1 - r0) (c1 - c0)) n k (i - r0) (j - c0)
      else elem latents n k i j.
Proof.
  intros Hsh Hc (Hr0 & Hr1 & Hc0 & Hc1).
  rewrite torch_randn_nonneg by (simpl; unfold batch_size; lia).
  cbn [bind]. unfold setitem_hw.
  destruct (update_hw_in_range (fun _ new => new) latents r0 r1 c0 c1
              (mkTensor (mkShape (dim_b canvas) (dim_c canvas) (r1 - r0) (c1 - c0))
                        (noise s (mkShape (dim_b canvas) (dim_c canvas)
                                          (r1 - r0) (c1 - c0)))))
    as (t' & Hok & Hshape & Helem); try (rewrite Hsh; assumption); try assumption.
  { simpl. rewrite Hsh. reflexivity. }
  exists t'. split; [exact Hok|]. split; [congruence|].
  intros n k i j Hn Hk. rewrite Helem by (rewrite Hsh; simpl; unfold batch_size; lia).
  reflexivity.
Qed.

(** A tile seeded in [full] mode whose inclusive region lies inside the
    canvas. *)
Lemma seed_tile_body_full (seed_tiles : list (list (option Z))) (row col s : Z)
  (latents : Tensor) (r0 r1 c0 c1 : Z) :
  getitem2 seed_tiles row col = Ok (Some s) ->
  getitem2 (mode_grid v) row col = Ok (SeedTilesMode_value FULL) ->
  _tile2latent_indices row col (tile_width a) (tile_height a)
                       (tile_row_overlap a) (tile_col_overlap a) = (r0, r1, c0, c1) ->
  tshape latents = canvas -> 0 <= in_channels ->
  rect_in_canvas in_channels a v r0 r1 c0 c1 ->
  exists latents',
    seed_tile_body in_channels noise a v seed_tiles row col latents = Ok latents' /\
    tshape latents' = canvas /\
    forall n k i j,
      0 <= n < 1 -> 0 <= k < in_channels ->
      elem latents' n k i j =
      if in_rect r0 r1 c0 c1 i j
      then noise s (mkShape 1 in_channels (r1 - r0) (c1 - c0)) n k (i - r0) (j - c0)
      else elem latents n k i j.
Proof.
  intros Hs Hm Hreg Hsh Hc Hrect. unfold seed_tile_body.
  rewrite Hs. cbn [bind]. rewrite Hm. cbn [bind].
  rewrite String.eqb_refl, Hreg. cbn [bind].
  now apply overwrite_in_canvas.
Qed.

(** A reroll region whose latent rectangle lies inside the canvas. *)
Lemma reroll_body_in_canvas (r0 r1 c0 c1 s : Z) (latents : Tensor) :
  tshape latents = canvas -> 0 <= in_channels ->
  rect_in_canvas in_channels a v (r0 / 8) (r1 / 8) (c0 / 8) (c1 / 8) ->
  exists latents',
    reroll_body in_channels noise a v (r0, r1, c0, c1, s) latents = Ok latents' /\
    tshape latents' = canvas /\
    forall n k i j,
      0 <= n < 1 -> 0 <= k < in_channels ->
      elem latents' n k i j =
      if in_rect (r0 / 8) (r1 / 8) (c0 / 8) (c1 / 8) i j
      then noise s (mkShape 1 in_channels (r1 / 8 - r0 / 8) (c1 / 8 - c0 / 8))
                 n k (i - r0 / 8) (j - c0 / 8)
      else elem latents n k i j.
Proof.
  intros Hsh Hc Hrect. unfold reroll_body, _pixel2latent_indices.
  now apply overwrite_in_canvas.
Qed.

(** Reroll regions inside the canvas are all applied, and leave alone
    every entry that none of them covers. *)
Lemma reroll_regions_in_canvas (rs : list (Z * Z * Z * Z * Z)) :
  0 <= in_channels ->
  Forall (region_in_canvas in_channels a v) rs ->
  forall latents,
    tshape latents = canvas ->
    exists latents',
      for_each rs (reroll_body in_channels noise a v) latents = Ok latents' /\
      tshape latents' = canvas /\
      forall n k i j,
        0 <= n < 1 -> 0 <= k < in_channels ->
        forallb (fun r => negb (region_covers r i j)) rs = true ->
        elem latents' n k i j = elem latents n k i j.
Proof.
  intros Hc. induction 1 as [|r rs Hr Hrs IH]; intros latents Hsh.
  - exists latents. simpl. auto.
  - destruct r as [[[[r0 r1] c0] c1] s].
    destruct (reroll_body_in_canvas r0 r1 c0 c1 s latents Hsh Hc Hr)
      as (l1 & Hok1 & Hsh1 & Hel1).
    destruct (IH l1 Hsh1) as (l2 & Hok2 & Hsh2 & Hel2).
    exists l2. cbn [for_each]. rewrite Hok1. cbn [bind].
    split; [exact Hok2|]. split; [exact Hsh2|].
    intros n k i j Hn Hk Hcov. simpl in Hcov.
    apply andb_prop in Hcov as (Hcov1 & Hcov2).
    rewrite Hel2, Hel1 by assumption.
    apply negb_true_iff in Hcov1. now rewrite Hcov1.
Qed.

(** Any reroll region whose assignment goes through. *)
Lemma reroll_body_elem (r0 r1 c0 c1 s : Z) (latents latents' : Tensor) :
  tshape latents = canvas ->
  reroll_body in_channels noise a v (r0, r1, c0, c1, s) latents = Ok latents' ->
  tshape latents' = canvas /\
  forall n k i j,
    elem latents' n k i j =
    if slice_covers in_channels a v (r0, r1, c0, c1, s) i j
    then expanded
           (mkTensor (mkShape 1 in_channels (r1 / 8 - r0 / 8) (c1 / 8 - c0 / 8))
                     (noise s (mkShape 1 in_channels (r1 / 8 - r0 / 8) (c1 / 8 - c0 / 8))))
           n k (i - slice_bound (dim_h canvas) (r0 / 8))
               (j - slice_bound (dim_w canvas) (c0 / 8))
    else elem latents n k i j.
Proof.
  intros Hsh. unfold reroll_body, _pixel2latent_indices. intros H.
  apply bind_ok in H as (src & Hsrc & Hset).
  apply torch_randn_ok in Hsrc as (-> & _).
  apply update_hw_ok in Hset as (_ & Hsh' & Hel).
  split; [congruence|]. intros n k i j. rewrite Hel, Hsh. reflexivity.
Qed.

Lemma reroll_loop_untouched (rs : list (Z * Z * Z * Z * Z)) :
  forall latents latents',
    tshape latents = canvas ->
    for_each rs (reroll_body in_channels noise a v) latents = Ok latents' ->
    forall n k i j,
      forallb (fun r => negb (slice_covers in_channels a v r i j)) rs = true ->
      elem latents' n k i j = elem latents n k i j.
Proof.
  induction rs as [|r rs IH]; intros latents latents' Hsh Hrun n k i j Hcov.
  - simpl in Hrun. now injection Hrun as <-.
  - cbn [for_each] in Hrun. apply bind_ok in Hrun as (l1 & H1 & Hrest).
    destruct r as [[[[r0 r1] c0] c1] s].
    destruct (reroll_body_elem r0 r1 c0 c1 s latents l1 Hsh H1) as (Hsh1 & Hel1).
    cbn [forallb] in Hcov. apply andb_prop in Hcov as (Hcov1 & Hcov2).
    rewrite (IH l1 latents' Hsh1 Hrest n k i j Hcov2), Hel1.
    apply negb_true_iff in Hcov1. now rewrite Hcov1.
Qed.

(** Inside the canvas, the slice of a region with non-negative start
    bounds contains the region's own latent rectangle. *)
Lemma slice_covers_in_rect (r0 r1 c0 c1 s i j : Z) :
  0 <= r0 / 8 -> 0 <= c0 / 8 ->
  0 <= i < dim_h canvas -> 0 <= j < dim_w canvas ->
  in_rect (r0 / 8) (r1 / 8) (c0 / 8) (c1 / 8) i j = true ->
  slice_covers in_channels a v (r0, r1, c0, c1, s) i j = true.
Proof.
  intros Hr0 Hc0 Hi Hj Hrect. unfold canvas in *.
  unfold slice_covers, in_slice, slice_bound. unfold in_rect in Hrect.
  destruct (Z.ltb_spec (r0 / 8) 0), (Z.ltb_spec (r1 / 8) 0),
    (Z.ltb_spec (c0 / 8) 0), (Z.ltb_spec (c1 / 8) 0); lia.
Qed.

End Overwrites.

(** C8.  Reroll regions are written after every tile seed, in listed
    order.  In a run that builds the canvas latent, whatever the tile
    seeds wrote, every entry of a reroll region's latent rectangle that no
    later-listed region writes holds that region's own draw: the entry of
    the tensor drawn from the reroll seed with the region's shape, at the
    entry's offset inside the region.  And when the tile seeds have been
    applied and every region lies inside the canvas, the run does build
    the canvas latent. *)
Theorem reroll_overrides_tile_seeds
  (in_channels : Z) (noise : Z -> shape -> Z -> Z -> Z -> Z -> R)
  (a : call_args) (v : checked_args)
  (pre post : list (Z * Z * Z * Z * Z)) (r0 r1 c0 c1 s : Z) :
  reroll_regions v = pre ++ (r0, r1, c0, c1, s) :: post ->
  (forall latents,
      initial_latents in_channels noise a v = Ok latents ->
      forall n k i j,
        in_shape (latents_shape in_channels a v) n k i j ->
        0 <= r0 / 8 -> 0 <= c0 / 8 ->
        in_rect (r0 / 8) (r1 / 8) (c0 / 8) (c1 / 8) i j = true ->
        forallb (fun r => negb (slice_covers in_channels a v r i j)) post = true ->
        elem latents n k i j =
        noise s (mkShape 1 in_channels (r1 / 8 - r0 / 8) (c1 / 8 - c0 / 8))
              n k (i - r0 / 8) (j - c0 / 8)) /\
  (forall latents0 latents1,
      torch_randn noise (latents_shape in_channels a v) (seed a) = Ok latents0 ->
      seed_tiles_loop in_channels noise a v latents0 = Ok latents1 ->
      Forall (region_in_canvas in_channels a v) (reroll_regions v) ->
      exists latents, initial_latents in_channels noise a v = Ok latents).
Proof.
  intros Hrs. split.
  - intros latents Hrun n k i j Hin Hr0 Hc0 Hrect Hpost.
    unfold initial_latents, reroll_loop in Hrun.
    apply bind_ok in Hrun as (l0 & H0 & Hrun).
    apply bind_ok in Hrun as (l1 & H1 & Hrun).
    assert (Hsh1 : tshape l1 = latents_shape in_channels a v).
    { apply seed_tiles_loop_shape in H1. rewrite H1.
      apply torch_randn_ok in H0 as (-> & _). reflexivity. }
    rewrite Hrs, for_each_app in Hrun.
    apply bind_ok in Hrun as (l2 & H2 & Hrun).
    cbn [for_each] in Hrun. apply bind_ok in Hrun as (l3 & H3 & H4).
    assert (Hsh2 : tshape l2 = latents_shape in_channels a v)
      by (apply for_each_reroll_shape in H2; congruence).
    destruct (reroll_body_elem in_channels noise a v r0 r1 c0 c1 s l2 l3 Hsh2 H3)
      as (Hsh3 & Hel3).
    rewrite (reroll_loop_untouched in_channels noise a v post l3 latents Hsh3 H4
               n k i j Hpost), Hel3.
    destruct Hin as (Hn & Hk & Hi & Hj). cbn [dim_b dim_c latents_shape] in Hn, Hk.
    unfold batch_size in Hn.
    rewrite slice_covers_in_rect by assumption.
    apply andb_prop in Hrect as (Hri & Hcj).
    apply andb_prop in Hri as (Hri0 & Hri1). apply andb_prop in Hcj as (Hcj0 & Hcj1).
    apply Z.leb_le in Hri0, Hcj0. apply Z.ltb_lt in Hri1, Hcj1.
    unfold expanded. cbn [tshape elem dim_b dim_c dim_h dim_w].
    rewrite !slice_bound_in_range by lia.
    rewrite !expand_index_in_range by lia. reflexivity.
  - intros latents0 latents1 H0 H1 Hall.
    assert (Hsh1 : tshape latents1 = latents_shape in_channels a v).
    { apply seed_tiles_loop_shape in H1. rewrite H1.
      apply torch_randn_ok in H0 as (-> & _). reflexivity. }
    assert (Hc : 0 <= in_channels) by (apply torch_randn_ok in H0; simpl in H0; tauto).
    destruct (reroll_regions_in_canvas in_channels noise a v (reroll_regions v)
                Hc Hall latents1 Hsh1) as (l2 & Hok2 & _).
    exists l2. unfold initial_latents, reroll_loop.
    rewrite H0. cbn [bind]. rewrite H1. cbn [bind]. exact Hok2.
Qed.

(** C7.  In a 1x2 grid with a positive column overlap, seeding both tiles
    in [full] mode writes tile (0,0) first and tile (0,1) second: every
    entry of the overlap (the columns shared by the two inclusive regions)
    ends up holding tile (0,1)'s draw from seedB, whatever seedA is. *)
Theorem full_seeding_last_write_wins
  (in_channels : Z) (noise : Z -> shape -> Z -> Z -> Z -> Z -> R)
  (a : call_args) (p0 p1 : string) (seedA seedB : Z) :
  prompt a = PromptGrid [[p0; p1]] ->
  seed_tiles a = Some [[Some seedA; Some seedB]] ->
  seed_tiles_mode a = ModeStr (SeedTilesMode_value FULL) ->
  seed_reroll_regions a = None ->
  0 <= in_channels -> 0 <= tile_height a ->
  0 < tile_col_overlap a < tile_width a ->
  exists v latents,
    validate a = Ok v /\
    initial_latents in_channels noise a v = Ok latents /\
    let '(r0, r1, c0, c1) :=
      _tile2latent_indices 0 1 (tile_width a) (tile_height a)
                           (tile_row_overlap a) (tile_col_overlap a) in
    forall n k i j,
      0 <= n < 1 -> 0 <= k < in_channels ->
      0 <= i < tile_height a / 8 ->
      (tile_width a - tile_col_overlap a) / 8 <= j < tile_width a / 8 ->
      elem latents n k i j =
      noise seedB (mkShape 1 in_channels (r1 - r0) (c1 - c0)) n k (i - r0) (j - c0).
Proof.
  intros Hp Hs Hm Hr Hc Hh Ho.
  set (v := mkChecked [[p0; p1]] 1 2
              [[SeedTilesMode_value FULL; SeedTilesMode_value FULL]] []).
  assert (Hv : validate a = Ok v).
  { unfold validate. rewrite Hp, Hm, Hr. reflexivity. }
  exists v.
  set (H := tile_height a / 8). set (W0 := (tile_width a - tile_col_overlap a) / 8).
  set (W1 := tile_width a / 8).
  set (W := (tile_width a + (tile_width a - tile_col_overlap a)) / 8).
  assert (HH : 0 <= H) by (apply Z.div_pos; lia).
  assert (HW0 : 0 <= W0) by (apply Z.div_pos; lia).
  assert (HW01 : W0 <= W1) by (apply Z.div_le_mono; lia).
  assert (HW1 : W1 <= W) by (apply Z.div_le_mono; lia).
  assert (HW0W : W0 <= W) by lia.
  assert (Hcanvas : latents_shape in_channels a v = mkShape 1 in_channels H W).
  { unfold latents_shape, v, H, W, batch_size. cbn [grid_rows grid_cols].
    f_equal; f_equal; lia. }
  assert (HregA : _tile2latent_indices 0 0 (tile_width a) (tile_height a)
                    (tile_row_overlap a) (tile_col_overlap a) = (0, H, 0, W1)).
  { reflexivity. }
  assert (HregB : _tile2latent_indices 0 1 (tile_width a) (tile_height a)
                    (tile_row_overlap a) (tile_col_overlap a) = (0, H, W0, W)).
  { rewrite tile2latent_indices_eq. unfold H, W0, W.
    rewrite !Z.mul_0_l, !Z.mul_1_l, Z.add_0_l.
    replace (tile_width a - tile_col_overlap a + tile_width a)
      with (tile_width a + (tile_width a - tile_col_overlap a)) by lia.
    reflexivity. }
  set (L0 := mkTensor (latents_shape in_channels a v)
                      (noise (seed a) (latents_shape in_channels a v))).
  destruct (seed_tile_body_full in_channels noise a v
              [[Some seedA; Some seedB]] 0 0 seedA L0 0 H 0 W1)
    as (L1 & Hok1 & Hsh1 & _);
    try reflexivity; try assumption.
  { unfold rect_in_canvas. rewrite Hcanvas. simpl. lia. }
  destruct (seed_tile_body_full in_channels noise a v
              [[Some seedA; Some seedB]] 0 1 seedB L1 0 H W0 W)
    as (L2 & Hok2 & Hsh2 & Hel2);
    try reflexivity; try assumption.
  { unfold rect_in_canvas. rewrite Hcanvas. simpl. lia. }
  exists L2. split; [exact Hv|]. split.
  - unfold initial_latents.
    rewrite torch_randn_nonneg by (rewrite Hcanvas; simpl; lia).
    cbn [bind]. unfold seed_tiles_loop. rewrite Hs.
    change (range (grid_rows v)) with [0]. change (range (grid_cols v)) with [0; 1].
    cbn [for_each]. fold L0. rewrite Hok1. cbn [bind]. rewrite Hok2. cbn [bind].
    reflexivity.
  - rewrite HregB. intros n k i j Hn Hk Hi Hj. fold H in Hi. fold W0 W1 in Hj.
    rewrite Hel2 by assumption. unfold in_rect.
    replace ((0 <=? i) && (i <? H) && ((W0 <=? j) && (j <? W))) with true; [reflexivity|].
    symmetry. rewrite !andb_true_iff, !Z.leb_le, !Z.ltb_lt. lia.
Qed.

Lemma full_seeding_last_write_wins_witness :
  exists v latents,
    validate (example_args [["a"; "b"]]%string 8 (Some [[Some 5; Some 6]]) None) = Ok v /\
    initial_latents 4 example_noise
      (example_args [["a"; "b"]]%string 8 (Some [[Some 5; Some 6]]) None) v = Ok latents /\
    forall n k i j,
      0 <= n < 1 -> 0 <= k < 4 -> 0 <= i < 2 -> 1 <= j < 2 ->
      elem latents n k i j = example_noise 6 (mkShape 1 4 2 2) n k (i - 0) (j - 1).
Proof.
  apply (full_seeding_last_write_wins 4 example_noise
           (example_args [["a"; "b"]]%string 8 (Some [[Some 5; Some 6]]) None)
           "a"%string "b"%string 5 6); try reflexivity; simpl; lia.
Defined.

Lemma reroll_overrides_tile_seeds_witness :
  (forall latents,
      initial_latents 4 example_noise two_rerolls_args two_rerolls_checked = Ok latents ->
      forall n k i j,
        in_shape (latents_shape 4 two_rerolls_args two_rerolls_checked) n k i j ->
        0 <= 0 / 8 -> 0 <= 8 / 8 ->
        in_rect (0 / 8) (8 / 8) (8 / 8) (16 / 8) i j = true ->
        forallb (fun r => negb (slice_covers 4 two_rerolls_args two_rerolls_checked r i j))
                [] = true ->
        elem latents n k i j =
        example_noise 9 (mkShape 1 4 (8 / 8 - 0 / 8) (16 / 8 - 8 / 8))
                      n k (i - 0 / 8) (j - 8 / 8)) /\
  (forall latents0 latents1,
      torch_randn example_noise (latents_shape 4 two_rerolls_args two_rerolls_checked)
                  (seed two_rerolls_args) = Ok latents0 ->
      seed_tiles_loop 4 example_noise two_rerolls_args two_rerolls_checked latents0 =
      Ok latents1 ->
      Forall (region_in_canvas 4 two_rerolls_args two_rerolls_checked)
             (reroll_regions two_rerolls_checked) ->
      exists latents,
        initial_latents 4 example_noise two_rerolls_args two_rerolls_checked = Ok latents).
Proof.
  apply (reroll_overrides_tile_seeds 4 example_noise two_rerolls_args two_rerolls_checked
           [(0, 16, 0, 16, 7)] [] 0 8 8 16 9).
  reflexivity.
Defined.

(** The run of the example goes through, and the entry at latent row 0,
    column 1 holds the draw of the second region. *)
Example two_rerolls_run :
  exists latents,
    initial_latents 4 example_noise two_rerolls_args two_rerolls_checked = Ok latents /\
    elem latents 0 0 0 1 = example_noise 9 (mkShape 1 4 1 1) 0 0 0 0.
Proof.
  eexists. split; reflexivity.
Qed.

(** ** Failures and the order of network calls *)

Lemma tbind_trace {A B : Type} (m : traced A) (k : A -> traced B) (l : list event) (x : A) :
  m = (l, Ok x) -> fst (tbind m k) = l ++ fst (k x).
Proof. intros ->. simpl. now destruct (k x). Qed.

Lemma tbind_ok {A B : Type} (m : traced A) (k : A -> traced B) (l : list event) (x : A) :
  m = (l, Ok x) -> tbind m k = (l ++ fst (k x), snd (k x)).
Proof. intros ->. simpl. now destruct (k x). Qed.

Lemma tbind_raise {A B : Type} (m : traced A) (k : A -> traced B) (l : list event) (e : exn) :
  m = (l, Raise e) -> tbind m k = (l, Raise e).
Proof. now intros ->. Qed.

Lemma for_each_raises {A S : Type} (P : S -> Prop) (body : A -> S -> result S)
  (x : A) (xs : list A) :
  In x xs ->
  (forall s, P s -> exists e, body x s = Raise e) ->
  (forall y s s', P s -> body y s = Ok s' -> P s') ->
  forall s, P s -> exists e, for_each xs body s = Raise e.
Proof.
  intros Hin Hx Hpres. induction xs as [|y xs IH]; [contradiction|].
  intros s HP. simpl. destruct Hin as [->|Hin].
  - destruct (Hx s HP) as (e & ->). now exists e.
  - destruct (body y s) as [s'|e] eqn:Hy; [|now exists e]. simpl.
    apply IH; [assumption|]. now apply (Hpres y s).
Qed.

Lemma overshoot_not_expandable (n lo hi : Z) :
  0 <= n -> overshoots n lo hi -> expandable (hi - lo) (slice_len n lo hi) = false.
Proof.
  intros Hn (Hlo & Hhi & Hlen). unfold expandable, slice_len, slice_bound.
  destruct (Z.ltb_spec lo 0), (Z.ltb_spec hi 0); lia.
Qed.

Section FailFast.

Variable in_channels : Z.
Variable noise : Z -> shape -> Z -> Z -> Z -> Z -> R.
Variable Emb : Type.
Variable text_encoder : string -> Emb.
Variable emb_cat : Emb -> Emb -> Emb.
Variable unet : Tensor -> Z -> Emb -> Z -> Z -> Z -> Z -> R.
Variable scheduler_timesteps : Z -> list Z.
Variable lms_sigmas : option (Z -> R).
Variable scheduler_step : Tensor -> Z -> Tensor -> Tensor.
Variable Image : Type.
Variable decode_latents : Tensor -> bool -> Image.

Let call :=
  __call__ in_channels noise Emb text_encoder emb_cat unet scheduler_timesteps
           lms_sigmas scheduler_step Image decode_latents.

(** An exception raised by the argument checks or while the canvas latent
    is built leaves the run with no network call made. *)
Lemma failures_before_networks (a : call_args) (e : exn) :
  validate a = Raise e \/
  (exists v, validate a = Ok v /\ initial_latents in_channels noise a v = Raise e) ->
  call a = ([], Raise e).
Proof.
  unfold call, __call__. intros [H | (v & Hv & H)].
  - now rewrite H.
  - rewrite Hv. unfold tlift at 1. cbn [tbind]. now rewrite H.
Qed.

Lemma reroll_body_overshoot (a : call_args) (v : checked_args)
  (r0 r1 c0 c1 s : Z) (latents : Tensor) :
  tshape latents = latents_shape in_channels a v ->
  0 <= dim_h (latents_shape in_channels a v) ->
  0 <= dim_w (latents_shape in_channels a v) ->
  overshoots (dim_h (latents_shape in_channels a v)) (r0 / 8) (r1 / 8) \/
  overshoots (dim_w (latents_shape in_channels a v)) (c0 / 8) (c1 / 8) ->
  reroll_body in_channels noise a v (r0, r1, c0, c1, s) latents = Raise RuntimeError.
Proof.
  intros Hsh Hh Hw Hover. unfold reroll_body, _pixel2latent_indices.
  destruct (torch_randn noise _ s) as [src|e] eqn:Hsrc.
  - apply torch_randn_ok in Hsrc as (-> & _). cbn [bind].
    unfold setitem_hw, update_hw, expands_to, slice_shape. rewrite Hsh.
    cbn [tshape dim_b dim_c dim_h dim_w].
    destruct Hover as [Ho | Ho].
    + rewrite (overshoot_not_expandable _ _ _ Hh Ho).
      rewrite ?andb_false_r; reflexivity.
    + rewrite (overshoot_not_expandable _ _ _ Hw Ho).
      rewrite ?andb_false_r; reflexivity.
  - unfold torch_randn in Hsrc.
    destruct (_ || _) in Hsrc; [|discriminate]. now injection Hsrc as <-.
Qed.

Lemma starts_with_tbind {A B : Type} (e : event) (m : traced A) (k : A -> traced B) :
  starts_with e m -> starts_with e (tbind m k).
Proof.
  intros (l & Hl). destruct m as [l0 [x|err]]; simpl in *; subst.
  - destruct (k x) as [l' r]. simpl. now exists (l ++ l').
  - now exists l.
Qed.

Lemma starts_with_after {A B : Type} (e : event) (m : traced A) (k : A -> traced B) (x : A) :
  m = ([], Ok x) -> starts_with e (k x) -> starts_with e (tbind m k).
Proof.
  intros -> (l & Hl). simpl. destruct (k x) as [l' r]. simpl in *. now exists l.
Qed.

(** Once the canvas latent is built, the run goes on to encode the
    prompts: its first network call is the text encoder on the first
    prompt. *)
Lemma call_reaches_text_encoder (a : call_args) (v : checked_args) (latents : Tensor)
  (p : string) (row : list string) (rows : list (list string)) :
  validate a = Ok v ->
  initial_latents in_channels noise a v = Ok latents ->
  prompt_grid v = (p :: row) :: rows ->
  starts_with (TextEncoderCall p) (call a).
Proof.
  intros Hv Hl Hp. unfold call, __call__.
  apply (starts_with_after _ _ _ v); [unfold tlift; now rewrite Hv|].
  apply (starts_with_after _ _ _ latents); [unfold tlift; now rewrite Hl|].
  unfold run_from, text_embeddings. rewrite Hp. cbn [tmap].
  repeat apply starts_with_tbind.
  exists []. reflexivity.
Qed.

(** C6, as the code has it.  The pipeline does not check ranges itself.
    Whatever is raised while the canvas latent is built (initial draw,
    tile seeds, reroll regions) ends the run with no network call made;
    and a reroll region whose latent interval on some axis starts at a
    non-negative index, ends beyond the canvas and spans at least two
    cells cannot be assigned to the clamped slice, so the run raises
    there, before any call to the text encoder or the denoising network. *)
Theorem overshooting_reroll_fails_fast (a : call_args) (v : checked_args) :
  validate a = Ok v ->
  (forall e,
      initial_latents in_channels noise a v = Raise e -> call a = ([], Raise e)) /\
  (forall r0 r1 c0 c1 s,
      In (r0, r1, c0, c1, s) (reroll_regions v) ->
      overshoots (dim_h (latents_shape in_channels a v)) (r0 / 8) (r1 / 8) \/
      overshoots (dim_w (latents_shape in_channels a v)) (c0 / 8) (c1 / 8) ->
      exists e, call a = ([], Raise e)).
Proof.
  intros Hv.
  assert (Hfail : forall e,
             initial_latents in_channels noise a v = Raise e -> call a = ([], Raise e)).
  { intros e He. apply failures_before_networks. right. now exists v. }
  split; [exact Hfail|].
  intros r0 r1 c0 c1 s Hin Hover.
  assert (He : exists e, initial_latents in_channels noise a v = Raise e).
  { unfold initial_latents.
    destruct (torch_randn noise _ (seed a)) as [l0|e] eqn:H0; [|now exists e].
    cbn [bind]. apply torch_randn_ok in H0 as (-> & _ & _ & Hh & Hw).
    destruct (seed_tiles_loop in_channels noise a v _) as [l1|e] eqn:H1;
      [|now exists e].
    cbn [bind]. apply seed_tiles_loop_shape in H1. simpl in H1.
    unfold reroll_loop.
    apply (for_each_raises
             (fun t => tshape t = latents_shape in_channels a v)
             _ _ _ Hin).
    - intros t Ht. exists RuntimeError. now apply reroll_body_overshoot.
    - intros r t t' Ht Hr. apply reroll_body_shape in Hr. congruence.
    - exact H1. }
  destruct He as (e & He). exists e. now apply Hfail.
Qed.

End FailFast.

Lemma overshooting_reroll_fails_fast_witness :
  (forall e,
      initial_latents 4 example_noise overshooting_reroll_args
                      overshooting_reroll_checked = Raise e ->
      example_call overshooting_reroll_args = ([], Raise e)) /\
  (forall r0 r1 c0 c1 s,
      In (r0, r1, c0, c1, s) (reroll_regions overshooting_reroll_checked) ->
      overshoots (dim_h (latents_shape 4 overshooting_reroll_args
                                       overshooting_reroll_checked))
                 (r0 / 8) (r1 / 8) \/
      overshoots (dim_w (latents_shape 4 overshooting_reroll_args
                                       overshooting_reroll_checked))
                 (c0 / 8) (c1 / 8) ->
      exists e, example_call overshooting_reroll_args = ([], Raise e)).
Proof.
  apply (overshooting_reroll_fails_fast 4 example_noise unit (fun _ => tt)
           (fun _ _ => tt) (fun x _ _ => elem x) (fun _ => [1]) None
           (fun _ _ latents => latents) Tensor (fun latents _ => latents)
           overshooting_reroll_args overshooting_reroll_checked).
  reflexivity.
Defined.

(** The region of pixel rows [0, 32) on a canvas of 16 rows: the run
    raises [RuntimeError] with no network call made. *)
Example overshooting_reroll_run :
  example_call overshooting_reroll_args = ([], Raise RuntimeError).
Proof. reflexivity. Qed.

(** C6 does not hold as stated: the reroll region of pixel rows
    [-16, -8) lies outside the canvas, yet its latent rows [-2, -1) wrap
    around to a slice of the drawn shape, the assignment goes through and
    the run carries on to the text encoder. *)
Lemma out_of_canvas_reroll_accepted :
  exists v latents,
    validate wrapping_reroll_args = Ok v /\
    In (-16, -8, 0, 16, 7) (reroll_regions v) /\
    -16 / 8 < 0 /\
    initial_latents 4 example_noise wrapping_reroll_args v = Ok latents /\
    ~ (exists e, example_call wrapping_reroll_args = ([], Raise e)).
Proof.
  exists (mkChecked [["a"]]%string 1 1 [["full"]]%string [(-16, -8, 0, 16, 7)]).
  eexists. split; [reflexivity|]. split; [now left|]. split; [reflexivity|].
  split; [reflexivity|].
  intros (e & He).
  destruct (call_reaches_text_encoder 4 example_noise unit (fun _ => tt)
              (fun _ _ => tt) (fun x _ _ => elem x) (fun _ => [1]) None
              (fun _ _ latents => latents) Tensor (fun latents _ => latents)
              wrapping_reroll_args _ _ "a"%string [] [] eq_refl eq_refl eq_refl)
    as (l & Hl).
  unfold example_call in He. rewrite He in Hl. discriminate.
Qed.

(** ** Guidance *)

Lemma expanded_in_shape (t : Tensor) (n k i j : Z) :
  in_shape (tshape t) n k i j -> expanded t n k i j = elem t n k i j.
Proof.
  intros (Hn & Hk & Hi & Hj). unfold expanded.
  now rewrite !expand_index_in_range.
Qed.

Lemma broadcast_shapes_refl (sh : shape) : broadcast_shapes sh sh = Some sh.
Proof.
  unfold broadcast_shapes, broadcast_dim. rewrite !Z.eqb_refl. now destruct sh.
Qed.

Lemma tensor_binop_same_shape (f : R -> R -> R) (t1 t2 : Tensor) :
  tshape t1 = tshape t2 ->
  exists t,
    tensor_binop f t1 t2 = Ok t /\ tshape t = tshape t1 /\
    forall n k i j,
      in_shape (tshape t1) n k i j ->
      elem t n k i j = f (elem t1 n k i j) (elem t2 n k i j).
Proof.
  intros Hsh. unfold tensor_binop. rewrite <- Hsh, broadcast_shapes_refl.
  eexists. split; [reflexivity|]. split; [reflexivity|].
  intros n k i j Hin. simpl.
  rewrite !expanded_in_shape; [reflexivity | now rewrite <- Hsh | assumption].
Qed.

Lemma guide_same_shape (g : R) (u c : Tensor) :
  tshape u = tshape c ->
  exists t,
    guide g u c = Ok t /\ tshape t = tshape u /\
    forall n k i j,
      in_shape (tshape u) n k i j ->
      elem t n k i j = (elem u n k i j + g * (elem c n k i j - elem u n k i j))%R.
Proof.
  intros Hsh. unfold guide, tensor_sub, tensor_add.
  destruct (tensor_binop_same_shape Rminus c u (eq_sym Hsh)) as (d & Hd & Hds & Hde).
  rewrite Hd. cbn [bind].
  destruct (tensor_binop_same_shape Rplus u (tensor_map (Rmult g) d)) as (t & Ht & Hts & Hte).
  { simpl. congruence. }
  exists t. split; [exact Ht|]. split; [exact Hts|].
  intros n k i j Hin. rewrite Hte by assumption. simpl.
  rewrite Hde by (now rewrite <- Hsh). reflexivity.
Qed.

(** The two halves of a prediction made on [torch.cat([x] * 2)]. *)
Lemma chunk2_doubled (sh : shape) (out : Z -> Z -> Z -> Z -> R) :
  chunk2 (mkTensor (mkShape (2 * dim_b sh) (dim_c sh) (dim_h sh) (dim_w sh)) out) =
  Ok (mkTensor sh out, mkTensor sh (fun m k i j => out (dim_b sh + m) k i j)).
Proof.
  unfold chunk2. cbn [tshape dim_b dim_c dim_h dim_w elem].
  assert (Hsize : (2 * dim_b sh + 1) / 2 = dim_b sh).
  { symmetry. apply Z.div_unique with (r := 1); lia. }
  rewrite Hsize.
  destruct (Z.eqb_spec (2 * dim_b sh) 1); [lia|].
  replace (2 * dim_b sh - dim_b sh) with (dim_b sh) by lia.
  now destruct sh.
Qed.

Lemma tfor_each_append {A B : Type} (Q : A -> B -> Prop)
  (body : A -> list B -> traced (list B)) (xs : list A) :
  (forall x acc, In x xs -> exists l y, body x acc = (l, Ok (acc ++ [y])) /\ Q x y) ->
  forall acc,
    exists l ys, tfor_each xs body acc = (l, Ok (acc ++ ys)) /\ Forall2 Q xs ys.
Proof.
  induction xs as [|x xs IH]; intros Hbody acc.
  - exists [], []. simpl. rewrite app_nil_r. split; [reflexivity | constructor].
  - destruct (Hbody x acc (or_introl eq_refl)) as (l1 & y & Hx & Hq).
    destruct (IH (fun x' acc' Hin => Hbody x' acc' (or_intror Hin)) (acc ++ [y]))
      as (l2 & ys & Hxs & Hqs).
    exists (l1 ++ l2), (y :: ys). cbn [tfor_each]. rewrite Hx. cbn [tbind].
    rewrite Hxs. rewrite <- app_assoc. split; [reflexivity | now constructor].
Qed.

Lemma Forall2_range_getitem {B : Type} (Q : Z -> B -> Prop) (n : Z) (ys : list B) :
  Forall2 Q (range n) ys ->
  forall k, 0 <= k < n -> exists y, getitem ys k = Ok y /\ Q k y.
Proof.
  unfold range. intros HF k Hk.
  assert (Hnth : forall (xs : list Z) (ys : list B) (m : nat) (x : Z),
             Forall2 Q xs ys -> nth_error xs m = Some x ->
             exists y, nth_error ys m = Some y /\ Q x y).
  { clear. intros xs ys m x HF. revert m. induction HF as [|x' y' xs ys Hq HF IH];
      intros [|m] Hm; simpl in *; try discriminate.
    - injection Hm as ->. eauto.
    - now apply IH. }
  destruct (Hnth _ _ (Z.to_nat k) k HF) as (y & Hy & Hq).
  { rewrite nth_error_map, nth_error_seq.
    destruct (Nat.ltb_spec (Z.to_nat k) (Z.to_nat n)); [|lia].
    simpl. f_equal. lia. }
  exists y. split; [|exact Hq]. unfold getitem. cbv zeta.
  assert (Hneg : (k <? 0) = false) by lia. now rewrite !Hneg, Hy.
Qed.

Lemma tbind_tlift_ok {A B : Type} (x : A) (k : A -> traced B) :
  tbind (tlift (Ok x)) k = k x.
Proof. unfold tlift. simpl. now destruct (k x). Qed.

Lemma tbind_tret {A B : Type} (x : A) (k : A -> traced B) :
  tbind (tret x) k = k x.
Proof. unfold tret. simpl. now destruct (k x). Qed.

Lemma tbind_pair_ok {A B : Type} (l : list event) (x : A) (k : A -> traced B) :
  tbind (l, Ok x) k = (l ++ fst (k x), snd (k x)).
Proof. simpl. now destruct (k x). Qed.

Lemma tbind_tlift_raise {A B : Type} (e : exn) (k : A -> traced B) :
  tbind (tlift (Raise e)) k = ([], Raise e).
Proof. reflexivity. Qed.

Section Guidance.

Variable Emb : Type.
Variable unet : Tensor -> Z -> Emb -> Z -> Z -> Z -> Z -> R.
Variable lms_sigmas : option (Z -> R).
Variable a : call_args.
Variable v : checked_args.
Variable text_embeddings : list (list Emb).
Variables i t : Z.
Variable latents : Tensor.

Lemma call_unet_eq (x : Tensor) (e : Emb) :
  call_unet Emb unet x t e = ([UnetCall x t], Ok (mkTensor (tshape x) (unet x t e))).
Proof. reflexivity. Qed.

Lemma lms_scaled_shape (x : Tensor) : tshape (lms_scaled lms_sigmas i x) = tshape x.
Proof. unfold lms_scaled. now destruct lms_sigmas. Qed.

Lemma tile_guidance_scale (row col : Z) (g : R) :
  tile_guidance a row col = Ok g -> g = tile_scale a row col.
Proof.
  unfold tile_guidance, tile_scale. destruct (guidance_scale_tiles a) as [grid|].
  - destruct (getitem2 grid row col) as [[s|]|e]; simpl; congruence.
  - congruence.
Qed.

Lemma diffuse_tile_guided (row col : Z) (e : Emb) (g : R) (acc : list Tensor) :
  do_classifier_free_guidance a = true ->
  getitem2 text_embeddings row col = Ok e ->
  tile_guidance a row col = Ok g ->
  exists l pred,
    diffuse_tile Emb unet lms_sigmas a text_embeddings i t latents row col acc =
    (l, Ok (acc ++ [pred])) /\
    guided_by Emb unet lms_sigmas a text_embeddings i t latents row col pred.
Proof.
  intros Hcfg He Hg. unfold diffuse_tile, guided_by, tile_slice.
  destruct (_tile2latent_indices row col (tile_width a) (tile_height a)
              (tile_row_overlap a) (tile_col_overlap a)) as [[[r0 r1] c0] c1].
  rewrite Hcfg, He, tbind_tlift_ok.
  fold (lms_scaled lms_sigmas i (cat2 (getitem_hw latents r0 r1 c0 c1))).
  set (x := lms_scaled lms_sigmas i (cat2 (getitem_hw latents r0 r1 c0 c1))).
  rewrite call_unet_eq, tbind_pair_ok.
  assert (Hx : tshape x =
               mkShape (2 * dim_b (tshape (getitem_hw latents r0 r1 c0 c1)))
                       (dim_c (tshape (getitem_hw latents r0 r1 c0 c1)))
                       (dim_h (tshape (getitem_hw latents r0 r1 c0 c1)))
                       (dim_w (tshape (getitem_hw latents r0 r1 c0 c1)))).
  { unfold x. now rewrite lms_scaled_shape. }
  rewrite Hx, chunk2_doubled, tbind_tlift_ok, Hg, tbind_tlift_ok.
  match goal with
  | |- context [guide g ?u ?c] =>
      destruct (guide_same_shape g u c eq_refl) as (pred & Hp & Hps & Hpe)
  end.
  rewrite Hp, tbind_tlift_ok. cbn [tret fst snd app].
  eexists. exists pred. split; [reflexivity|].
  exists e. eexists. eexists. split; [reflexivity|].
  split; [apply chunk2_doubled|].
  split; [exact Hps|].
  intros n k y x' Hin. rewrite (Hpe n k y x' Hin).
  now rewrite (tile_guidance_scale row col g Hg).
Qed.

(** C5.  Under classifier-free guidance, when every tile has its
    embedding (and its entry of the per-tile scale grid, if a grid is
    given), the per-tile loop of a step returns one prediction per tile,
    and the prediction of tile (row, col) is
    [uncond + scale * (cond - uncond)] with that tile's own scale: its
    grid entry when there is one that is not [None], the pipeline-wide
    scale otherwise.  The scale of any other tile does not enter. *)
Theorem guidance_applied_per_tile :
  do_classifier_free_guidance a = true ->
  (forall row col, 0 <= row < grid_rows v -> 0 <= col < grid_cols v ->
                   exists e, getitem2 text_embeddings row col = Ok e) ->
  (forall row col, 0 <= row < grid_rows v -> 0 <= col < grid_cols v ->
                   exists g, tile_guidance a row col = Ok g) ->
  exists events noise_preds,
    diffuse_tiles Emb unet lms_sigmas a v text_embeddings i t latents =
    (events, Ok noise_preds) /\
    forall row col,
      0 <= row < grid_rows v -> 0 <= col < grid_cols v ->
      exists pred,
        getitem2 noise_preds row col = Ok pred /\
        guided_by Emb unet lms_sigmas a text_embeddings i t latents row col pred.
Proof.
  intros Hcfg Hemb Hgui. unfold diffuse_tiles.
  destruct (tfor_each_append
              (fun row preds_row =>
                 Forall2 (guided_by Emb unet lms_sigmas a text_embeddings i t latents row)
                         (range (grid_cols v)) preds_row)
              (fun row noise_preds =>
                 noise_preds_row <--
                   tfor_each (range (grid_cols v))
                     (diffuse_tile Emb unet lms_sigmas a text_embeddings i t latents row)
                     [] ;;
                 tret (noise_preds ++ [noise_preds_row]))
              (range (grid_rows v))) with (acc := @nil (list Tensor))
    as (events & nps & Hrun & Hall).
  - intros row acc Hrow. apply in_range in Hrow.
    destruct (tfor_each_append (guided_by Emb unet lms_sigmas a text_embeddings i t latents row)
                (diffuse_tile Emb unet lms_sigmas a text_embeddings i t latents row)
                (range (grid_cols v))) with (acc := @nil Tensor)
      as (l & preds & Hinner & Hrowall).
    + intros col acc' Hcol. apply in_range in Hcol.
      destruct (Hemb row col Hrow Hcol) as (e & He).
      destruct (Hgui row col Hrow Hcol) as (g & Hg).
      now apply (diffuse_tile_guided row col e g).
    + exists l, preds. rewrite Hinner, tbind_pair_ok. cbn [tret fst snd].
      rewrite app_nil_r. now split.
  - exists events, nps. split; [exact Hrun|].
    intros row col Hrow Hcol.
    destruct (Forall2_range_getitem _ _ _ Hall row Hrow) as (preds & Hpreds & Hrowall).
    destruct (Forall2_range_getitem _ _ _ Hrowall col Hcol) as (pred & Hpred & Hq).
    exists pred. unfold getitem2. rewrite Hpreds. cbn [bind]. now split.
Qed.

End Guidance.

Lemma guidance_applied_per_tile_witness :
  exists events noise_preds,
    diffuse_tiles unit (fun x _ _ => elem x) None guided_example_args
      (mkChecked [["a"; "b"]]%string 1 2 [["full"; "full"]]%string [])
      [[tt; tt]] 0 1 (torch_zeros (mkShape 1 4 2 3)) = (events, Ok noise_preds) /\
    forall row col,
      0 <= row < 1 -> 0 <= col < 2 ->
      exists pred,
        getitem2 noise_preds row col = Ok pred /\
        guided_by unit (fun x _ _ => elem x) None guided_example_args [[tt; tt]] 0 1
                  (torch_zeros (mkShape 1 4 2 3)) row col pred.
Proof.
  apply (guidance_applied_per_tile unit (fun x _ _ => elem x) None guided_example_args
           (mkChecked [["a"; "b"]]%string 1 2 [["full"; "full"]]%string [])
           [[tt; tt]] 0 1 (torch_zeros (mkShape 1 4 2 3))).
  - unfold do_classifier_free_guidance, guided_example_args. simpl.
    destruct (Rlt_dec 1 7.5) as [_|Hn]; [reflexivity | exfalso; apply Hn; lra].
  - simpl. intros row col Hrow Hcol.
    assert (row = 0) as -> by lia.
    assert (col = 0 \/ col = 1) as [-> | ->] by lia; exists tt; reflexivity.
  - simpl. intros row col Hrow Hcol.
    assert (row = 0) as -> by lia.
    assert (col = 0 \/ col = 1) as [-> | ->] by lia; eexists; reflexivity.
Defined.

(** ** A step without guidance *)

Lemma getitem_raise {A : Type} (xs : list A) (k : Z) (e : exn) :
  getitem xs k = Raise e -> e = IndexError.
Proof.
  unfold getitem. cbv zeta.
  destruct (_ <? 0); [congruence|]. destruct (nth_error _ _); congruence.
Qed.

Lemma getitem2_raise {A : Type} (xss : list (list A)) (r c : Z) (e : exn) :
  getitem2 xss r c = Raise e -> e = IndexError.
Proof.
  unfold getitem2. destruct (getitem xss r) as [xs|e'] eqn:Hr; cbn [bind].
  - apply getitem_raise.
  - intros H. injection H as <-. now apply getitem_raise in Hr.
Qed.

Lemma range_pos (n : Z) : 1 <= n -> exists tl, range n = 0 :: tl.
Proof.
  intros Hn. unfold range.
  destruct (Z.to_nat n) as [|m] eqn:Hm; [lia|]. simpl. eauto.
Qed.

Lemma tfor_each_inv_or_raise {A S : Type} (P : S -> Prop) (E : exn)
  (body : A -> S -> traced S) (xs : list A) :
  (forall x s, P s ->
     exists l, body x s = (l, Raise E) \/ exists s', body x s = (l, Ok s') /\ P s') ->
  forall s, P s ->
    exists l, tfor_each xs body s = (l, Raise E) \/
              exists s', tfor_each xs body s = (l, Ok s') /\ P s'.
Proof.
  intros Hbody. induction xs as [|x xs IH]; intros s HP.
  - exists []. right. exists s. now split.
  - cbn [tfor_each]. destruct (Hbody x s HP) as (l & [Hr | (s' & Hok & HP')]).
    + exists l. left. now rewrite Hr.
    + destruct (IH s' HP') as (l' & [Hr | (s'' & Hok' & HP'')]).
      * exists (l ++ l'). left. rewrite Hok, tbind_pair_ok, Hr. reflexivity.
      * exists (l ++ l'). right. exists s''.
        rewrite Hok, tbind_pair_ok, Hok'. now split.
Qed.

Section NoGuidance.

Variable Emb : Type.
Variable unet : Tensor -> Z -> Emb -> Z -> Z -> Z -> Z -> R.
Variable lms_sigmas : option (Z -> R).
Variable scheduler_step : Tensor -> Z -> Tensor -> Tensor.
Variable a : call_args.
Variable v : checked_args.
Variable text_embeddings : list (list Emb).
Variable tile_weights : Tensor.
Variables i t : Z.
Variable latents : Tensor.

Hypothesis no_guidance : do_classifier_free_guidance a = false.

(** Without guidance the body of the per-tile loop calls the network and
    then drops its prediction: the row of predictions is left as it was. *)
Lemma diffuse_tile_unguided (row col : Z) (acc : list Tensor) :
  exists l,
    diffuse_tile Emb unet lms_sigmas a text_embeddings i t latents row col acc =
    (l, Raise IndexError) \/
    exists acc',
      diffuse_tile Emb unet lms_sigmas a text_embeddings i t latents row col acc =
      (l, Ok acc') /\ acc' = acc.
Proof.
  unfold diffuse_tile.
  destruct (_tile2latent_indices row col (tile_width a) (tile_height a)
              (tile_row_overlap a) (tile_col_overlap a)) as [[[r0 r1] c0] c1].
  rewrite no_guidance.
  destruct (getitem2 text_embeddings row col) as [e|err] eqn:He.
  - rewrite tbind_tlift_ok, call_unet_eq, tbind_pair_ok. cbn [tret fst snd].
    eexists. right. exists acc. split; reflexivity.
  - apply getitem2_raise in He as ->. exists []. now left.
Qed.

Lemma diffuse_tiles_unguided :
  exists l,
    diffuse_tiles Emb unet lms_sigmas a v text_embeddings i t latents =
    (l, Raise IndexError) \/
    exists noise_preds,
      diffuse_tiles Emb unet lms_sigmas a v text_embeddings i t latents =
      (l, Ok noise_preds) /\
      Forall (fun noise_preds_row => noise_preds_row = []) noise_preds.
Proof.
  unfold diffuse_tiles.
  apply (tfor_each_inv_or_raise (Forall (fun noise_preds_row => noise_preds_row = [])));
    [|constructor].
  intros row nps Hnps.
  destruct (tfor_each_inv_or_raise (fun preds_row => preds_row = @nil Tensor) IndexError
              (diffuse_tile Emb unet lms_sigmas a text_embeddings i t latents row)
              (range (grid_cols v))) with (s := @nil Tensor)
    as (l & [Hr | (preds & Hok & ->)]).
  - intros col acc ->. apply diffuse_tile_unguided.
  - reflexivity.
  - exists l. left. now rewrite Hr.
  - exists l. right. exists (nps ++ [[]]). rewrite Hok, tbind_pair_ok.
    cbn [tret fst snd]. rewrite app_nil_r. split; [reflexivity|].
    apply Forall_app. split; [assumption | now constructor].
Qed.

Lemma accumulate_empty_rows (noise_preds : list (list Tensor)) :
  1 <= grid_rows v -> 1 <= grid_cols v ->
  Forall (fun noise_preds_row => noise_preds_row = []) noise_preds ->
  accumulate a v tile_weights latents noise_preds = Raise IndexError.
Proof.
  intros Hrows Hcols Hnps. unfold accumulate.
  destruct (range_pos _ Hrows) as (rtl & ->). destruct (range_pos _ Hcols) as (ctl & ->).
  cbn [for_each]. unfold stitch_tile at 1.
  destruct (_tile2latent_indices 0 0 (tile_width a) (tile_height a)
              (tile_row_overlap a) (tile_col_overlap a)) as [[[r0 r1] c0] c1].
  assert (Hget : getitem2 noise_preds 0 0 = Raise IndexError).
  { destruct Hnps as [|row rows Hrow _]; [reflexivity|]. now subst row. }
  now rewrite Hget.
Qed.

(** C3.  With guidance disabled, the per-tile loop still calls the
    network once per tile on the single slice, but appends nothing to
    [noise_preds_row] (the [append] sits inside the guidance branch); the
    stitching loop then indexes an empty row, and the step raises
    [IndexError] instead of producing a normalized prediction. *)
Theorem unguided_step_raises :
  1 <= grid_rows v -> 1 <= grid_cols v ->
  exists events,
    denoising_step Emb unet lms_sigmas scheduler_step a v text_embeddings tile_weights
                   i t latents = (events, Raise IndexError).
Proof.
  intros Hrows Hcols. unfold denoising_step.
  destruct diffuse_tiles_unguided as (l & [Hr | (nps & Hok & Hnps)]).
  - exists l. now rewrite Hr.
  - exists l. rewrite Hok, tbind_pair_ok.
    rewrite (accumulate_empty_rows nps Hrows Hcols Hnps).
    cbn [tlift tbind fst snd]. now rewrite app_nil_r.
Qed.

End NoGuidance.

Lemma unguided_step_raises_witness :
  exists events,
    denoising_step unit (fun x _ _ => elem x) None (fun _ _ latents => latents)
      unguided_example_args (mkChecked [["a"]]%string 1 1 [["full"]]%string [])
      [[tt]] (_gaussian_weights 4 16 16 1) 0 1 (torch_zeros (mkShape 1 4 2 2)) =
    (events, Raise IndexError).
Proof.
  apply (unguided_step_raises unit (fun x _ _ => elem x) None
           (fun _ _ latents => latents) unguided_example_args
           (mkChecked [["a"]]%string 1 1 [["full"]]%string [])
           [[tt]] (_gaussian_weights 4 16 16 1) 0 1 (torch_zeros (mkShape 1 4 2 2))).
  - unfold do_classifier_free_guidance, unguided_example_args. simpl.
    destruct (Rlt_dec 1 1) as [Hlt|_]; [exfalso; lra | reflexivity].
  - simpl. lia.
  - simpl. lia.
Defined.

(** ** The blend mask *)

Lemma nth_map_range {B : Type} (f : Z -> B) (n k : Z) (d : B) :
  0 <= k < n -> nth (Z.to_nat k) (map f (range n)) d = f k.
Proof.
  intros Hk. unfold range. rewrite map_map.
  rewrite nth_indep with (d' := f (Z.of_nat 0)) by (rewrite length_map, length_seq; lia).
  rewrite (map_nth (fun m => f (Z.of_nat m))), seq_nth by lia.
  f_equal. lia.
Qed.

Lemma length_range (n : Z) : 0 <= n -> Z.of_nat (List.length (range n)) = n.
Proof. intros Hn. unfold range. rewrite length_map, length_seq. lia. Qed.

Lemma gaussian_prob_pos (n : Z) (midpoint : R) (x : Z) :
  (0 < gaussian_prob n midpoint x)%R.
Proof.
  unfold gaussian_prob. apply Rdiv_lt_0_compat; [apply exp_pos|].
  apply sqrt_lt_R0. unfold var.
  assert (HPI := PI_RGT_0). nra.
Qed.

Lemma gaussian_weights_shape (in_channels tile_width tile_height nbatches : Z) :
  0 <= tile_width -> 0 <= tile_height ->
  tshape (_gaussian_weights in_channels tile_width tile_height nbatches) =
  mkShape nbatches in_channels (tile_height / 8) (tile_width / 8).
Proof.
  intros Hw Hh. unfold _gaussian_weights, x_probs, y_probs. cbn [tshape].
  rewrite !length_map.
  fold (range (tile_height / 8)) (range (tile_width / 8)).
  rewrite !length_range by (apply Z.div_pos; lia). reflexivity.
Qed.

Lemma gaussian_weights_elem (in_channels tile_width tile_height nbatches n k y x : Z) :
  0 <= y < tile_height / 8 -> 0 <= x < tile_width / 8 ->
  elem (_gaussian_weights in_channels tile_width tile_height nbatches) n k y x =
  (gaussian_prob (tile_height / 8) (IZR (tile_height / 8) / 2) y *
   gaussian_prob (tile_width / 8) ((IZR (tile_width / 8) - 1) / 2) x)%R.
Proof.
  intros Hy Hx. unfold _gaussian_weights, x_probs, y_probs. cbn [elem].
  now rewrite !nth_map_range.
Qed.

Lemma gaussian_weights_pos (in_channels tile_width tile_height nbatches n k y x : Z) :
  0 <= y < tile_height / 8 -> 0 <= x < tile_width / 8 ->
  (0 < elem (_gaussian_weights in_channels tile_width tile_height nbatches) n k y x)%R.
Proof.
  intros Hy Hx. rewrite gaussian_weights_elem by assumption.
  apply Rmult_lt_0_compat; apply gaussian_prob_pos.
Qed.

(** X11.  Along the width the mask is symmetric: the profile is centred
    at [(latent_width - 1) / 2], so column [x] and its mirror image
    [latent_width - 1 - x] weigh the same in every row. *)
Lemma gaussian_weights_symmetric_x (in_channels tile_width tile_height nbatches n k y x : Z) :
  0 <= y < tile_height / 8 -> 0 <= x < tile_width / 8 ->
  elem (_gaussian_weights in_channels tile_width tile_height nbatches) n k y x =
  elem (_gaussian_weights in_channels tile_width tile_height nbatches) n k y
       (tile_width / 8 - 1 - x).
Proof.
  intros Hy Hx. rewrite !gaussian_weights_elem by lia.
  f_equal. unfold gaussian_prob. do 2 f_equal.
  rewrite !minus_IZR. simpl IZR. f_equal. f_equal. field.
Qed.

(** C4.  Along the height the mask is not symmetric: the profile is
    centred at [latent_height / 2] instead of [(latent_height - 1) / 2],
    so for every tile of two latent rows or more the first row weighs
    strictly less than the last one, its mirror image. *)
Theorem gaussian_weights_asymmetric_y
  (in_channels tile_width tile_height nbatches n k x : Z) :
  2 <= tile_height / 8 -> 0 <= x < tile_width / 8 ->
  (elem (_gaussian_weights in_channels tile_width tile_height nbatches) n k 0 x <
   elem (_gaussian_weights in_channels tile_width tile_height nbatches) n k
        (tile_height / 8 - 1) x)%R.
Proof.
  intros Hh Hx. rewrite !gaussian_weights_elem by lia.
  apply Rmult_lt_compat_r; [apply gaussian_prob_pos|].
  unfold gaussian_prob. apply Rmult_lt_compat_r.
  { apply Rinv_0_lt_compat, sqrt_lt_R0. unfold var. assert (HPI := PI_RGT_0). nra. }
  apply exp_increasing.
  rewrite minus_IZR. set (h := IZR (tile_height / 8)).
  assert (Hh2 : (2 <= h)%R) by (unfold h; now apply IZR_le).
  unfold var, Rdiv.
  apply Rmult_lt_compat_r; [lra|].
  apply Rmult_lt_compat_r; [apply Rinv_0_lt_compat; nra|].
  simpl IZR. nra.
Qed.

Lemma gaussian_weights_asymmetric_y_witness :
  (elem (_gaussian_weights 4 16 16 1) 0 0 0 0 <
   elem (_gaussian_weights 4 16 16 1) 0 0 (16 / 8 - 1) 0)%R.
Proof.
  apply (gaussian_weights_asymmetric_y 4 16 16 1 0 0 0).
  - apply Z.leb_le. reflexivity.
  - split; [apply Z.leb_le | apply Z.ltb_lt]; reflexivity.
Defined.

(** ** The weight-sum buffer *)

Lemma for_each_total {A S : Type} (P : S -> Prop) (body : A -> S -> result S)
  (xs : list A) :
  (forall x s, In x xs -> P s -> exists s', body x s = Ok s' /\ P s') ->
  forall s, P s -> exists s', for_each xs body s = Ok s' /\ P s'.
Proof.
  induction xs as [|x xs IH]; intros Hbody s HP.
  - exists s. now split.
  - destruct (Hbody x s (or_introl eq_refl) HP) as (s1 & H1 & HP1).
    destruct (IH (fun y s' Hin => Hbody y s' (or_intror Hin)) s1 HP1) as (s2 & H2 & HP2).
    exists s2. cbn [for_each]. rewrite H1. now split.
Qed.

Lemma weights_summed_iff (cov cov' : Z -> Z -> Prop) (ct : Tensor) :
  (forall i j, cov i j <-> cov' i j) -> weights_summed cov ct -> weights_summed cov' ct.
Proof.
  intros Hiff H n k i j. destruct (H n k i j) as (H0 & H1 & H2).
  split; [assumption|]. split; intros Hc.
  - apply H1. now apply Hiff.
  - apply H2. intros Hc'. apply Hc. now apply Hiff.
Qed.

Section Accumulate.

Variable in_channels : Z.
Variable a : call_args.
Variable v : checked_args.
Variable tile_weights : Tensor.
Variable latents : Tensor.
Variable noise_preds : list (list Tensor).

Let canvas := latents_shape in_channels a v.

(** The latent size of a tile. *)
Variables hh ww : Z.

Hypothesis latents_canvas : tshape latents = canvas.
Hypothesis weights_shape : tshape tile_weights = mkShape 1 in_channels hh ww.
Hypothesis size_nonneg : 0 <= hh /\ 0 <= ww.
Hypothesis weights_pos :
  forall n k y x, 0 <= y < hh -> 0 <= x < ww -> (0 < elem tile_weights n k y x)%R.
Hypothesis tiles_fit :
  forall row col,
    0 <= row < grid_rows v -> 0 <= col < grid_cols v ->
    tile_fits in_channels a v hh ww row col.

Lemma canvas_dims : dim_b canvas = 1 /\ dim_c canvas = in_channels.
Proof. split; reflexivity. Qed.

Lemma stitch_tile_contributors (row col : Z) (np ct np' ct' : Tensor) :
  0 <= row < grid_rows v -> 0 <= col < grid_cols v ->
  tshape np = canvas -> tshape ct = canvas ->
  stitch_tile a tile_weights noise_preds row col (np, ct) = Ok (np', ct') ->
  tshape np' = canvas /\ tshape ct' = canvas /\
  forall n k i j,
    (tile_covers a row col i j = false -> elem ct' n k i j = elem ct n k i j) /\
    (tile_covers a row col i j = true ->
     exists w, (0 < w)%R /\ elem ct' n k i j = (elem ct n k i j + w)%R).
Proof.
  intros Hrow Hcol Hnp Hct. unfold stitch_tile, tile_covers.
  pose proof (tiles_fit row col Hrow Hcol) as Hfit. unfold tile_fits in Hfit.
  fold canvas in Hfit.
  destruct (_tile2latent_indices row col (tile_width a) (tile_height a)
              (tile_row_overlap a) (tile_col_overlap a)) as [[[r0 r1] c0] c1].
  destruct Hfit as (Hr0 & Hr1 & HrH & Hc0 & Hc1 & HcW).
  destruct size_nonneg as (Hhh & Hww).
  intros H. apply bind_ok in H as (p & _ & H).
  apply bind_ok in H as (weighted & _ & H).
  apply bind_ok in H as (np1 & Hnp1 & H).
  apply bind_ok in H as (ct1 & Hct1 & H).
  injection H as <- <-.
  apply update_hw_shape in Hnp1.
  apply update_hw_ok in Hct1 as (_ & Hsh & Hel).
  split; [congruence|]. split; [congruence|].
  intros n k i j. rewrite Hel, Hct. unfold in_slice, in_rect.
  rewrite !slice_bound_in_range by lia.
  destruct ((r0 <=? i) && (i <? r1)) eqn:Hi; cbn [andb].
  - destruct ((c0 <=? j) && (j <? c1)) eqn:Hj.
    + split; [discriminate|]. intros _. eexists. split; [|reflexivity].
      unfold expanded. rewrite weights_shape. cbn [dim_b dim_c dim_h dim_w].
      apply weights_pos; unfold expand_index.
      * destruct (Z.eqb_spec hh 1); lia.
      * destruct (Z.eqb_spec ww 1); lia.
    + split; [reflexivity | discriminate].
  - split; [reflexivity | discriminate].
Qed.

Lemma weights_summed_step (cov : Z -> Z -> Prop) (row col : Z) (ct ct' : Tensor) :
  weights_summed cov ct ->
  (forall n k i j,
      (tile_covers a row col i j = false -> elem ct' n k i j = elem ct n k i j) /\
      (tile_covers a row col i j = true ->
       exists w, (0 < w)%R /\ elem ct' n k i j = (elem ct n k i j + w)%R)) ->
  weights_summed (fun i j => cov i j \/ tile_covers a row col i j = true) ct'.
Proof.
  intros Hsum Hstep n k i j.
  destruct (Hsum n k i j) as (H0 & H1 & H2). destruct (Hstep n k i j) as (Hf & Ht).
  destruct (tile_covers a row col i j) eqn:Hcov.
  - destruct (Ht eq_refl) as (w & Hw & ->).
    split; [lra|]. split; [intros _; lra|]. intros Hn. exfalso. apply Hn. now right.
  - rewrite (Hf eq_refl). split; [assumption|]. split.
    + intros [Hc | Hc]; [now apply H1 | discriminate].
    + intros Hn. apply H2. intros Hc. apply Hn. now left.
Qed.

Lemma accumulate_contributors (np ct : Tensor) :
  accumulate a v tile_weights latents noise_preds = Ok (np, ct) ->
  tshape ct = canvas /\ weights_summed (covered_by_rows a v (range (grid_rows v))) ct.
Proof.
  unfold accumulate. intros Hrun.
  pose (P := fun (rs : list Z) (acc : Tensor * Tensor) =>
               tshape (fst acc) = canvas /\ tshape (snd acc) = canvas /\
               weights_summed (covered_by_rows a v rs) (snd acc)).
  assert (HP : P ([] ++ range (grid_rows v)) (np, ct)).
  { eapply (for_each_ind P); [| |exact Hrun].
    - split; [exact latents_canvas|]. split; [exact latents_canvas|].
      intros n k i j. cbn [snd torch_zeros elem].
      split; [lra|]. split; [intros (row & col & [] & _) | reflexivity].
    - intros rs row [np1 ct1] [np2 ct2] (Hnp1 & Hct1 & Hsum1) Hrow Hinner.
      apply in_range in Hrow.
      pose (Q := fun (cs : list Z) (acc : Tensor * Tensor) =>
                   tshape (fst acc) = canvas /\ tshape (snd acc) = canvas /\
                   weights_summed
                     (fun i j => covered_by_rows a v rs i j \/ covered_in_row a row cs i j)
                     (snd acc)).
      assert (HQ : Q ([] ++ range (grid_cols v)) (np2, ct2)).
      { eapply (for_each_ind Q); [| |exact Hinner].
        - split; [assumption|]. split; [assumption|].
          eapply weights_summed_iff; [|exact Hsum1].
          intros i j. split; [now left|]. intros [H|(col & [] & _)]. exact H.
        - intros cs col [np3 ct3] [np4 ct4] (Hnp3 & Hct3 & Hsum3) Hcol Hstep.
          apply in_range in Hcol.
          destruct (stitch_tile_contributors row col np3 ct3 np4 ct4
                      Hrow Hcol Hnp3 Hct3 Hstep) as (Hnp4 & Hct4 & Hel).
          split; [assumption|]. split; [assumption|]. cbn [snd].
          eapply weights_summed_iff;
            [|exact (weights_summed_step _ row col ct3 ct4 Hsum3 Hel)].
          intros i j. cbn beta. unfold covered_in_row. split.
          + intros [[H | (c & Hc & Hcov)] | Hcov]; [now left | |].
            * right. exists c. split; [apply in_or_app; now left | assumption].
            * right. exists col. split; [apply in_or_app; right; now left | assumption].
          + intros [H | (c & Hc & Hcov)]; [left; now left|].
            apply in_app_or in Hc as [Hc | [<- | []]].
            * left. right. now exists c.
            * now right. }
      destruct HQ as (Hnp2 & Hct2 & Hsum2). cbn [app] in Hsum2.
      split; [assumption|]. split; [assumption|].
      eapply weights_summed_iff; [|exact Hsum2].
      intros i j. cbn beta. unfold covered_by_rows, covered_in_row. split.
      + intros [(r & c & Hr & Hc & Hcov) | (c & Hc & Hcov)].
        * exists r, c. split; [apply in_or_app; now left | now split].
        * exists row, c. split; [apply in_or_app; right; now left | now split].
      + intros (r & c & Hr & Hc & Hcov).
        apply in_app_or in Hr as [Hr | [<- | []]].
        * left. now exists r, c.
        * right. now exists c. }
  destruct HP as (_ & Hct & Hsum). now split.
Qed.

(** With one prediction of the mask's shape per tile, every in-place
    addition of the stitching loop goes through. *)
Lemma accumulate_total :
  0 <= in_channels ->
  (forall row col, 0 <= row < grid_rows v -> 0 <= col < grid_cols v ->
     exists p, getitem2 noise_preds row col = Ok p /\ tshape p = tshape tile_weights) ->
  exists np ct, accumulate a v tile_weights latents noise_preds = Ok (np, ct).
Proof.
  intros Hc Hpreds. unfold accumulate.
  pose (P := fun acc : Tensor * Tensor =>
               tshape (fst acc) = canvas /\ tshape (snd acc) = canvas).
  destruct (for_each_total P
              (fun row => for_each (range (grid_cols v))
                            (stitch_tile a tile_weights noise_preds row))
              (range (grid_rows v))) with (s := (torch_zeros (tshape latents),
                                                 torch_zeros (tshape latents)))
    as ([np ct] & Hrun & _).
  - intros row acc Hrow HP. apply in_range in Hrow.
    apply (for_each_total P); [|exact HP].
    intros col [np1 ct1] Hcol (Hnp1 & Hct1). apply in_range in Hcol.
    cbn [fst snd] in Hnp1, Hct1.
    destruct (Hpreds row col Hrow Hcol) as (p & Hp & Hps).
    pose proof (tiles_fit row col Hrow Hcol) as Hfit.
    unfold stitch_tile, tile_fits in *. fold canvas in Hfit.
    destruct (_tile2latent_indices row col (tile_width a) (tile_height a)
                (tile_row_overlap a) (tile_col_overlap a)) as [[[r0 r1] c0] c1].
    destruct Hfit as (Hr0 & Hr1 & HrH & Hc0 & Hc1 & HcW).
    destruct size_nonneg as (Hhh & Hww).
    rewrite Hp. cbn [bind].
    destruct (tensor_binop_same_shape Rmult p tile_weights Hps) as (wt & Hwt & Hwts & _).
    unfold tensor_mul. rewrite Hwt. cbn [bind].
    destruct (update_hw_in_range Rplus np1 r0 r1 c0 c1 wt) as (np2 & Hnp2 & Hnp2s & _);
      try lia; try (rewrite Hnp1; fold canvas; lia).
    { rewrite Hwts, Hps, weights_shape, Hnp1. cbn [dim_b dim_c canvas latents_shape].
      unfold batch_size. f_equal; lia. }
    destruct (update_hw_in_range Rplus ct1 r0 r1 c0 c1 tile_weights)
      as (ct2 & Hct2 & Hct2s & _); try lia; try (rewrite Hct1; fold canvas; lia).
    { rewrite weights_shape, Hct1. cbn [dim_b dim_c canvas latents_shape].
      unfold batch_size. f_equal; lia. }
    unfold iadd_hw. rewrite Hnp2. cbn [bind]. rewrite Hct2. cbn [bind].
    eexists. split; [reflexivity|]. split; cbn [fst snd]; congruence.
  - split; cbn [fst snd torch_zeros tshape]; assumption.
  - now exists np, ct.
Qed.

End Accumulate.

(** ** Valid grids *)

Lemma axis_div8 (t o k : Z) :
  t mod 8 = 0 -> o mod 8 = 0 ->
  (k * (t - o)) / 8 = k * (t / 8 - o / 8) /\
  (k * (t - o) + t) / 8 = k * (t / 8 - o / 8) + t / 8.
Proof.
  intros Ht Ho. apply Z.div_exact in Ht, Ho; try lia.
  set (h := t / 8) in *. set (p := o / 8) in *. clearbody h p. subst t o.
  split.
  - replace (k * (8 * h - 8 * p)) with (k * (h - p) * 8) by ring.
    now rewrite Z.div_mul.
  - replace (k * (8 * h - 8 * p) + 8 * h) with ((k * (h - p) + h) * 8) by ring.
    now rewrite Z.div_mul.
Qed.

Lemma axis_covered (h s count i : Z) :
  0 < s <= h -> 1 <= count -> 0 <= i < h + (count - 1) * s ->
  exists r, 0 <= r < count /\ r * s <= i < r * s + h.
Proof.
  intros Hs Hcount Hi.
  assert (Hq : 0 <= i / s) by (apply Z.div_pos; lia).
  assert (Hlo : s * (i / s) <= i) by (apply Z.mul_div_le; lia).
  assert (Hhi : i < s * Z.succ (i / s)) by (apply Z.mul_succ_div_gt; lia).
  destruct (Z_lt_le_dec (i / s) count) as [Hlt | Hge].
  - exists (i / s). nia.
  - exists (count - 1). nia.
Qed.

Section ValidGrid.

Variable in_channels : Z.
Variable a : call_args.
Variable v : checked_args.

Hypothesis rows_pos : 1 <= grid_rows v.
Hypothesis cols_pos : 1 <= grid_cols v.
Hypothesis height_8 : tile_height a mod 8 = 0.
Hypothesis width_8 : tile_width a mod 8 = 0.
Hypothesis row_overlap_8 : tile_row_overlap a mod 8 = 0.
Hypothesis col_overlap_8 : tile_col_overlap a mod 8 = 0.
Hypothesis row_overlap_range : 0 <= tile_row_overlap a < tile_height a.
Hypothesis col_overlap_range : 0 <= tile_col_overlap a < tile_width a.

Let h := tile_height a / 8.
Let w := tile_width a / 8.
Let sr := tile_height a / 8 - tile_row_overlap a / 8.
Let sc := tile_width a / 8 - tile_col_overlap a / 8.

Lemma valid_strides : 0 < sr <= h /\ 0 < sc <= w.
Proof.
  unfold sr, sc, h, w.
  pose proof height_8 as Hh. pose proof width_8 as Hw.
  pose proof row_overlap_8 as Hro. pose proof col_overlap_8 as Hco.
  apply Z.div_exact in Hh, Hw, Hro, Hco; lia.
Qed.

Lemma valid_region (row col : Z) :
  _tile2latent_indices row col (tile_width a) (tile_height a)
                       (tile_row_overlap a) (tile_col_overlap a) =
  (row * sr, row * sr + h, col * sc, col * sc + w).
Proof.
  rewrite tile2latent_indices_eq.
  destruct (axis_div8 _ _ row height_8 row_overlap_8) as (-> & ->).
  destruct (axis_div8 _ _ col width_8 col_overlap_8) as (-> & ->).
  reflexivity.
Qed.

Lemma valid_canvas :
  latents_shape in_channels a v =
  mkShape 1 in_channels (h + (grid_rows v - 1) * sr) (w + (grid_cols v - 1) * sc).
Proof.
  unfold latents_shape, batch_size.
  destruct (axis_div8 _ _ (grid_rows v - 1) height_8 row_overlap_8) as (_ & Hr).
  destruct (axis_div8 _ _ (grid_cols v - 1) width_8 col_overlap_8) as (_ & Hc).
  f_equal.
  - rewrite Z.add_comm, Hr. unfold h, sr. lia.
  - rewrite Z.add_comm, Hc. unfold w, sc. lia.
Qed.

Lemma valid_tiles_fit (row col : Z) :
  0 <= row < grid_rows v -> 0 <= col < grid_cols v ->
  tile_fits in_channels a v h w row col.
Proof.
  intros Hrow Hcol. unfold tile_fits. rewrite valid_region, valid_canvas.
  cbn [dim_h dim_w]. destruct valid_strides as (Hsr & Hsc). nia.
Qed.

(** Every entry of the canvas lies in some tile's inclusive region. *)
Lemma valid_grid_covers (i j : Z) :
  0 <= i < dim_h (latents_shape in_channels a v) ->
  0 <= j < dim_w (latents_shape in_channels a v) ->
  exists row col,
    0 <= row < grid_rows v /\ 0 <= col < grid_cols v /\
    tile_covers a row col i j = true.
Proof.
  rewrite valid_canvas. cbn [dim_h dim_w]. intros Hi Hj.
  destruct valid_strides as (Hsr & Hsc).
  destruct (axis_covered h sr (grid_rows v) i Hsr rows_pos Hi) as (row & Hrow & Hri).
  destruct (axis_covered w sc (grid_cols v) j Hsc cols_pos Hj) as (col & Hcol & Hcj).
  exists row, col. split; [assumption|]. split; [assumption|].
  unfold tile_covers. rewrite valid_region. unfold in_rect.
  rewrite !andb_true_iff, !Z.leb_le, !Z.ltb_lt. lia.
Qed.

End ValidGrid.

(** C2, as the code has it.  In a grid with at least one row and one
    column, tile sizes and overlaps multiples of 8 and every overlap
    between 0 and the tile size (0 allowed, the tile size not), the
    weight-sum buffer that the stitching loop of a step leaves behind is
    strictly positive at every entry of the canvas, so the division that
    follows never divides by zero; and the loop does run to its end when
    it is given one prediction of the tile's latent shape per tile. *)
Theorem contributors_positive
  (in_channels : Z) (a : call_args) (v : checked_args)
  (latents : Tensor) (noise_preds : list (list Tensor)) :
  1 <= grid_rows v -> 1 <= grid_cols v ->
  tile_height a mod 8 = 0 -> tile_width a mod 8 = 0 ->
  tile_row_overlap a mod 8 = 0 -> tile_col_overlap a mod 8 = 0 ->
  0 <= tile_row_overlap a < tile_height a ->
  0 <= tile_col_overlap a < tile_width a ->
  tshape latents = latents_shape in_channels a v ->
  (forall noise_pred contributors,
      accumulate a v (_gaussian_weights in_channels (tile_width a) (tile_height a)
                                        batch_size)
                 latents noise_preds = Ok (noise_pred, contributors) ->
      tshape contributors = tshape latents /\
      forall n k i j,
        in_shape (tshape latents) n k i j -> (0 < elem contributors n k i j)%R) /\
  (0 <= in_channels ->
   (forall row col,
       0 <= row < grid_rows v -> 0 <= col < grid_cols v ->
       exists p, getitem2 noise_preds row col = Ok p /\
                 tshape p = mkShape 1 in_channels (tile_height a / 8) (tile_width a / 8)) ->
   exists noise_pred contributors,
     accumulate a v (_gaussian_weights in_channels (tile_width a) (tile_height a)
                                       batch_size)
                latents noise_preds = Ok (noise_pred, contributors)).
Proof.
  intros Hrows Hcols Hh8 Hw8 Hro8 Hco8 Hro Hco Hlat.
  assert (Hwsh : tshape (_gaussian_weights in_channels (tile_width a) (tile_height a)
                                           batch_size) =
                 mkShape 1 in_channels (tile_height a / 8) (tile_width a / 8))
    by (apply gaussian_weights_shape; lia).
  assert (Hsize : 0 <= tile_height a / 8 /\ 0 <= tile_width a / 8)
    by (split; apply Z.div_pos; lia).
  assert (Hfit : forall row col,
             0 <= row < grid_rows v -> 0 <= col < grid_cols v ->
             tile_fits in_channels a v (tile_height a / 8) (tile_width a / 8) row col)
    by (intros; apply valid_tiles_fit; assumption).
  assert (Hpos : forall n k y x,
             0 <= y < tile_height a / 8 -> 0 <= x < tile_width a / 8 ->
             (0 < elem (_gaussian_weights in_channels (tile_width a) (tile_height a)
                                          batch_size) n k y x)%R)
    by (intros; now apply gaussian_weights_pos).
  split.
  - intros np ct Hacc.
    destruct (accumulate_contributors in_channels a v _ latents noise_preds _ _
                Hlat Hwsh Hsize Hpos Hfit np ct Hacc) as (Hct & Hsum).
    split; [congruence|].
    intros n k i j (_ & _ & Hi & Hj). rewrite Hlat in Hi, Hj.
    destruct (valid_grid_covers in_channels a v Hrows Hcols Hh8 Hw8 Hro8 Hco8 Hro Hco
                i j Hi Hj) as (row & col & Hrow & Hcol & Hcov).
    apply (Hsum n k i j). exists row, col.
    split; [now apply in_range|]. split; [now apply in_range | assumption].
  - intros Hc Hpreds.
    apply (accumulate_total in_channels a v _ latents noise_preds _ _
             Hlat Hwsh Hsize Hfit Hc).
    intros row col Hrow Hcol. destruct (Hpreds row col Hrow Hcol) as (p & Hp & Hps).
    exists p. split; [assumption | congruence].
Qed.

Lemma contributors_positive_witness :
  (forall noise_pred contributors,
      accumulate overlap8_args checked_1x2
                 (_gaussian_weights 4 (tile_width overlap8_args)
                                    (tile_height overlap8_args) batch_size)
                 (torch_zeros (mkShape 1 4 2 3)) [[zero_tile; zero_tile]] =
      Ok (noise_pred, contributors) ->
      tshape contributors = tshape (torch_zeros (mkShape 1 4 2 3)) /\
      forall n k i j,
        in_shape (tshape (torch_zeros (mkShape 1 4 2 3))) n k i j ->
        (0 < elem contributors n k i j)%R) /\
  (0 <= 4 ->
   (forall row col,
       0 <= row < grid_rows checked_1x2 -> 0 <= col < grid_cols checked_1x2 ->
       exists p, getitem2 [[zero_tile; zero_tile]] row col = Ok p /\
                 tshape p = mkShape 1 4 (tile_height overlap8_args / 8)
                                    (tile_width overlap8_args / 8)) ->
   exists noise_pred contributors,
     accumulate overlap8_args checked_1x2
                (_gaussian_weights 4 (tile_width overlap8_args)
                                   (tile_height overlap8_args) batch_size)
                (torch_zeros (mkShape 1 4 2 3)) [[zero_tile; zero_tile]] =
     Ok (noise_pred, contributors)).
Proof.
  apply (contributors_positive 4 overlap8_args checked_1x2
           (torch_zeros (mkShape 1 4 2 3)) [[zero_tile; zero_tile]]);
    try reflexivity; simpl; lia.
Defined.

(** With a negative overlap the tiles lie apart: the canvas column
    between them belongs to no tile, and the weight-sum buffer is zero
    there once every tile has been added. *)
Lemma gap_between_tiles :
  tile_row_overlap gap_args < tile_height gap_args /\
  tile_col_overlap gap_args < tile_width gap_args /\
  tile_height gap_args mod 8 = 0 /\ tile_width gap_args mod 8 = 0 /\
  tile_row_overlap gap_args mod 8 = 0 /\ tile_col_overlap gap_args mod 8 = 0 /\
  validate gap_args = Ok checked_1x2 /\
  exists noise_pred contributors,
    accumulate gap_args checked_1x2 (_gaussian_weights 4 16 16 batch_size)
               (torch_zeros (latents_shape 4 gap_args checked_1x2))
               [[zero_tile; zero_tile]] = Ok (noise_pred, contributors) /\
    in_shape (latents_shape 4 gap_args checked_1x2) 0 0 0 2 /\
    elem contributors 0 0 0 2 = 0%R.
Proof.
  repeat (split; [reflexivity|]).
  assert (Hwsh : tshape (_gaussian_weights 4 16 16 batch_size) = mkShape 1 4 2 2)
    by (apply (gaussian_weights_shape 4 16 16 batch_size); lia).
  assert (Hfit : forall row col,
             0 <= row < grid_rows checked_1x2 -> 0 <= col < grid_cols checked_1x2 ->
             tile_fits 4 gap_args checked_1x2 2 2 row col).
  { simpl. intros row col Hrow Hcol. assert (row = 0) as -> by lia.
    assert (col = 0 \/ col = 1) as [-> | ->] by lia;
      unfold tile_fits; simpl; repeat split; try reflexivity;
      apply Z.leb_le; reflexivity. }
  assert (Hpos : forall n k y x,
             0 <= y < 2 -> 0 <= x < 2 ->
             (0 < elem (_gaussian_weights 4 16 16 batch_size) n k y x)%R)
    by (intros; now apply gaussian_weights_pos).
  destruct (accumulate_total 4 gap_args checked_1x2 (_gaussian_weights 4 16 16 batch_size)
              (torch_zeros (latents_shape 4 gap_args checked_1x2))
              [[zero_tile; zero_tile]] 2 2 eq_refl Hwsh ltac:(lia) Hfit ltac:(lia))
    as (np & ct & Hacc).
  { intros row col Hrow Hcol. simpl in Hrow, Hcol. assert (row = 0) as -> by lia.
    assert (col = 0 \/ col = 1) as [-> | ->] by lia;
      exists zero_tile; (split; [reflexivity | now rewrite Hwsh]). }
  exists np, ct. split; [exact Hacc|]. split.
  { unfold in_shape. simpl. repeat split; try lia; apply Z.ltb_lt; reflexivity. }
  destruct (accumulate_contributors 4 gap_args checked_1x2
              (_gaussian_weights 4 16 16 batch_size)
              (torch_zeros (latents_shape 4 gap_args checked_1x2))
              [[zero_tile; zero_tile]] 2 2
              eq_refl Hwsh ltac:(lia) Hpos Hfit np ct Hacc) as (_ & Hsum).
  apply (Hsum 0 0 0 2).
  intros (row & col & Hrow & Hcol & Hcov).
  apply in_range in Hrow, Hcol. simpl in Hrow, Hcol.
  assert (row = 0) as -> by lia.
  assert (col = 0 \/ col = 1) as [-> | ->] by lia; discriminate Hcov.
Qed.

(** A prompt grid whose only row is empty is rectangular; its canvas has
    the width of the overlap and no tile at all. *)
Lemma canvas_without_tiles :
  validate empty_row_args = Ok empty_row_checked /\
  accumulate empty_row_args empty_row_checked (_gaussian_weights 4 16 16 batch_size)
             (torch_zeros (latents_shape 4 empty_row_args empty_row_checked)) [[]] =
  Ok (torch_zeros (mkShape 1 4 2 1), torch_zeros (mkShape 1 4 2 1)) /\
  in_shape (latents_shape 4 empty_row_args empty_row_checked) 0 0 0 0.
Proof.
  split; [reflexivity|]. split; [reflexivity|].
  unfold in_shape. simpl. repeat split; try lia; apply Z.ltb_lt; reflexivity.
Qed.

(** C2 does not hold as stated: a grid that meets every condition the
    claim lists (rectangular, overlaps smaller than the tile sizes, sizes
    and overlaps multiples of 8) can leave entries of the canvas outside
    every tile, either through a negative overlap or through an empty
    prompt row, and the weight sum is zero at such an entry. *)
Lemma weight_sum_zero_outside_tiles :
  (tile_row_overlap gap_args < tile_height gap_args /\
   tile_col_overlap gap_args < tile_width gap_args /\
   tile_height gap_args mod 8 = 0 /\ tile_width gap_args mod 8 = 0 /\
   tile_row_overlap gap_args mod 8 = 0 /\ tile_col_overlap gap_args mod 8 = 0 /\
   validate gap_args = Ok checked_1x2 /\
   exists noise_pred contributors,
     accumulate gap_args checked_1x2 (_gaussian_weights 4 16 16 batch_size)
                (torch_zeros (latents_shape 4 gap_args checked_1x2))
                [[zero_tile; zero_tile]] = Ok (noise_pred, contributors) /\
     in_shape (latents_shape 4 gap_args checked_1x2) 0 0 0 2 /\
     ~ (0 < elem contributors 0 0 0 2)%R) /\
  (tile_row_overlap empty_row_args < tile_height empty_row_args /\
   tile_col_overlap empty_row_args < tile_width empty_row_args /\
   tile_height empty_row_args mod 8 = 0 /\ tile_width empty_row_args mod 8 = 0 /\
   tile_row_overlap empty_row_args mod 8 = 0 /\
   tile_col_overlap empty_row_args mod 8 = 0 /\
   validate empty_row_args = Ok empty_row_checked /\
   exists noise_pred contributors,
     accumulate empty_row_args empty_row_checked (_gaussian_weights 4 16 16 batch_size)
                (torch_zeros (latents_shape 4 empty_row_args empty_row_checked)) [[]] =
     Ok (noise_pred, contributors) /\
     in_shape (latents_shape 4 empty_row_args empty_row_checked) 0 0 0 0 /\
     ~ (0 < elem contributors 0 0 0 0)%R).
Proof.
  split.
  - destruct gap_between_tiles
      as (H1 & H2 & H3 & H4 & H5 & H6 & H7 & np & ct & Hacc & Hin & Hz).
    repeat (split; [assumption|]).
    exists np, ct. repeat (split; [assumption|]). rewrite Hz. lra.
  - destruct canvas_without_tiles as (Hv & Hacc & Hin).
    repeat (split; [reflexivity|]).
    eexists. eexists. split; [exact Hacc|]. split; [exact Hin|].
    cbn [elem torch_zeros]. lra.
Qed.

(** A seed grid wider than the prompt grid: the loop reads the entries of
    the 1x1 grid only, and the seed outside it is never used. *)
Example oversized_seed_grid_ignored :
  initial_latents 4 example_noise
    (example_args [["a"]]%string 0 (Some [[None; Some 5]]) None)
    (mkChecked [["a"]]%string 1 1 [["full"]]%string []) =
  initial_latents 4 example_noise
    (example_args [["a"]]%string 0 None None)
    (mkChecked [["a"]]%string 1 1 [["full"]]%string []).
Proof. reflexivity. Qed.

(** * Further properties *)

(** ** Tile geometry *)

(** One axis of the grid: tile [k] of [count] tiles of size [t] and
    overlap [o]. *)
Lemma axis_in_canvas (t o count k : Z) :
  0 <= k < count -> 0 <= t -> o <= t ->
  0 <= k * (t - o) / 8 <= (k * (t - o) + t) / 8 /\
  (k * (t - o) + t) / 8 <= (t + (count - 1) * (t - o)) / 8 /\
  (k = count - 1 -> (k * (t - o) + t) / 8 = (t + (count - 1) * (t - o)) / 8).
Proof.
  intros Hk Ht Ho. repeat split.
  - apply Z.div_pos; nia.
  - apply Z.div_le_mono; lia.
  - apply Z.div_le_mono; nia.
  - intros ->. f_equal. lia.
Qed.

(** X1.  In a grid whose overlaps do not exceed the tile sizes, every
    tile's inclusive latent region lies inside the canvas latent, and the
    region of the last row and column ends exactly at the canvas border:
    no slice of a tile is ever clamped. *)
Theorem tiles_inside_canvas
  (in_channels : Z) (a : call_args) (v : checked_args) (row col : Z) :
  0 <= row < grid_rows v -> 0 <= col < grid_cols v ->
  0 <= tile_height a -> 0 <= tile_width a ->
  tile_row_overlap a <= tile_height a -> tile_col_overlap a <= tile_width a ->
  let '(r0, r1, c0, c1) :=
    _tile2latent_indices row col (tile_width a) (tile_height a)
                         (tile_row_overlap a) (tile_col_overlap a) in
  rect_in_canvas in_channels a v r0 r1 c0 c1 /\
  (row = grid_rows v - 1 -> r1 = dim_h (latents_shape in_channels a v)) /\
  (col = grid_cols v - 1 -> c1 = dim_w (latents_shape in_channels a v)).
Proof.
  intros Hrow Hcol Hh Hw Hro Hco. rewrite tile2latent_indices_eq.
  unfold rect_in_canvas, latents_shape. cbn [dim_h dim_w].
  destruct (axis_in_canvas (tile_height a) (tile_row_overlap a) (grid_rows v) row
              Hrow Hh Hro) as (Hr1 & Hr2 & Hr3).
  destruct (axis_in_canvas (tile_width a) (tile_col_overlap a) (grid_cols v) col
              Hcol Hw Hco) as (Hc1 & Hc2 & Hc3).
  repeat split; try lia; assumption.
Qed.

Lemma tiles_inside_canvas_witness :
  rect_in_canvas 4 overlap8_args checked_1x2 0 2 1 3 /\
  (0 = grid_rows checked_1x2 - 1 -> 2 = dim_h (latents_shape 4 overlap8_args checked_1x2)) /\
  (1 = grid_cols checked_1x2 - 1 -> 3 = dim_w (latents_shape 4 overlap8_args checked_1x2)).
Proof.
  apply (tiles_inside_canvas 4 overlap8_args checked_1x2 0 1); simpl; lia.
Defined.

(** X2.  When tile sizes and overlaps are multiples of 8, tile (row, col)
    starts at [row * stride] and [col * stride] latents, with the strides
    [(size - overlap) / 8], and spans exactly [tile_height / 8] rows and
    [tile_width / 8] columns, the size of the blend mask; two consecutive
    rows of tiles share exactly [tile_row_overlap / 8] latent rows. *)
Theorem tile_region_multiples_of_8
  (row col tile_width tile_height tile_row_overlap tile_col_overlap : Z) :
  tile_height mod 8 = 0 -> tile_width mod 8 = 0 ->
  tile_row_overlap mod 8 = 0 -> tile_col_overlap mod 8 = 0 ->
  _tile2latent_indices row col tile_width tile_height tile_row_overlap tile_col_overlap =
  (row * (tile_height / 8 - tile_row_overlap / 8),
   row * (tile_height / 8 - tile_row_overlap / 8) + tile_height / 8,
   col * (tile_width / 8 - tile_col_overlap / 8),
   col * (tile_width / 8 - tile_col_overlap / 8) + tile_width / 8) /\
  (let '(_, r1, _, _) :=
     _tile2latent_indices row col tile_width tile_height
                          tile_row_overlap tile_col_overlap in
   let '(r0', _, _, _) :=
     _tile2latent_indices (row + 1) col tile_width tile_height
                          tile_row_overlap tile_col_overlap in
   r1 - r0' = tile_row_overlap / 8).
Proof.
  intros Hh Hw Hro Hco. rewrite !tile2latent_indices_eq.
  destruct (axis_div8 _ _ row Hh Hro) as (-> & ->).
  destruct (axis_div8 _ _ (row + 1) Hh Hro) as (-> & _).
  destruct (axis_div8 _ _ col Hw Hco) as (-> & ->).
  split; [reflexivity | lia].
Qed.

Lemma tile_region_multiples_of_8_witness :
  _tile2latent_indices 1 2 512 256 128 64 = (1 * (256 / 8 - 128 / 8),
                                            1 * (256 / 8 - 128 / 8) + 256 / 8,
                                            2 * (512 / 8 - 64 / 8),
                                            2 * (512 / 8 - 64 / 8) + 512 / 8) /\
  (let '(_, r1, _, _) := _tile2latent_indices 1 2 512 256 128 64 in
   let '(r0', _, _, _) := _tile2latent_indices (1 + 1) 2 512 256 128 64 in
   r1 - r0' = 128 / 8).
Proof.
  apply (tile_region_multiples_of_8 1 2 512 256 128 64); reflexivity.
Defined.

(** ** Exclusive regions *)

Lemma segment_ordered (lo hi : Z) : lo <= hi -> segment lo hi = (lo, hi).
Proof. intros H. unfold segment. apply Z.leb_le in H. now rewrite H. Qed.

(** An interval minus the interval one stride further on. *)
Lemma segment_sub_next (lo s h : Z) :
  0 < s <= h -> segment_sub (lo, lo + h) (lo + s, lo + s + h) = Ok (lo, lo + s).
Proof.
  intros Hs. unfold segment_sub, segment_contains. cbn [fst snd].
  destruct (Z.eq_dec s h) as [->|Hne].
  - replace (lo + h <=? lo + h) with true by lia. reflexivity.
  - replace (lo + h <=? lo + s) with false by lia.
    replace (lo + s + h <=? lo) with false by lia.
    replace (lo + s <=? lo) with false by lia.
    replace (lo <? lo + s) with true by lia.
    replace (lo + s + h <? lo + h) with false by lia.
    reflexivity.
Qed.

(** An interval minus the interval one stride before. *)
Lemma segment_sub_previous (lo s h : Z) :
  0 < s <= h -> segment_sub (lo + s, lo + s + h) (lo, lo + h) = Ok (lo + h, lo + s + h).
Proof.
  intros Hs. unfold segment_sub, segment_contains. cbn [fst snd].
  destruct (Z.eq_dec s h) as [->|Hne].
  - replace (lo + h + h <=? lo) with false by lia.
    replace (lo + h <=? lo + h) with true by lia.
    rewrite orb_true_r. reflexivity.
  - replace (lo + s + h <=? lo) with false by lia.
    replace (lo + h <=? lo + s) with false by lia.
    replace (lo <=? lo + s) with true by lia.
    replace (lo + s + h <=? lo + h) with false by lia.
    replace (lo + s <? lo) with false by lia.
    reflexivity.
Qed.

(** An interval inside the one that is subtracted from it. *)
Lemma segment_sub_inside (lo hi lo' hi' : Z) :
  lo' <= lo -> lo < hi -> hi <= hi' ->
  segment_sub (lo, hi) (lo', hi') = Raise ValueError.
Proof.
  intros H1 H2 H3. unfold segment_sub, segment_contains. cbn [fst snd].
  replace (hi <=? lo') with false by lia.
  replace (hi' <=? lo) with false by lia.
  replace (lo' <=? lo) with true by lia.
  replace (hi <=? hi') with true by lia.
  reflexivity.
Qed.

(** X4.  In a grid of a single row, and in a grid of a single column, the
    loop of [_tile2latent_exclusive_indices] finds no tile in another row
    and another column: the region it returns is the tile's whole
    inclusive region, overlaps with the neighbours included. *)
Theorem exclusive_is_inclusive_on_a_line
  (tile_row tile_col tile_width tile_height tile_row_overlap tile_col_overlap
   rows columns : Z) :
  (rows = 1 /\ tile_row = 0) \/ (columns = 1 /\ tile_col = 0) ->
  0 <= tile_height -> 0 <= tile_width ->
  _tile2latent_exclusive_indices tile_row tile_col tile_width tile_height
                                 tile_row_overlap tile_col_overlap rows columns =
  Ok (_tile2latent_indices tile_row tile_col tile_width tile_height
                           tile_row_overlap tile_col_overlap).
Proof.
  intros Hline Hh Hw. unfold _tile2latent_exclusive_indices.
  rewrite tile2latent_indices_eq.
  rewrite for_each_skip.
  - cbn [bind]. rewrite !segment_ordered by (apply Z.div_le_mono; lia). reflexivity.
  - intros row Hrow. apply in_range in Hrow. apply for_each_skip.
    intros column Hcolumn. apply in_range in Hcolumn.
    destruct Hline as [(-> & ->) | (-> & ->)].
    + replace (row =? 0) with true by lia. reflexivity.
    + replace (column =? 0) with true by lia. now rewrite andb_false_r.
Qed.

Lemma exclusive_is_inclusive_on_a_line_witness :
  _tile2latent_exclusive_indices 2 0 512 512 256 256 4 1 =
  Ok (_tile2latent_indices 2 0 512 512 256 256).
Proof.
  apply (exclusive_is_inclusive_on_a_line 2 0 512 512 256 256 4 1); [right|..]; lia.
Defined.

Lemma segment_sub_next0 (s h : Z) :
  0 < s <= h -> segment_sub (0, h) (s, s + h) = Ok (0, s).
Proof. intros Hs. exact (segment_sub_next 0 s h Hs). Qed.

Lemma segment_sub_previous0 (s h : Z) :
  0 < s <= h -> segment_sub (s, s + h) (0, h) = Ok (h, s + h).
Proof. intros Hs. exact (segment_sub_previous 0 s h Hs). Qed.

(** The exclusive regions of a 2x2 grid whose tile regions are spaced by
    the strides [sr] and [sc]. *)
Lemma exclusive_2x2_strides
  (row col tile_width tile_height tile_row_overlap tile_col_overlap h w sr sc : Z) :
  (forall r c,
      _tile2latent_indices r c tile_width tile_height tile_row_overlap tile_col_overlap =
      (r * sr, r * sr + h, c * sc, c * sc + w)) ->
  0 < sr <= h -> 0 < sc <= w ->
  0 <= row < 2 -> 0 <= col < 2 ->
  _tile2latent_exclusive_indices row col tile_width tile_height
                                 tile_row_overlap tile_col_overlap 2 2 =
  Ok (if row =? 0 then 0 else h, if row =? 0 then sr else sr + h,
      if col =? 0 then 0 else w, if col =? 0 then sc else sc + w).
Proof.
  intros Hreg Hsr Hsc Hrow Hcol.
  unfold _tile2latent_exclusive_indices. change (range 2) with [0; 1].
  assert (row = 0 \/ row = 1) as [-> | ->] by lia;
    assert (col = 0 \/ col = 1) as [-> | ->] by lia;
    cbn [for_each bind negb andb Z.eqb Pos.eqb];
    rewrite !Hreg; cbv beta iota;
    rewrite ?Z.mul_0_l, ?Z.mul_1_l, ?Z.add_0_l;
    rewrite !segment_ordered by lia;
    cbn [for_each bind];
    rewrite ?segment_sub_next0, ?segment_sub_previous0 by assumption;
    cbn [bind];
    rewrite ?segment_sub_next0, ?segment_sub_previous0 by assumption;
    reflexivity.
Qed.

(** X3.  In a 2x2 grid with tile sizes and overlaps multiples of 8 and
    overlaps between 0 and the tile size, [_tile2latent_exclusive_indices]
    returns for each tile exactly the entries of its inclusive region that
    no other tile's inclusive region contains. *)
Theorem exclusive_regions_2x2 (a : call_args) (row col : Z) :
  tile_height a mod 8 = 0 -> tile_width a mod 8 = 0 ->
  tile_row_overlap a mod 8 = 0 -> tile_col_overlap a mod 8 = 0 ->
  0 <= tile_row_overlap a < tile_height a ->
  0 <= tile_col_overlap a < tile_width a ->
  0 <= row < 2 -> 0 <= col < 2 ->
  exists r0 r1 c0 c1,
    _tile2latent_exclusive_indices row col (tile_width a) (tile_height a)
                                   (tile_row_overlap a) (tile_col_overlap a) 2 2 =
    Ok (r0, r1, c0, c1) /\
    forall i j,
      in_rect r0 r1 c0 c1 i j = true <->
      (tile_covers a row col i j = true /\
       forall row' col',
         0 <= row' < 2 -> 0 <= col' < 2 -> (row', col') <> (row, col) ->
         tile_covers a row' col' i j = false).
Proof.
  intros Hh8 Hw8 Hro8 Hco8 Hro Hco Hrow Hcol.
  set (h := tile_height a / 8). set (w := tile_width a / 8).
  set (sr := tile_height a / 8 - tile_row_overlap a / 8).
  set (sc := tile_width a / 8 - tile_col_overlap a / 8).
  assert (Hreg : forall r c,
             _tile2latent_indices r c (tile_width a) (tile_height a)
                                  (tile_row_overlap a) (tile_col_overlap a) =
             (r * sr, r * sr + h, c * sc, c * sc + w)).
  { intros r c. rewrite tile2latent_indices_eq.
    destruct (axis_div8 _ _ r Hh8 Hro8) as (-> & ->).
    destruct (axis_div8 _ _ c Hw8 Hco8) as (-> & ->). reflexivity. }
  assert (Hsr : 0 < sr <= h).
  { unfold sr, h. pose proof Hh8 as E1. pose proof Hro8 as E2.
    apply Z.div_exact in E1, E2; lia. }
  assert (Hsc : 0 < sc <= w).
  { unfold sc, w. pose proof Hw8 as E1. pose proof Hco8 as E2.
    apply Z.div_exact in E1, E2; lia. }
  eexists _, _, _, _. split.
  { apply (exclusive_2x2_strides row col _ _ _ _ h w sr sc); assumption. }
  assert (Hcov : forall r c i j,
             tile_covers a r c i j =
             in_rect (r * sr) (r * sr + h) (c * sc) (c * sc + w) i j).
  { intros r c i j. unfold tile_covers. now rewrite Hreg. }
  intros i j. rewrite Hcov. split.
  - intros Hin. split.
    + unfold in_rect in *.
      assert (row = 0 \/ row = 1) as [-> | ->] by lia;
        assert (col = 0 \/ col = 1) as [-> | ->] by lia;
        cbn [Z.eqb] in Hin; lia.
    + intros row' col' Hrow' Hcol' Hne. rewrite Hcov. unfold in_rect in *.
      assert (row' <> row \/ col' <> col) as Hdiff.
      { destruct (Z.eq_dec row' row) as [->|]; [|now left].
        destruct (Z.eq_dec col' col) as [->|]; [|now right]. now contradiction Hne. }
      assert (row = 0 \/ row = 1) as [-> | ->] by lia;
        assert (col = 0 \/ col = 1) as [-> | ->] by lia;
        cbn [Z.eqb] in Hin;
        assert (row' = 0 \/ row' = 1) as [-> | ->] by lia;
        assert (col' = 0 \/ col' = 1) as [-> | ->] by lia; lia.
  - intros (Hown & Hothers).
    assert (H00 := Hothers 0 0). assert (H01 := Hothers 0 1).
    assert (H10 := Hothers 1 0). assert (H11 := Hothers 1 1).
    rewrite !Hcov in H00, H01, H10, H11. unfold in_rect in *.
    assert (row = 0 \/ row = 1) as [-> | ->] by lia;
      assert (col = 0 \/ col = 1) as [-> | ->] by lia;
      cbn [Z.eqb].
    + assert (E1 := H01 ltac:(lia) ltac:(lia) ltac:(congruence)).
      assert (E2 := H10 ltac:(lia) ltac:(lia) ltac:(congruence)). lia.
    + assert (E1 := H00 ltac:(lia) ltac:(lia) ltac:(congruence)).
      assert (E2 := H11 ltac:(lia) ltac:(lia) ltac:(congruence)). lia.
    + assert (E1 := H00 ltac:(lia) ltac:(lia) ltac:(congruence)).
      assert (E2 := H11 ltac:(lia) ltac:(lia) ltac:(congruence)). lia.
    + assert (E1 := H01 ltac:(lia) ltac:(lia) ltac:(congruence)).
      assert (E2 := H10 ltac:(lia) ltac:(lia) ltac:(congruence)). lia.
Qed.

Lemma exclusive_regions_2x2_witness :
  exists r0 r1 c0 c1,
    _tile2latent_exclusive_indices 1 0 (tile_width overlap8_args) (tile_height overlap8_args)
      (tile_row_overlap overlap8_args) (tile_col_overlap overlap8_args) 2 2 =
    Ok (r0, r1, c0, c1) /\
    forall i j,
      in_rect r0 r1 c0 c1 i j = true <->
      (tile_covers overlap8_args 1 0 i j = true /\
       forall row' col',
         0 <= row' < 2 -> 0 <= col' < 2 -> (row', col') <> (1, 0) ->
         tile_covers overlap8_args row' col' i j = false).
Proof.
  apply (exclusive_regions_2x2 overlap8_args 1 0); try reflexivity; simpl; lia.
Defined.

Lemma range_three (n : Z) : 3 <= n -> exists tl, range n = 0 :: 1 :: 2 :: tl.
Proof.
  intros Hn. unfold range.
  destruct (Z.to_nat n) as [|[|[|m]]] eqn:Hm; try lia. simpl. eauto.
Qed.

(** X5.  In a grid of three rows or more and two columns, with an overlap
    of at least half the tile height (the default 256 of 512 included),
    the exclusive region of a tile of row 1 does not exist as one
    interval: the rows left after the tiles of row 0 lie inside the tiles
    of row 2, and [_tile2latent_exclusive_indices] raises [ValueError]. *)
Theorem exclusive_middle_row_raises
  (tile_col tile_width tile_height tile_row_overlap tile_col_overlap rows : Z) :
  tile_height mod 8 = 0 -> tile_width mod 8 = 0 ->
  tile_row_overlap mod 8 = 0 -> tile_col_overlap mod 8 = 0 ->
  0 < tile_row_overlap < tile_height -> tile_height <= 2 * tile_row_overlap ->
  0 <= tile_col_overlap < tile_width ->
  3 <= rows -> 0 <= tile_col < 2 ->
  _tile2latent_exclusive_indices 1 tile_col tile_width tile_height
                                 tile_row_overlap tile_col_overlap rows 2 =
  Raise ValueError.
Proof.
  intros Hh8 Hw8 Hro8 Hco8 Hro Hhalf Hco Hrows Hcol.
  set (h := tile_height / 8). set (w := tile_width / 8).
  set (sr := tile_height / 8 - tile_row_overlap / 8).
  set (sc := tile_width / 8 - tile_col_overlap / 8).
  assert (Hreg : forall r c,
             _tile2latent_indices r c tile_width tile_height
                                  tile_row_overlap tile_col_overlap =
             (r * sr, r * sr + h, c * sc, c * sc + w)).
  { intros r c. rewrite tile2latent_indices_eq.
    destruct (axis_div8 _ _ r Hh8 Hro8) as (-> & ->).
    destruct (axis_div8 _ _ c Hw8 Hco8) as (-> & ->). reflexivity. }
  assert (Hsr : 0 < sr <= h /\ 2 * sr <= h).
  { unfold sr, h. pose proof Hh8 as E1. pose proof Hro8 as E2.
    apply Z.div_exact in E1, E2; lia. }
  assert (Hsc : 0 < sc <= w).
  { unfold sc, w. pose proof Hw8 as E1. pose proof Hco8 as E2.
    apply Z.div_exact in E1, E2; lia. }
  destruct Hsr as (Hsr & Hsr2).
  unfold _tile2latent_exclusive_indices.
  destruct (range_three rows Hrows) as (tl & ->). change (range 2) with [0; 1].
  assert (tile_col = 0 \/ tile_col = 1) as [-> | ->] by lia;
    cbn [for_each bind negb andb Z.eqb Pos.eqb];
    rewrite !Hreg; cbv beta iota;
    rewrite ?Z.mul_0_l, ?Z.mul_1_l, ?Z.add_0_l;
    rewrite !segment_ordered by lia;
    cbn [for_each bind];
    rewrite ?segment_sub_next0, ?segment_sub_previous0 by assumption;
    cbn [bind];
    rewrite ?segment_sub_next0, ?segment_sub_previous0 by assumption;
    cbn [bind];
    rewrite segment_sub_inside by lia; reflexivity.
Qed.

Lemma exclusive_middle_row_raises_witness :
  _tile2latent_exclusive_indices 1 1 512 512 256 256 3 2 = Raise ValueError.
Proof.
  apply (exclusive_middle_row_raises 1 512 512 256 256 3); try reflexivity; lia.
Defined.

(** ** Argument checks *)

Lemma getitem_zero_ok {A : Type} (xs : list A) (x : A) :
  getitem xs 0 = Ok x -> exists tl, xs = x :: tl.
Proof.
  unfold getitem. cbn. destruct xs as [|y tl]; [discriminate|].
  intros H. injection H as ->. now exists tl.
Qed.

Lemma nth_error_map_const {A : Type} (mode : A) (n k : Z) :
  0 <= k < n ->
  nth_error (map (fun _ : Z => mode) (range n)) (Z.to_nat k) = Some mode.
Proof.
  intros Hk. rewrite nth_error_map.
  unfold range. rewrite nth_error_map, nth_error_seq.
  destruct (Nat.ltb_spec (Z.to_nat k) (Z.to_nat n)); [reflexivity | lia].
Qed.

Lemma getitem_nth_error {A : Type} (xs : list A) (k : Z) (x : A) :
  0 <= k -> nth_error xs (Z.to_nat k) = Some x -> getitem xs k = Ok x.
Proof.
  intros Hk Hx. unfold getitem. cbv zeta.
  assert (Hneg : (k <? 0) = false) by lia. now rewrite !Hneg, Hx.
Qed.

Lemma nth_error_in_range {A : Type} (xs : list A) (k : Z) :
  0 <= k < Z.of_nat (List.length xs) -> exists x, nth_error xs (Z.to_nat k) = Some x.
Proof.
  intros Hk. destruct (nth_error xs (Z.to_nat k)) as [x|] eqn:Hx; [now exists x|].
  apply nth_error_None in Hx. lia.
Qed.

(** X6.  What the checks at the top of [__call__] guarantee once they
    pass: the prompt is a grid with at least one row, every row has
    [grid_cols] prompts, every seeding mode is ["full"] or ["exclusive"],
    a mode given as one string is found at every tile of the grid, and
    the reroll list is the one given, or empty. *)
Theorem validate_postcondition (a : call_args) (v : checked_args) :
  validate a = Ok v ->
  prompt a = PromptGrid (prompt_grid v) /\
  1 <= grid_rows v /\ grid_rows v = Z.of_nat (List.length (prompt_grid v)) /\
  Forall (fun row => Z.of_nat (List.length row) = grid_cols v) (prompt_grid v) /\
  Forall (Forall (fun mode => mode = SeedTilesMode_value FULL \/
                               mode = SeedTilesMode_value EXCLUSIVE)) (mode_grid v) /\
  (forall mode row col,
      seed_tiles_mode a = ModeStr mode ->
      0 <= row < grid_rows v -> 0 <= col < grid_cols v ->
      getitem2 (mode_grid v) row col = Ok mode) /\
  reroll_regions v = match seed_reroll_regions a with Some l => l | None => [] end.
Proof.
  unfold validate. destruct (prompt a) as [s|g] eqn:Hp; [discriminate|].
  intros H. apply bind_ok in H as (row0 & Hrow0 & H).
  destruct (forallb _ g) eqn:Hrect; [|discriminate]. cbn [negb] in H.
  destruct (existsb _ _) eqn:Hmodes; [discriminate|].
  injection H as <-. cbn [prompt_grid grid_rows grid_cols mode_grid reroll_regions].
  apply getitem_zero_ok in Hrow0 as (tl & Hg).
  assert (Hall : Forall (fun row => Z.of_nat (List.length row) =
                                    Z.of_nat (List.length row0)) g).
  { apply Forall_forall. intros row Hin.
    rewrite forallb_forall in Hrect. apply Z.eqb_eq. now apply Hrect. }
  split; [reflexivity|]. split; [subst g; cbn [List.length]; lia|].
  split; [reflexivity|]. split; [exact Hall|]. split; [|split; [|reflexivity]].
  - apply Forall_forall. intros row Hrow. apply Forall_forall. intros mode Hmode.
    assert (Hok : existsb (String.eqb mode) (map SeedTilesMode_value [FULL; EXCLUSIVE])
                  = true).
    { destruct (existsb (String.eqb mode) _) eqn:He; [reflexivity|].
      assert (Hex : existsb
                      (fun row => existsb
                         (fun mode => negb (existsb (String.eqb mode)
                                              (map SeedTilesMode_value [FULL; EXCLUSIVE])))
                         row)
                      match seed_tiles_mode a with
                      | ModeStr mode =>
                          map (fun row => map (fun _ => mode)
                                            (range (Z.of_nat (List.length row)))) g
                      | ModeGrid g0 => g0
                      end = true).
      { apply existsb_exists. exists row. split; [exact Hrow|].
        apply existsb_exists. exists mode. split; [exact Hmode|]. now rewrite He. }
      congruence. }
    cbn [map existsb] in Hok. rewrite orb_false_r in Hok.
    apply orb_prop in Hok as [Hf | He]; apply String.eqb_eq in Hf || apply String.eqb_eq in He;
      [now left | now right].
  - intros mode row col Hm Hrow Hcol. rewrite Hm. unfold getitem2.
    destruct (nth_error_in_range g row Hrow) as (prow & Hprow).
    rewrite (getitem_nth_error _ row
               (map (fun _ : Z => mode) (range (Z.of_nat (List.length prow))))) by
      (try lia; rewrite nth_error_map, Hprow; reflexivity).
    cbn [bind]. apply getitem_nth_error; [lia|].
    apply nth_error_map_const.
    rewrite Forall_forall in Hall. rewrite (Hall prow) by (eapply nth_error_In; eassumption).
    exact Hcol.
Qed.

Lemma validate_postcondition_witness :
  prompt overlap8_args = PromptGrid (prompt_grid checked_1x2) /\
  1 <= grid_rows checked_1x2 /\
  grid_rows checked_1x2 = Z.of_nat (List.length (prompt_grid checked_1x2)) /\
  Forall (fun row => Z.of_nat (List.length row) = grid_cols checked_1x2)
         (prompt_grid checked_1x2) /\
  Forall (Forall (fun mode => mode = SeedTilesMode_value FULL \/
                               mode = SeedTilesMode_value EXCLUSIVE))
         (mode_grid checked_1x2) /\
  (forall mode row col,
      seed_tiles_mode overlap8_args = ModeStr mode ->
      0 <= row < grid_rows checked_1x2 -> 0 <= col < grid_cols checked_1x2 ->
      getitem2 (mode_grid checked_1x2) row col = Ok mode) /\
  reroll_regions checked_1x2 =
  match seed_reroll_regions overlap8_args with Some l => l | None => [] end.
Proof.
  apply (validate_postcondition overlap8_args checked_1x2). reflexivity.
Defined.

(** X7.  How the checks at the top of [__call__] fail: a prompt that is
    one string, a ragged grid and an unknown seeding mode raise
    [ValueError], but the empty list of rows reaches [prompt[0]] and
    raises [IndexError]; and these checks raise nothing else. *)
Theorem validate_errors (a : call_args) :
  (forall s, prompt a = PromptStr s -> validate a = Raise ValueError) /\
  (prompt a = PromptGrid [] -> validate a = Raise IndexError) /\
  (forall row0 rest row,
      prompt a = PromptGrid (row0 :: rest) -> In row rest ->
      List.length row <> List.length row0 ->
      validate a = Raise ValueError) /\
  (forall p row0 rest mode,
      prompt a = PromptGrid ((p :: row0) :: rest) ->
      seed_tiles_mode a = ModeStr mode ->
      mode <> SeedTilesMode_value FULL -> mode <> SeedTilesMode_value EXCLUSIVE ->
      validate a = Raise ValueError) /\
  (forall e,
      validate a = Raise e ->
      e = ValueError \/ (e = IndexError /\ prompt a = PromptGrid [])).
Proof.
  assert (Hgrid : forall row0 rest,
             prompt a = PromptGrid (row0 :: rest) ->
             validate a =
             if negb (forallb (fun row => Z.of_nat (List.length row) =?
                                          Z.of_nat (List.length row0)) (row0 :: rest))
             then Raise ValueError
             else
               if existsb
                    (fun row => existsb
                       (fun mode => negb (existsb (String.eqb mode)
                                            (map SeedTilesMode_value [FULL; EXCLUSIVE])))
                       row)
                    match seed_tiles_mode a with
                    | ModeStr mode =>
                        map (fun row => map (fun _ => mode)
                                          (range (Z.of_nat (List.length row))))
                            (row0 :: rest)
                    | ModeGrid g0 => g0
                    end
               then Raise ValueError
               else Ok (mkChecked (row0 :: rest)
                          (Z.of_nat (List.length (row0 :: rest)))
                          (Z.of_nat (List.length row0))
                          match seed_tiles_mode a with
                          | ModeStr mode =>
                              map (fun row => map (fun _ => mode)
                                                (range (Z.of_nat (List.length row))))
                                  (row0 :: rest)
                          | ModeGrid g0 => g0
                          end
                          match seed_reroll_regions a with Some l => l | None => [] end)).
  { intros row0 rest Hp. unfold validate. rewrite Hp. reflexivity. }
  repeat split.
  - intros s Hp. unfold validate. now rewrite Hp.
  - intros Hp. unfold validate. now rewrite Hp.
  - intros row0 rest row Hp Hin Hlen. rewrite (Hgrid _ _ Hp).
    destruct (forallb _ (row0 :: rest)) eqn:Hall; [|reflexivity].
    rewrite forallb_forall in Hall.
    specialize (Hall row (or_intror Hin)). apply Z.eqb_eq in Hall. lia.
  - intros p row0 rest mode Hp Hm Hfull Hexcl. rewrite (Hgrid _ _ Hp), Hm.
    destruct (forallb _ ((p :: row0) :: rest)); [|reflexivity]. cbn [negb].
    apply String.eqb_neq in Hfull, Hexcl. cbn [SeedTilesMode_value] in Hfull, Hexcl.
    destruct (range_pos (Z.of_nat (List.length (p :: row0)))) as (tl & Htl);
      [cbn [List.length]; lia|].
    cbn [map]. rewrite Htl. cbn [map existsb SeedTilesMode_value].
    rewrite Hfull, Hexcl. reflexivity.
  - intros e. destruct (prompt a) as [s|[|row0 rest]] eqn:Hp.
    + unfold validate. rewrite Hp. intros H. injection H as <-. now left.
    + unfold validate. rewrite Hp. intros H. injection H as <-. right. now split.
    + rewrite (Hgrid _ _ eq_refl).
      destruct (forallb _ _); cbn [negb];
        [|intros H; injection H as <-; now left].
      destruct (existsb _ _); [intros H; injection H as <-; now left | discriminate].
Qed.

(** ** What seeding leaves alone *)

Lemma segment_sub_subinterval (s o s' : Z * Z) :
  fst s <= snd s -> segment_sub s o = Ok s' ->
  fst s <= fst s' /\ fst s' <= snd s' /\ snd s' <= snd s.
Proof.
  destruct s as [lo hi], o as [lo' hi'], s' as [a b]. cbn [fst snd].
  intros Hord. unfold segment_sub, segment_contains. cbn [fst snd].
  destruct ((hi <=? lo') || (hi' <=? lo)) eqn:Hdisjoint.
  - intros H. injection H as <- <-. lia.
  - destruct ((lo' <=? lo) && (hi <=? hi') || (lo <? lo') && (hi' <? hi)) eqn:Hbad;
      [discriminate|].
    destruct (lo <? lo') eqn:Hlt; intros H; injection H as <- <-; lia.
Qed.

(** The region that [_tile2latent_exclusive_indices] returns lies inside
    the tile's inclusive region. *)
Lemma exclusive_within_inclusive
  (tile_row tile_col tile_width tile_height tile_row_overlap tile_col_overlap
   rows columns r0 r1 c0 c1 e0 e1 f0 f1 : Z) :
  _tile2latent_indices tile_row tile_col tile_width tile_height
                       tile_row_overlap tile_col_overlap = (r0, r1, c0, c1) ->
  r0 <= r1 -> c0 <= c1 ->
  _tile2latent_exclusive_indices tile_row tile_col tile_width tile_height
                                 tile_row_overlap tile_col_overlap rows columns =
  Ok (e0, e1, f0, f1) ->
  r0 <= e0 <= e1 /\ e1 <= r1 /\ c0 <= f0 <= f1 /\ f1 <= c1.
Proof.
  intros Hreg Hr Hc. unfold _tile2latent_exclusive_indices. rewrite Hreg.
  rewrite !segment_ordered by assumption. intros H.
  apply bind_ok in H as ([rs cs] & Hloop & H). injection H as <- <- <- <-.
  pose (P := fun acc : (Z * Z) * (Z * Z) =>
               (r0 <= fst (fst acc) /\ fst (fst acc) <= snd (fst acc) /\
                snd (fst acc) <= r1) /\
               (c0 <= fst (snd acc) /\ fst (snd acc) <= snd (snd acc) /\
                snd (snd acc) <= c1)).
  assert (HP : P (rs, cs)).
  { eapply (for_each_preserves P); [| |exact Hloop].
    - unfold P. cbn [fst snd]. lia.
    - intros row acc1 acc2 HP1 _.
      apply (for_each_preserves P); [exact HP1|].
      intros column [rs1 cs1] [rs2 cs2] HP3 _.
      destruct (negb (row =? tile_row) && negb (column =? tile_col));
        [|intros H; injection H as <- <-; exact HP3].
      destruct (_tile2latent_indices row column tile_width tile_height
                  tile_row_overlap tile_col_overlap) as [[[k0 k1] k2] k3].
      intros H. apply bind_ok in H as (rs' & Hrs & H).
      apply bind_ok in H as (cs' & Hcs & H). injection H as <- <-.
      unfold P in *. cbn [fst snd] in *.
      apply segment_sub_subinterval in Hrs; [|lia].
      apply segment_sub_subinterval in Hcs; [|lia]. lia. }
  unfold P in HP. cbn [fst snd] in HP. lia.
Qed.

Section SeedingFrame.

Variable in_channels : Z.
Variable noise : Z -> shape -> Z -> Z -> Z -> Z -> R.
Variable a : call_args.
Variable v : checked_args.

Hypothesis height_nonneg : 0 <= tile_height a.
Hypothesis width_nonneg : 0 <= tile_width a.
Hypothesis row_overlap_le : tile_row_overlap a <= tile_height a.
Hypothesis col_overlap_le : tile_col_overlap a <= tile_width a.

Lemma seed_tile_body_frame (seed_tiles : list (list (option Z))) (row col : Z)
  (latents latents' : Tensor) (n k i j : Z) :
  0 <= row < grid_rows v -> 0 <= col < grid_cols v ->
  tshape latents = latents_shape in_channels a v ->
  seed_tile_body in_channels noise a v seed_tiles row col latents = Ok latents' ->
  (forall s, getitem2 seed_tiles row col = Ok (Some s) ->
             tile_covers a row col i j = false) ->
  elem latents' n k i j = elem latents n k i j.
Proof.
  intros Hrow Hcol Hsh Hrun Hcov. unfold seed_tile_body in Hrun.
  apply bind_ok in Hrun as (st & Hst & Hrun).
  destruct st as [s|]; [|now injection Hrun as <-].
  specialize (Hcov s Hst). unfold tile_covers in Hcov.
  apply bind_ok in Hrun as (mode & _ & Hrun).
  apply bind_ok in Hrun as ([[[e0 e1] f0] f1] & Hreg & Hrun).
  apply bind_ok in Hrun as (tile & _ & Hset).
  apply update_hw_ok in Hset as (_ & _ & Hel). rewrite Hel, Hsh. clear Hel.
  destruct (_tile2latent_indices row col (tile_width a) (tile_height a)
              (tile_row_overlap a) (tile_col_overlap a))
    as [[[r0 r1] c0] c1] eqn:Hincl.
  assert (Hin : (0 <= r0 <= r1 /\ r1 <= dim_h (latents_shape in_channels a v)) /\
                (0 <= c0 <= c1 /\ c1 <= dim_w (latents_shape in_channels a v))).
  { rewrite tile2latent_indices_eq in Hincl. injection Hincl as <- <- <- <-.
    unfold latents_shape. cbn [dim_h dim_w].
    destruct (axis_in_canvas (tile_height a) (tile_row_overlap a) (grid_rows v) row
                Hrow height_nonneg row_overlap_le) as (H1 & H2 & _).
    destruct (axis_in_canvas (tile_width a) (tile_col_overlap a) (grid_cols v) col
                Hcol width_nonneg col_overlap_le) as (H3 & H4 & _).
    lia. }
  assert (Hsub : r0 <= e0 <= e1 /\ e1 <= r1 /\ c0 <= f0 <= f1 /\ f1 <= c1).
  { destruct (String.eqb mode (SeedTilesMode_value FULL)).
    - injection Hreg as <- <- <- <-. lia.
    - eapply exclusive_within_inclusive; [exact Hincl | lia | lia | exact Hreg]. }
  unfold in_slice. rewrite !slice_bound_in_range by lia.
  unfold in_rect in Hcov.
  replace ((e0 <=? i) && (i <? e1) && ((f0 <=? j) && (j <? f1))) with false by lia.
  reflexivity.
Qed.

Lemma seed_tiles_loop_frame (latents latents' : Tensor) (n k i j : Z) :
  tshape latents = latents_shape in_channels a v ->
  seed_tiles_loop in_channels noise a v latents = Ok latents' ->
  (forall g row col s,
      seed_tiles a = Some g ->
      0 <= row < grid_rows v -> 0 <= col < grid_cols v ->
      getitem2 g row col = Ok (Some s) -> tile_covers a row col i j = false) ->
  elem latents' n k i j = elem latents n k i j.
Proof.
  intros Hsh Hrun Hcov. unfold seed_tiles_loop in Hrun.
  destruct (seed_tiles a) as [g|]; [|now injection Hrun as <-].
  pose (P := fun t : Tensor =>
               tshape t = latents_shape in_channels a v /\
               elem t n k i j = elem latents n k i j).
  assert (HP : P latents') ; [|now destruct HP].
  eapply (for_each_preserves P); [| |exact Hrun].
  - now split.
  - intros row t1 t2 HP1 Hrow. apply in_range in Hrow.
    apply (for_each_preserves P); [exact HP1|].
    intros col t3 t4 (Hsh3 & Hel3) Hcol Hbody. apply in_range in Hcol. split.
    + apply seed_tile_body_shape in Hbody. congruence.
    + rewrite <- Hel3.
      apply (seed_tile_body_frame g row col t3 t4); try assumption.
      intros s Hs. now apply (Hcov g row col s).
Qed.

(** X8.  Seeding writes nowhere else.  In a grid whose overlaps do not
    exceed the tile sizes, when the canvas latent is built, an entry that
    lies in the inclusive region of no seeded tile and in the slice of no
    reroll region holds the draw of the canvas-wide seed. *)
Theorem seeding_leaves_other_entries (latents : Tensor) (n k i j : Z) :
  initial_latents in_channels noise a v = Ok latents ->
  (forall g row col s,
      seed_tiles a = Some g ->
      0 <= row < grid_rows v -> 0 <= col < grid_cols v ->
      getitem2 g row col = Ok (Some s) -> tile_covers a row col i j = false) ->
  forallb (fun r => negb (slice_covers in_channels a v r i j)) (reroll_regions v) = true ->
  elem latents n k i j =
  noise (seed a) (latents_shape in_channels a v) n k i j.
Proof.
  intros Hrun Htiles Hrerolls. unfold initial_latents, reroll_loop in Hrun.
  apply bind_ok in Hrun as (l0 & H0 & Hrun).
  apply bind_ok in Hrun as (l1 & H1 & H2).
  apply torch_randn_ok in H0 as (-> & _).
  assert (Hsh1 : tshape l1 = latents_shape in_channels a v)
    by (apply seed_tiles_loop_shape in H1; exact H1).
  rewrite (reroll_loop_untouched in_channels noise a v _ l1 latents Hsh1 H2 n k i j
             Hrerolls).
  now rewrite (seed_tiles_loop_frame
                 (mkTensor (latents_shape in_channels a v)
                           (noise (seed a) (latents_shape in_channels a v)))
                 l1 n k i j eq_refl H1 Htiles).
Qed.

End SeedingFrame.

Lemma seeding_leaves_other_entries_witness :
  exists latents,
    initial_latents 4 example_noise one_seeded_tile_args one_seeded_tile_checked =
    Ok latents /\
    elem latents 0 0 1 2 =
    example_noise (seed one_seeded_tile_args)
                  (latents_shape 4 one_seeded_tile_args one_seeded_tile_checked) 0 0 1 2.
Proof.
  eexists. split; [reflexivity|].
  apply (seeding_leaves_other_entries 4 example_noise one_seeded_tile_args
           one_seeded_tile_checked).
  - simpl. lia.
  - simpl. lia.
  - simpl. lia.
  - simpl. lia.
  - reflexivity.
  - intros g row col s Hg Hrow Hcol Hs. injection Hg as <-.
    simpl in Hrow, Hcol. assert (row = 0) as -> by lia.
    assert (col = 0 \/ col = 1) as [-> | ->] by lia; [reflexivity | discriminate Hs].
  - reflexivity.
Defined.

Section MissingSeed.

Variable in_channels : Z.
Variable noise : Z -> shape -> Z -> Z -> Z -> Z -> R.
Variable Emb : Type.
Variable text_encoder : string -> Emb.
Variable emb_cat : Emb -> Emb -> Emb.
Variable unet : Tensor -> Z -> Emb -> Z -> Z -> Z -> Z -> R.
Variable scheduler_timesteps : Z -> list Z.
Variable lms_sigmas : option (Z -> R).
Variable scheduler_step : Tensor -> Z -> Tensor -> Tensor.
Variable Image : Type.
Variable decode_latents : Tensor -> bool -> Image.

(** X9.  A seed grid that has no entry for some tile of the prompt grid
    (too few rows, or a row too short) ends the run while the canvas
    latent is built: the run raises with no network call made. *)
Theorem missing_seed_entry_fails_fast (a : call_args) (v : checked_args)
  (g : list (list (option Z))) (row col : Z) (e' : exn) :
  validate a = Ok v -> seed_tiles a = Some g ->
  0 <= row < grid_rows v -> 0 <= col < grid_cols v ->
  getitem2 g row col = Raise e' ->
  exists e,
    __call__ in_channels noise Emb text_encoder emb_cat unet scheduler_timesteps
             lms_sigmas scheduler_step Image decode_latents a = ([], Raise e).
Proof.
  intros Hv Hg Hrow Hcol Hmiss.
  assert (He : exists e, initial_latents in_channels noise a v = Raise e).
  { unfold initial_latents.
    destruct (torch_randn noise _ (seed a)) as [l0|e]; [|now exists e].
    cbn [bind]. unfold seed_tiles_loop. rewrite Hg.
    destruct (for_each_raises (fun _ : Tensor => True)
                (fun row => for_each (range (grid_cols v))
                              (fun col => seed_tile_body in_channels noise a v g row col))
                row (range (grid_rows v))) with (s := l0) as (e & He);
      [now apply in_range | | auto | exact I | ].
    - intros s _.
      apply (for_each_raises (fun _ : Tensor => True) _ col);
        [now apply in_range | | auto | exact I].
      intros s' _. exists e'. unfold seed_tile_body. now rewrite Hmiss.
    - exists e. now rewrite He. }
  destruct He as (e & He). exists e.
  apply failures_before_networks. right. now exists v.
Qed.

End MissingSeed.

Lemma missing_seed_entry_fails_fast_witness :
  exists e,
    __call__ 4 example_noise unit (fun _ => tt) (fun _ _ => tt)
             (fun x _ _ => elem x) (fun _ => [1]) None (fun _ _ latents => latents)
             Tensor (fun latents _ => latents)
             (example_args [["a"; "b"]]%string 8 (Some [[Some 5]]) None) =
    ([], Raise e).
Proof.
  apply (missing_seed_entry_fails_fast 4 example_noise unit (fun _ => tt) (fun _ _ => tt)
           (fun x _ _ => elem x) (fun _ => [1]) None (fun _ _ latents => latents)
           Tensor (fun latents _ => latents)
           (example_args [["a"; "b"]]%string 8 (Some [[Some 5]]) None)
           checked_1x2 [[Some 5]] 0 1 IndexError); try reflexivity; simpl; lia.
Defined.

(** ** The shape of the blend mask *)

Lemma gaussian_weights_symmetric_x_witness :
  elem (_gaussian_weights 4 32 16 1) 0 0 1 0 =
  elem (_gaussian_weights 4 32 16 1) 0 0 1 (32 / 8 - 1 - 0).
Proof.
  apply (gaussian_weights_symmetric_x 4 32 16 1 0 0 1 0);
    split; (apply Z.leb_le || apply Z.ltb_lt); reflexivity.
Defined.

(** X10.  For non-negative tile sizes the blend mask has the shape
    [(nbatches, in_channels, tile_height // 8, tile_width // 8)], every
    entry of it is strictly positive, and the entry at (y, x) is the same
    in every batch and channel. *)
Theorem gaussian_mask_positive
  (in_channels tile_width tile_height nbatches : Z) :
  0 <= tile_width -> 0 <= tile_height ->
  tshape (_gaussian_weights in_channels tile_width tile_height nbatches) =
  mkShape nbatches in_channels (tile_height / 8) (tile_width / 8) /\
  forall n k y x,
    0 <= y < tile_height / 8 -> 0 <= x < tile_width / 8 ->
    (0 < elem (_gaussian_weights in_channels tile_width tile_height nbatches) n k y x)%R /\
    elem (_gaussian_weights in_channels tile_width tile_height nbatches) n k y x =
    elem (_gaussian_weights in_channels tile_width tile_height nbatches) 0 0 y x.
Proof.
  intros Hw Hh. split; [now apply gaussian_weights_shape|].
  intros n k y x Hy Hx. split; [now apply gaussian_weights_pos|].
  now rewrite !gaussian_weights_elem.
Qed.

Lemma gaussian_mask_positive_witness :
  tshape (_gaussian_weights 4 16 24 1) = mkShape 1 4 (24 / 8) (16 / 8) /\
  forall n k y x,
    0 <= y < 24 / 8 -> 0 <= x < 16 / 8 ->
    (0 < elem (_gaussian_weights 4 16 24 1) n k y x)%R /\
    elem (_gaussian_weights 4 16 24 1) n k y x =
    elem (_gaussian_weights 4 16 24 1) 0 0 y x.
Proof.
  apply (gaussian_mask_positive 4 16 24 1); lia.
Defined.

Lemma gaussian_prob_closer (n : Z) (midpoint : R) (u u' : Z) :
  0 < n ->
  ((IZR u - midpoint) * (IZR u - midpoint) <
   (IZR u' - midpoint) * (IZR u' - midpoint))%R ->
  (gaussian_prob n midpoint u' < gaussian_prob n midpoint u)%R.
Proof.
  intros Hn Hlt. unfold gaussian_prob. apply Rmult_lt_compat_r.
  { apply Rinv_0_lt_compat, sqrt_lt_R0. unfold var. assert (HPI := PI_RGT_0). nra. }
  apply exp_increasing.
  assert (Hn' : (0 < IZR n)%R) by (now apply IZR_lt).
  unfold var, Rdiv.
  apply Rmult_lt_compat_r; [lra|].
  apply Rmult_lt_compat_r; [apply Rinv_0_lt_compat; nra|].
  lra.
Qed.

(** X12.  The mask grows towards the centre of its profiles: of two
    columns, the one closer to [(latent_width - 1) / 2] weighs strictly
    more in every row, and of two rows, the one closer to
    [latent_height / 2] weighs strictly more in every column (distances
    compared doubled, to stay in the integers). *)
Theorem gaussian_mask_closer_is_heavier
  (in_channels tile_width tile_height nbatches n k y x y' x' : Z) :
  0 <= y < tile_height / 8 -> 0 <= x < tile_width / 8 ->
  0 <= y' < tile_height / 8 -> 0 <= x' < tile_width / 8 ->
  (Z.abs (2 * x - (tile_width / 8 - 1)) < Z.abs (2 * x' - (tile_width / 8 - 1)) ->
   (elem (_gaussian_weights in_channels tile_width tile_height nbatches) n k y x' <
    elem (_gaussian_weights in_channels tile_width tile_height nbatches) n k y x)%R) /\
  (Z.abs (2 * y - tile_height / 8) < Z.abs (2 * y' - tile_height / 8) ->
   (elem (_gaussian_weights in_channels tile_width tile_height nbatches) n k y' x <
    elem (_gaussian_weights in_channels tile_width tile_height nbatches) n k y x)%R).
Proof.
  intros Hy Hx Hy' Hx'. rewrite !gaussian_weights_elem by assumption. split.
  - intros Hd. apply Rmult_lt_compat_l; [apply gaussian_prob_pos|].
    apply gaussian_prob_closer; [lia|].
    assert (Hsq : (2 * x - (tile_width / 8 - 1)) * (2 * x - (tile_width / 8 - 1)) <
                  (2 * x' - (tile_width / 8 - 1)) * (2 * x' - (tile_width / 8 - 1)))
      by nia.
    apply IZR_lt in Hsq. rewrite !mult_IZR, !minus_IZR, !mult_IZR in Hsq.
    simpl IZR in Hsq. nra.
  - intros Hd. apply Rmult_lt_compat_r; [apply gaussian_prob_pos|].
    apply gaussian_prob_closer; [lia|].
    assert (Hsq : (2 * y - tile_height / 8) * (2 * y - tile_height / 8) <
                  (2 * y' - tile_height / 8) * (2 * y' - tile_height / 8))
      by nia.
    apply IZR_lt in Hsq. rewrite !mult_IZR, !minus_IZR, !mult_IZR in Hsq.
    simpl IZR in Hsq. nra.
Qed.

Lemma gaussian_mask_closer_is_heavier_witness :
  (Z.abs (2 * 1 - (32 / 8 - 1)) < Z.abs (2 * 0 - (32 / 8 - 1)) ->
   (elem (_gaussian_weights 4 32 32 1) 0 0 2 0 <
    elem (_gaussian_weights 4 32 32 1) 0 0 2 1)%R) /\
  (Z.abs (2 * 2 - 32 / 8) < Z.abs (2 * 1 - 32 / 8) ->
   (elem (_gaussian_weights 4 32 32 1) 0 0 1 1 <
    elem (_gaussian_weights 4 32 32 1) 0 0 2 1)%R).
Proof.
  apply (gaussian_mask_closer_is_heavier 4 32 32 1 0 0 2 1 1 0);
    split; (apply Z.leb_le || apply Z.ltb_lt); reflexivity.
Defined.

(** ** Text embeddings *)

Lemma validate_rectangular (a : call_args) (v : checked_args) :
  validate a = Ok v ->
  1 <= grid_rows v /\ grid_rows v = Z.of_nat (List.length (prompt_grid v)) /\
  Forall (fun row => Z.of_nat (List.length row) = grid_cols v) (prompt_grid v).
Proof.
  unfold validate. destruct (prompt a) as [s|g]; [discriminate|].
  intros H. apply bind_ok in H as (row0 & Hrow0 & H).
  destruct (forallb _ g) eqn:Hrect; [|discriminate]. cbn [negb] in H.
  destruct (existsb _ _); [discriminate|].
  injection H as <-. cbn [prompt_grid grid_rows grid_cols].
  apply getitem_zero_ok in Hrow0 as (tl & Hg).
  split; [subst g; cbn [List.length]; lia|]. split; [reflexivity|].
  apply Forall_forall. intros row Hin.
  rewrite forallb_forall in Hrect. apply Z.eqb_eq. now apply Hrect.
Qed.

Lemma getitem_middle {A : Type} (pre post : list A) (x : A) :
  getitem (pre ++ x :: post) (Z.of_nat (List.length pre)) = Ok x.
Proof.
  apply getitem_nth_error; [apply Nat2Z.is_nonneg|].
  rewrite Nat2Z.id, nth_error_app2 by apply Nat.le_refl. now rewrite Nat.sub_diag.
Qed.

Lemma list_set_middle {A : Type} (pre post : list A) (x y : A) :
  list_set (pre ++ x :: post) (List.length pre) y = Some (pre ++ y :: post).
Proof.
  induction pre as [|z pre IH]; [reflexivity|].
  cbn [app List.length list_set]. now rewrite IH.
Qed.

Lemma setitem_middle {A : Type} (pre post : list A) (x y : A) :
  setitem (pre ++ x :: post) (Z.of_nat (List.length pre)) y = Ok (pre ++ y :: post).
Proof.
  unfold setitem. cbv zeta.
  assert (Hneg : (Z.of_nat (List.length pre) <? 0) = false)
    by (apply Z.ltb_ge, Nat2Z.is_nonneg).
  now rewrite !Hneg, Nat2Z.id, list_set_middle.
Qed.

Lemma getitem2_middle {A : Type} (pre post : list (list A)) (done todo : list A) (x : A) :
  getitem2 (pre ++ (done ++ x :: todo) :: post)
           (Z.of_nat (List.length pre)) (Z.of_nat (List.length done)) = Ok x.
Proof.
  unfold getitem2. rewrite getitem_middle. cbn [bind]. apply getitem_middle.
Qed.

Lemma setitem2_middle {A : Type} (pre post : list (list A)) (done todo : list A)
  (x y : A) :
  setitem2 (pre ++ (done ++ x :: todo) :: post)
           (Z.of_nat (List.length pre)) (Z.of_nat (List.length done)) y =
  Ok (pre ++ (done ++ y :: todo) :: post).
Proof.
  unfold setitem2. rewrite getitem_middle. cbn [bind].
  rewrite setitem_middle. cbn [bind]. apply setitem_middle.
Qed.

Section TextEmbeddings.

Variable Emb : Type.
Variable text_encoder : string -> Emb.
Variable emb_cat : Emb -> Emb -> Emb.

Lemma tmap_encode_row (row : list string) :
  tmap (encode Emb text_encoder) row =
  (map TextEncoderCall row, Ok (map text_encoder row)).
Proof.
  induction row as [|p row IH]; [reflexivity|].
  cbn [tmap]. rewrite IH. unfold encode, emit, tret. cbn [tbind app map].
  now rewrite app_nil_r.
Qed.

Lemma tmap_encode_grid (g : list (list string)) :
  tmap (fun row => tmap (encode Emb text_encoder) row) g =
  (map TextEncoderCall (List.concat g), Ok (map (map text_encoder) g)).
Proof.
  induction g as [|row g IH]; [reflexivity|].
  cbn [tmap]. rewrite tmap_encode_row, IH.
  cbn [tbind tret List.concat map app]. now rewrite app_nil_r, map_app.
Qed.

(** The loop of lines 160-170 over the columns of row [length pre], from
    column [length done] on. *)
Lemma pair_row_loop (pre post : list (list Emb)) (todo done : list Emb) :
  tfor_each (map Z.of_nat (seq (List.length done) (List.length todo)))
    (fun j text_embeddings =>
       uncond_embeddings <-- encode Emb text_encoder "" ;;
       e <-- tlift (getitem2 text_embeddings (Z.of_nat (List.length pre)) j) ;;
       tlift (setitem2 text_embeddings (Z.of_nat (List.length pre)) j
                       (emb_cat uncond_embeddings e)))
    (pre ++ (done ++ todo) :: post) =
  (repeat (TextEncoderCall "") (List.length todo),
   Ok (pre ++ (done ++ map (emb_cat (text_encoder "")) todo) :: post)).
Proof.
  revert done. induction todo as [|x todo IH]; intros done; [reflexivity|].
  cbn [List.length seq map tfor_each].
  unfold encode at 1, emit. cbn [tbind tret].
  rewrite getitem2_middle, tbind_tlift_ok, setitem2_middle.
  unfold tlift. rewrite tbind_pair_ok.
  replace (done ++ emb_cat (text_encoder "") x :: todo)
    with ((done ++ [emb_cat (text_encoder "") x]) ++ todo)
    by (now rewrite <- app_assoc).
  replace (S (List.length done))
    with (List.length (done ++ [emb_cat (text_encoder "") x]))
    by (rewrite length_app; cbn [List.length]; lia).
  rewrite IH. cbn [fst snd app repeat]. now rewrite <- app_assoc.
Qed.

Lemma pair_grid_loop (cols : Z) (todo done : list (list Emb)) :
  Forall (fun row => Z.of_nat (List.length row) = cols) todo ->
  tfor_each (map Z.of_nat (seq (List.length done) (List.length todo)))
    (fun i =>
       tfor_each (range cols) (fun j text_embeddings =>
         uncond_embeddings <-- encode Emb text_encoder "" ;;
         e <-- tlift (getitem2 text_embeddings i j) ;;
         tlift (setitem2 text_embeddings i j (emb_cat uncond_embeddings e))))
    (done ++ todo) =
  (repeat (TextEncoderCall "") (List.length (List.concat todo)),
   Ok (done ++ map (map (emb_cat (text_encoder ""))) todo)).
Proof.
  intros Hrect. revert done.
  induction Hrect as [|row todo Hrow Hrect IH]; intros done; [reflexivity|].
  cbn [List.length seq map tfor_each].
  pose proof (pair_row_loop done todo row []) as Hloop.
  cbn [List.length app] in Hloop.
  assert (Hr : map Z.of_nat (seq 0 (List.length row)) = range cols)
    by (unfold range; now rewrite <- Hrow, Nat2Z.id).
  rewrite Hr in Hloop. rewrite Hloop, tbind_pair_ok.
  replace (done ++ map (emb_cat (text_encoder "")) row :: todo)
    with ((done ++ [map (emb_cat (text_encoder "")) row]) ++ todo)
    by (now rewrite <- app_assoc).
  replace (S (List.length done))
    with (List.length (done ++ [map (emb_cat (text_encoder "")) row]))
    by (rewrite length_app; cbn [List.length]; lia).
  rewrite IH. cbn [fst snd List.concat]. rewrite length_app, repeat_app.
  now rewrite <- app_assoc.
Qed.

(** Lines 131-170 on a rectangular grid. *)
Lemma text_embeddings_run (a : call_args) (v : checked_args) :
  grid_rows v = Z.of_nat (List.length (prompt_grid v)) ->
  Forall (fun row => Z.of_nat (List.length row) = grid_cols v) (prompt_grid v) ->
  text_embeddings Emb text_encoder emb_cat a v =
  (map TextEncoderCall (List.concat (prompt_grid v)) ++
   (if do_classifier_free_guidance a
    then repeat (TextEncoderCall "") (List.length (List.concat (prompt_grid v)))
    else []),
   Ok (map (map (fun p => if do_classifier_free_guidance a
                          then emb_cat (text_encoder "") (text_encoder p)
                          else text_encoder p))
           (prompt_grid v))).
Proof.
  intros Hrows Hrect.
  unfold text_embeddings. rewrite tmap_encode_grid, tbind_pair_ok.
  destruct (do_classifier_free_guidance a).
  - assert (Hr : range (grid_rows v) =
                 map Z.of_nat (seq 0 (List.length (prompt_grid v))))
      by (unfold range; now rewrite Hrows, Nat2Z.id).
    rewrite Hr.
    pose proof (pair_grid_loop (grid_cols v) (map (map text_encoder) (prompt_grid v)) [])
      as Hloop.
    cbn [List.length app] in Hloop. rewrite length_map in Hloop.
    rewrite Hloop.
    + cbn [fst snd]. f_equal.
      * f_equal. f_equal. clear. induction (prompt_grid v) as [|row g IH]; [reflexivity|].
        cbn [map List.concat]. now rewrite !length_app, length_map, IH.
      * f_equal. rewrite map_map. apply map_ext. intros row. apply map_map.
    + rewrite Forall_forall in *. intros row Hin. apply in_map_iff in Hin as (r & <- & Hin').
      rewrite length_map. now apply Hrect.
  - cbn [tret fst snd]. now rewrite app_nil_r.
Qed.

(** X13.  Once the argument checks have passed, the prompt of every tile
    is encoded exactly once, in row-major order.  Without guidance the
    embedding of tile (row, col) is that of its prompt.  With guidance
    the empty prompt is encoded after all the prompts, once more for
    every tile, and the embedding of each tile is the concatenation of
    the empty prompt's embedding and the prompt's. *)
Theorem text_embeddings_per_tile (a : call_args) (v : checked_args) :
  validate a = Ok v ->
  text_embeddings Emb text_encoder emb_cat a v =
  (map TextEncoderCall (List.concat (prompt_grid v)) ++
   (if do_classifier_free_guidance a
    then repeat (TextEncoderCall "") (List.length (List.concat (prompt_grid v)))
    else []),
   Ok (map (map (fun p => if do_classifier_free_guidance a
                          then emb_cat (text_encoder "") (text_encoder p)
                          else text_encoder p))
           (prompt_grid v))).
Proof.
  intros Hv. destruct (validate_rectangular a v Hv) as (_ & Hrows & Hrect).
  now apply text_embeddings_run.
Qed.

End TextEmbeddings.

Lemma text_embeddings_per_tile_witness :
  text_embeddings string (fun p => p) String.append guided_example_args checked_1x2 =
  (map TextEncoderCall (List.concat (prompt_grid checked_1x2)) ++
   (if do_classifier_free_guidance guided_example_args
    then repeat (TextEncoderCall "") (List.length (List.concat (prompt_grid checked_1x2)))
    else []),
   Ok (map (map (fun p => if do_classifier_free_guidance guided_example_args
                          then String.append "" p else p))
           (prompt_grid checked_1x2))).
Proof.
  apply (text_embeddings_per_tile string (fun p => p) String.append
           guided_example_args checked_1x2).
  reflexivity.
Defined.

(** ** Stitching *)

Lemma for_each_total_ind {A S : Type} (P : list A -> S -> Prop)
  (body : A -> S -> result S) (xs : list A) :
  (forall pre x s, In x xs -> P pre s -> exists s', body x s = Ok s' /\ P (pre ++ [x]) s') ->
  forall pre s, P pre s -> exists s', for_each xs body s = Ok s' /\ P (pre ++ xs) s'.
Proof.
  induction xs as [|x xs IH]; intros Hbody pre s HP.
  - exists s. rewrite app_nil_r. now split.
  - destruct (Hbody pre x s (or_introl eq_refl) HP) as (s1 & H1 & HP1).
    destruct (IH (fun pre' y s' Hin => Hbody pre' y s' (or_intror Hin)) (pre ++ [x]) s1 HP1)
      as (s2 & H2 & HP2).
    exists s2. cbn [for_each]. rewrite H1. cbn [bind].
    rewrite <- app_assoc in HP2. now split.
Qed.

Lemma in_grid_tiles (rows columns row col : Z) :
  In (row, col) (grid_tiles rows columns) <-> 0 <= row < rows /\ 0 <= col < columns.
Proof.
  unfold grid_tiles. rewrite in_flat_map. split.
  - intros (r & Hr & Hin). apply in_map_iff in Hin as (c & Heq & Hc).
    injection Heq as -> ->. now rewrite <- !in_range.
  - intros (Hr & Hc). exists row. split; [now apply in_range|].
    apply in_map. now apply in_range.
Qed.

Lemma for_each_grid_tiles {S : Type} (rows columns : Z) (body : Z -> Z -> S -> result S)
  (s : S) :
  for_each (range rows) (fun row => for_each (range columns) (body row)) s =
  for_each (grid_tiles rows columns) (fun tile => body (fst tile) (snd tile)) s.
Proof.
  unfold grid_tiles. rewrite for_each_flat_map. apply for_each_ext.
  intros row s' _. now rewrite for_each_map.
Qed.

Lemma Rsum_app (xs ys : list R) : Rsum (xs ++ ys) = (Rsum xs + Rsum ys)%R.
Proof.
  unfold Rsum. induction xs as [|x xs IH]; simpl; [lra | rewrite IH; lra].
Qed.

Lemma Rsum_snoc {A : Type} (f : A -> R) (xs : list A) (x : A) :
  Rsum (map f (xs ++ [x])) = (Rsum (map f xs) + f x)%R.
Proof. rewrite map_app, Rsum_app. unfold Rsum. simpl. lra. Qed.

Section StitchedSums.

Variable in_channels : Z.
Variable a : call_args.
Variable v : checked_args.
Variable tile_weights : Tensor.
Variable latents : Tensor.
Variable noise_preds : list (list Tensor).

Let canvas := latents_shape in_channels a v.

Variables hh ww : Z.

Hypothesis latents_canvas : tshape latents = canvas.
Hypothesis weights_shape : tshape tile_weights = mkShape 1 in_channels hh ww.
Hypothesis size_nonneg : 0 <= hh /\ 0 <= ww.
Hypothesis tiles_fit :
  forall row col,
    0 <= row < grid_rows v -> 0 <= col < grid_cols v ->
    tile_fits in_channels a v hh ww row col.
Hypothesis preds_shape :
  forall row col,
    0 <= row < grid_rows v -> 0 <= col < grid_cols v ->
    exists p, getitem2 noise_preds row col = Ok p /\ tshape p = tshape tile_weights.

Lemma stitch_tile_sums (row col : Z) (np ct : Tensor) :
  0 <= row < grid_rows v -> 0 <= col < grid_cols v ->
  tshape np = canvas -> tshape ct = canvas ->
  exists np' ct',
    stitch_tile a tile_weights noise_preds row col (np, ct) = Ok (np', ct') /\
    tshape np' = canvas /\ tshape ct' = canvas /\
    forall n k i j,
      in_shape canvas n k i j ->
      elem np' n k i j =
      (elem np n k i j + pred_share a tile_weights noise_preds n k i j (row, col))%R /\
      elem ct' n k i j =
      (elem ct n k i j + weight_share a tile_weights n k i j (row, col))%R.
Proof.
  intros Hrow Hcol Hnp Hct.
  destruct (preds_shape row col Hrow Hcol) as (p & Hp & Hps).
  pose proof (tiles_fit row col Hrow Hcol) as Hfit.
  unfold stitch_tile, tile_fits, pred_share, weight_share in *. fold canvas in Hfit.
  cbn [fst snd].
  destruct (_tile2latent_indices row col (tile_width a) (tile_height a)
              (tile_row_overlap a) (tile_col_overlap a)) as [[[r0 r1] c0] c1].
  destruct Hfit as (Hr0 & Hr1 & HrH & Hc0 & Hc1 & HcW).
  destruct size_nonneg as (Hhh & Hww).
  rewrite Hp. cbn [bind].
  destruct (tensor_binop_same_shape Rmult p tile_weights Hps) as (wt & Hwt & Hwts & Hwte).
  unfold tensor_mul. rewrite Hwt. cbn [bind].
  destruct (update_hw_in_range Rplus np r0 r1 c0 c1 wt) as (np2 & Hnp2 & Hnp2s & Hnp2e);
    try lia; try (rewrite Hnp; fold canvas; lia).
  { rewrite Hwts, Hps, weights_shape, Hnp. cbn [dim_b dim_c canvas latents_shape].
    unfold batch_size. f_equal; lia. }
  destruct (update_hw_in_range Rplus ct r0 r1 c0 c1 tile_weights)
    as (ct2 & Hct2 & Hct2s & Hct2e); try lia; try (rewrite Hct; fold canvas; lia).
  { rewrite weights_shape, Hct. cbn [dim_b dim_c canvas latents_shape].
    unfold batch_size. f_equal; lia. }
  unfold iadd_hw. rewrite Hnp2. cbn [bind]. rewrite Hct2. cbn [bind].
  exists np2, ct2. split; [reflexivity|].
  split; [congruence|]. split; [congruence|].
  intros n k i j (Hn & Hk & Hi & Hj).
  rewrite Hnp2e, Hct2e by (rewrite ?Hnp, ?Hct; assumption).
  unfold in_rect.
  destruct ((r0 <=? i) && (i <? r1) && ((c0 <=? j) && (j <? c1))) eqn:Hin;
    [|split; lra].
  split; [|reflexivity]. rewrite Hwte; [reflexivity|].
  rewrite Hps, weights_shape. unfold in_shape. cbn [dim_b dim_c dim_h dim_w].
  cbn [dim_b dim_c canvas latents_shape] in Hn, Hk. unfold batch_size in Hn.
  rewrite !andb_true_iff, !Z.leb_le, !Z.ltb_lt in Hin. lia.
Qed.

(** Both buffers of the stitching loop, entry by entry: the sums of the
    tiles' shares, in row-major order. *)
Lemma accumulate_sums :
  exists np ct,
    accumulate a v tile_weights latents noise_preds = Ok (np, ct) /\
    tshape np = canvas /\ tshape ct = canvas /\
    forall n k i j,
      in_shape canvas n k i j ->
      elem np n k i j =
      Rsum (map (pred_share a tile_weights noise_preds n k i j)
                (grid_tiles (grid_rows v) (grid_cols v))) /\
      elem ct n k i j =
      Rsum (map (weight_share a tile_weights n k i j)
                (grid_tiles (grid_rows v) (grid_cols v))).
Proof.
  unfold accumulate. rewrite for_each_grid_tiles.
  pose (P := fun (pre : list (Z * Z)) (acc : Tensor * Tensor) =>
               tshape (fst acc) = canvas /\ tshape (snd acc) = canvas /\
               forall n k i j,
                 in_shape canvas n k i j ->
                 elem (fst acc) n k i j =
                 Rsum (map (pred_share a tile_weights noise_preds n k i j) pre) /\
                 elem (snd acc) n k i j =
                 Rsum (map (weight_share a tile_weights n k i j) pre)).
  destruct (for_each_total_ind P
              (fun tile => stitch_tile a tile_weights noise_preds (fst tile) (snd tile))
              (grid_tiles (grid_rows v) (grid_cols v)))
    with (pre := @nil (Z * Z))
         (s := (torch_zeros (tshape latents), torch_zeros (tshape latents)))
    as ([np ct] & Hrun & Hnp & Hct & Hel).
  - intros pre [row col] [np ct] Hin (Hnp & Hct & Hel).
    apply in_grid_tiles in Hin as (Hrow & Hcol). cbn [fst snd] in *.
    destruct (stitch_tile_sums row col np ct Hrow Hcol Hnp Hct)
      as (np' & ct' & Hrun & Hnp' & Hct' & Hel').
    exists (np', ct'). split; [exact Hrun|]. split; [exact Hnp'|]. split; [exact Hct'|].
    intros n k i j Hidx. cbn [fst snd]. rewrite !Rsum_snoc.
    destruct (Hel n k i j Hidx) as (<- & <-). exact (Hel' n k i j Hidx).
  - split; [exact latents_canvas|]. split; [exact latents_canvas|].
    intros n k i j _. now split.
  - exists np, ct. split; [exact Hrun|]. split; [exact Hnp|]. split; [exact Hct|].
    exact Hel.
Qed.

End StitchedSums.

Section StitchedMean.

Variable in_channels : Z.
Variable a : call_args.
Variable v : checked_args.
Variable latents : Tensor.
Variable noise_preds : list (list Tensor).

Let tile_weights :=
  _gaussian_weights in_channels (tile_width a) (tile_height a) batch_size.
Let tiles := grid_tiles (grid_rows v) (grid_cols v).

Hypothesis rows_pos : 1 <= grid_rows v.
Hypothesis cols_pos : 1 <= grid_cols v.
Hypothesis height_8 : tile_height a mod 8 = 0.
Hypothesis width_8 : tile_width a mod 8 = 0.
Hypothesis row_overlap_8 : tile_row_overlap a mod 8 = 0.
Hypothesis col_overlap_8 : tile_col_overlap a mod 8 = 0.
Hypothesis row_overlap_range : 0 <= tile_row_overlap a < tile_height a.
Hypothesis col_overlap_range : 0 <= tile_col_overlap a < tile_width a.
Hypothesis latents_canvas : tshape latents = latents_shape in_channels a v.
Hypothesis preds_shape :
  forall row col,
    0 <= row < grid_rows v -> 0 <= col < grid_cols v ->
    exists p, getitem2 noise_preds row col = Ok p /\
              tshape p = mkShape 1 in_channels (tile_height a / 8) (tile_width a / 8).

(** The stitching loop followed by the division: both run, and every
    entry of the result is the quotient of the two sums of shares. *)
Lemma stitched_mean :
  exists np ct q,
    accumulate a v tile_weights latents noise_preds = Ok (np, ct) /\
    tensor_idiv np ct = Ok q /\ tshape q = tshape latents /\
    forall n k i j,
      in_shape (tshape latents) n k i j ->
      (0 < Rsum (map (weight_share a tile_weights n k i j) tiles))%R /\
      elem q n k i j =
      (Rsum (map (pred_share a tile_weights noise_preds n k i j) tiles) /
       Rsum (map (weight_share a tile_weights n k i j) tiles))%R.
Proof.
  assert (Hwsh : tshape tile_weights =
                 mkShape 1 in_channels (tile_height a / 8) (tile_width a / 8))
    by (apply gaussian_weights_shape; lia).
  assert (Hsize : 0 <= tile_height a / 8 /\ 0 <= tile_width a / 8)
    by (split; apply Z.div_pos; lia).
  assert (Hfit : forall row col,
             0 <= row < grid_rows v -> 0 <= col < grid_cols v ->
             tile_fits in_channels a v (tile_height a / 8) (tile_width a / 8) row col)
    by (intros; apply valid_tiles_fit; assumption).
  assert (Hpos : forall n k y x,
             0 <= y < tile_height a / 8 -> 0 <= x < tile_width a / 8 ->
             (0 < elem tile_weights n k y x)%R)
    by (intros; now apply gaussian_weights_pos).
  assert (Hpreds : forall row col,
             0 <= row < grid_rows v -> 0 <= col < grid_cols v ->
             exists p, getitem2 noise_preds row col = Ok p /\
                       tshape p = tshape tile_weights).
  { intros row col Hrow Hcol. destruct (preds_shape row col Hrow Hcol) as (p & Hp & Hps).
    exists p. split; [assumption | congruence]. }
  destruct (accumulate_sums in_channels a v tile_weights latents noise_preds _ _
              latents_canvas Hwsh Hsize Hfit Hpreds)
    as (np & ct & Hacc & Hnp & Hct & Hel).
  destruct (accumulate_contributors in_channels a v tile_weights latents noise_preds _ _
              latents_canvas Hwsh Hsize Hpos Hfit np ct Hacc) as (_ & Hsum).
  exists np, ct. eexists. split; [exact Hacc|].
  unfold tensor_idiv. rewrite Hct, Hnp, expands_to_refl.
  split; [reflexivity|]. split; [now rewrite latents_canvas|].
  intros n k i j Hidx. rewrite latents_canvas in Hidx.
  destruct (Hel n k i j Hidx) as (Hnpe & Hcte). cbn [elem].
  rewrite expanded_in_shape by (now rewrite Hct).
  fold tiles in Hnpe, Hcte. rewrite <- Hnpe, <- Hcte. split; [|reflexivity].
  destruct Hidx as (_ & _ & Hi & Hj).
  destruct (valid_grid_covers in_channels a v rows_pos cols_pos height_8 width_8
              row_overlap_8 col_overlap_8 row_overlap_range col_overlap_range
              i j Hi Hj) as (row & col & Hrow & Hcol & Hcov).
  apply (Hsum n k i j). exists row, col.
  split; [now apply in_range|]. split; [now apply in_range | assumption].
Qed.

(** X14.  Stitching is a weighted mean.  In a grid with at least one row
    and one column, tile sizes and overlaps multiples of 8 and every
    overlap between 0 and the tile size, given one prediction of the
    tile's latent shape per tile, the stitching loop and the division
    that follows both run, and every entry of the stitched prediction is
    the sum over the tiles covering it of prediction times mask weight,
    divided by the sum of those mask weights, which is strictly
    positive. *)
Theorem stitching_is_weighted_mean :
  exists noise_pred contributors stitched,
    accumulate a v tile_weights latents noise_preds = Ok (noise_pred, contributors) /\
    tensor_idiv noise_pred contributors = Ok stitched /\
    tshape stitched = tshape latents /\
    forall n k i j,
      in_shape (tshape latents) n k i j ->
      (0 < Rsum (map (weight_share a tile_weights n k i j) tiles))%R /\
      elem stitched n k i j =
      (Rsum (map (pred_share a tile_weights noise_preds n k i j) tiles) /
       Rsum (map (weight_share a tile_weights n k i j) tiles))%R.
Proof. exact stitched_mean. Qed.

End StitchedMean.

Lemma stitching_is_weighted_mean_witness :
  exists noise_pred contributors stitched,
    accumulate overlap8_args checked_1x2 (_gaussian_weights 4 16 16 batch_size)
               (torch_zeros (mkShape 1 4 2 3)) [[zero_tile; zero_tile]] =
    Ok (noise_pred, contributors) /\
    tensor_idiv noise_pred contributors = Ok stitched /\
    tshape stitched = tshape (torch_zeros (mkShape 1 4 2 3)) /\
    forall n k i j,
      in_shape (tshape (torch_zeros (mkShape 1 4 2 3))) n k i j ->
      (0 < Rsum (map (weight_share overlap8_args (_gaussian_weights 4 16 16 batch_size)
                                   n k i j)
                     (grid_tiles 1 2)))%R /\
      elem stitched n k i j =
      (Rsum (map (pred_share overlap8_args (_gaussian_weights 4 16 16 batch_size)
                             [[zero_tile; zero_tile]] n k i j)
                 (grid_tiles 1 2)) /
       Rsum (map (weight_share overlap8_args (_gaussian_weights 4 16 16 batch_size)
                               n k i j)
                 (grid_tiles 1 2)))%R.
Proof.
  apply (stitching_is_weighted_mean 4 overlap8_args checked_1x2
           (torch_zeros (mkShape 1 4 2 3)) [[zero_tile; zero_tile]]);
    try reflexivity; try (simpl; lia).
  simpl. intros row col Hrow Hcol. assert (row = 0) as -> by lia.
  assert (col = 0 \/ col = 1) as [-> | ->] by lia; exists zero_tile; split; reflexivity.
Defined.

Section UncontestedEntry.

Variable in_channels : Z.
Variable a : call_args.
Variable v : checked_args.
Variable latents : Tensor.
Variables noise_preds noise_preds' : list (list Tensor).

Let tile_weights :=
  _gaussian_weights in_channels (tile_width a) (tile_height a) batch_size.

Hypothesis rows_pos : 1 <= grid_rows v.
Hypothesis cols_pos : 1 <= grid_cols v.
Hypothesis height_8 : tile_height a mod 8 = 0.
Hypothesis width_8 : tile_width a mod 8 = 0.
Hypothesis row_overlap_8 : tile_row_overlap a mod 8 = 0.
Hypothesis col_overlap_8 : tile_col_overlap a mod 8 = 0.
Hypothesis row_overlap_range : 0 <= tile_row_overlap a < tile_height a.
Hypothesis col_overlap_range : 0 <= tile_col_overlap a < tile_width a.
Hypothesis latents_canvas : tshape latents = latents_shape in_channels a v.
Hypothesis preds_shape :
  forall row col,
    0 <= row < grid_rows v -> 0 <= col < grid_cols v ->
    exists p, getitem2 noise_preds row col = Ok p /\
              tshape p = mkShape 1 in_channels (tile_height a / 8) (tile_width a / 8).
Hypothesis preds_shape' :
  forall row col,
    0 <= row < grid_rows v -> 0 <= col < grid_cols v ->
    exists p, getitem2 noise_preds' row col = Ok p /\
              tshape p = mkShape 1 in_channels (tile_height a / 8) (tile_width a / 8).

(** X15.  Where one tile alone covers an entry of the canvas, the
    stitched prediction there depends on that tile alone: two grids of
    per-tile predictions that agree on this tile, at the entry's position
    within the tile, give the same stitched value at the entry, whatever
    the other tiles predict.  (Nothing is said on how the value compares
    with the tile's own prediction: the weight cancels in exact
    arithmetic only.) *)
Theorem uncontested_entry_ignores_other_tiles
  (row col : Z) (p p' : Tensor) (n k i j : Z) :
  0 <= row < grid_rows v -> 0 <= col < grid_cols v ->
  getitem2 noise_preds row col = Ok p ->
  getitem2 noise_preds' row col = Ok p' ->
  elem p n k (i - row * (tile_height a / 8 - tile_row_overlap a / 8))
             (j - col * (tile_width a / 8 - tile_col_overlap a / 8)) =
  elem p' n k (i - row * (tile_height a / 8 - tile_row_overlap a / 8))
              (j - col * (tile_width a / 8 - tile_col_overlap a / 8)) ->
  in_shape (tshape latents) n k i j ->
  tile_covers a row col i j = true ->
  (forall row' col',
      0 <= row' < grid_rows v -> 0 <= col' < grid_cols v ->
      (row', col') <> (row, col) -> tile_covers a row' col' i j = false) ->
  exists noise_pred contributors stitched noise_pred' contributors' stitched',
    accumulate a v tile_weights latents noise_preds = Ok (noise_pred, contributors) /\
    tensor_idiv noise_pred contributors = Ok stitched /\
    accumulate a v tile_weights latents noise_preds' = Ok (noise_pred', contributors') /\
    tensor_idiv noise_pred' contributors' = Ok stitched' /\
    elem stitched n k i j = elem stitched' n k i j.
Proof.
  intros Hrow Hcol Hp Hp' Hagree Hidx Hcov Hothers.
  destruct (stitched_mean in_channels a v latents noise_preds rows_pos cols_pos height_8
              width_8 row_overlap_8 col_overlap_8 row_overlap_range col_overlap_range
              latents_canvas preds_shape) as (np & ct & q & Hacc & Hdiv & _ & Hel).
  destruct (stitched_mean in_channels a v latents noise_preds' rows_pos cols_pos height_8
              width_8 row_overlap_8 col_overlap_8 row_overlap_range col_overlap_range
              latents_canvas preds_shape') as (np' & ct' & q' & Hacc' & Hdiv' & _ & Hel').
  exists np, ct, q, np', ct', q'.
  split; [exact Hacc|]. split; [exact Hdiv|]. split; [exact Hacc'|]. split; [exact Hdiv'|].
  destruct (Hel n k i j Hidx) as (_ & ->). destruct (Hel' n k i j Hidx) as (_ & ->).
  f_equal. f_equal. apply map_ext_in. intros [row' col'] Hin.
  apply in_grid_tiles in Hin as (Hrow' & Hcol').
  assert (Hdec : (row', col') = (row, col) \/ (row', col') <> (row, col)).
  { destruct (Z.eq_dec row' row), (Z.eq_dec col' col);
      [left; congruence | right; congruence ..]. }
  destruct Hdec as [Heq | Hne].
  - injection Heq as -> ->. unfold pred_share, tile_covers in *. cbn [fst snd].
    rewrite (valid_region a height_8 width_8 row_overlap_8 col_overlap_8) in *.
    rewrite Hcov, Hp, Hp', Hagree. reflexivity.
  - pose proof (Hothers row' col' Hrow' Hcol' Hne) as Hout.
    unfold pred_share, tile_covers in *. cbn [fst snd].
    destruct (_tile2latent_indices row' col' _ _ _ _) as [[[r0 r1] c0] c1].
    now rewrite Hout.
Qed.

End UncontestedEntry.

Lemma uncontested_entry_ignores_other_tiles_witness :
  exists noise_pred contributors stitched noise_pred' contributors' stitched',
    accumulate overlap8_args checked_1x2 (_gaussian_weights 4 16 16 batch_size)
               (torch_zeros (mkShape 1 4 2 3)) [[zero_tile; zero_tile]] =
    Ok (noise_pred, contributors) /\
    tensor_idiv noise_pred contributors = Ok stitched /\
    accumulate overlap8_args checked_1x2 (_gaussian_weights 4 16 16 batch_size)
               (torch_zeros (mkShape 1 4 2 3)) [[zero_tile; one_tile]] =
    Ok (noise_pred', contributors') /\
    tensor_idiv noise_pred' contributors' = Ok stitched' /\
    elem stitched 0 0 0 0 = elem stitched' 0 0 0 0.
Proof.
  apply (uncontested_entry_ignores_other_tiles 4 overlap8_args checked_1x2
           (torch_zeros (mkShape 1 4 2 3)) [[zero_tile; zero_tile]]
           [[zero_tile; one_tile]])
    with (row := 0) (col := 0) (p := zero_tile) (p' := zero_tile);
    try reflexivity; try (simpl; lia).
  - simpl. intros row col Hrow Hcol. assert (row = 0) as -> by lia.
    assert (col = 0 \/ col = 1) as [-> | ->] by lia; exists zero_tile; split; reflexivity.
  - simpl. intros row col Hrow Hcol. assert (row = 0) as -> by lia.
    assert (col = 0 \/ col = 1) as [-> | ->] by lia;
      [exists zero_tile | exists one_tile]; split; reflexivity.
  - unfold in_shape. simpl. lia.
  - simpl. intros row' col' Hrow Hcol Hne. assert (row' = 0) as -> by lia.
    assert (col' = 0 \/ col' = 1) as [-> | ->] by lia; [congruence | reflexivity].
Defined.

(** ** A guided step *)

Lemma flat_map_singleton {A B : Type} (f : A -> B) (xs : list A) :
  flat_map (fun x => [f x]) xs = map f xs.
Proof. induction xs as [|x xs IH]; [reflexivity|]. cbn [flat_map map app]. now rewrite IH. Qed.

Lemma flat_map_map_pair {B : Type} (f : Z * Z -> B) (rows columns : Z) :
  flat_map (fun row => map (fun col => f (row, col)) (range columns)) (range rows) =
  map f (grid_tiles rows columns).
Proof.
  unfold grid_tiles. induction (range rows) as [|row rs IH]; [reflexivity|].
  cbn [flat_map]. now rewrite map_app, map_map, IH.
Qed.

Lemma tfor_each_append_trace {A B : Type} (Q : A -> B -> Prop) (tr : A -> list event)
  (body : A -> list B -> traced (list B)) (xs : list A) :
  (forall x acc, In x xs -> exists y, body x acc = (tr x, Ok (acc ++ [y])) /\ Q x y) ->
  forall acc,
    exists ys, tfor_each xs body acc = (flat_map tr xs, Ok (acc ++ ys)) /\
               Forall2 Q xs ys.
Proof.
  induction xs as [|x xs IH]; intros Hbody acc.
  - exists []. simpl. rewrite app_nil_r. split; [reflexivity | constructor].
  - destruct (Hbody x acc (or_introl eq_refl)) as (y & Hx & Hq).
    destruct (IH (fun x' acc' Hin => Hbody x' acc' (or_intror Hin)) (acc ++ [y]))
      as (ys & Hxs & Hqs).
    exists (y :: ys). cbn [tfor_each flat_map]. rewrite Hx. cbn [tbind].
    rewrite Hxs. rewrite <- app_assoc. split; [reflexivity | now constructor].
Qed.

Section GuidedStep.

Variable Emb : Type.
Variable unet : Tensor -> Z -> Emb -> Z -> Z -> Z -> Z -> R.
Variable lms_sigmas : option (Z -> R).
Variable a : call_args.
Variable v : checked_args.
Variable text_embeddings : list (list Emb).
Variables i t : Z.
Variable latents : Tensor.

Hypothesis guidance_on : do_classifier_free_guidance a = true.

Lemma diffuse_tile_guided_call (row col : Z) (e : Emb) (g : R) (acc : list Tensor) :
  getitem2 text_embeddings row col = Ok e ->
  tile_guidance a row col = Ok g ->
  exists pred,
    diffuse_tile Emb unet lms_sigmas a text_embeddings i t latents row col acc =
    ([tile_call lms_sigmas a i t latents (row, col)], Ok (acc ++ [pred])) /\
    tshape pred = tshape (tile_slice a latents row col).
Proof.
  intros He Hg. unfold diffuse_tile, tile_call, tile_slice. cbn [fst snd].
  destruct (_tile2latent_indices row col (tile_width a) (tile_height a)
              (tile_row_overlap a) (tile_col_overlap a)) as [[[r0 r1] c0] c1].
  rewrite guidance_on, He, tbind_tlift_ok.
  fold (lms_scaled lms_sigmas i (cat2 (getitem_hw latents r0 r1 c0 c1))).
  set (x := lms_scaled lms_sigmas i (cat2 (getitem_hw latents r0 r1 c0 c1))).
  rewrite call_unet_eq, tbind_pair_ok.
  assert (Hx : tshape x =
               mkShape (2 * dim_b (tshape (getitem_hw latents r0 r1 c0 c1)))
                       (dim_c (tshape (getitem_hw latents r0 r1 c0 c1)))
                       (dim_h (tshape (getitem_hw latents r0 r1 c0 c1)))
                       (dim_w (tshape (getitem_hw latents r0 r1 c0 c1)))).
  { unfold x. now rewrite lms_scaled_shape. }
  rewrite Hx, chunk2_doubled, tbind_tlift_ok, Hg, tbind_tlift_ok.
  match goal with
  | |- context [guide g ?u ?c] =>
      destruct (guide_same_shape g u c eq_refl) as (pred & Hp & Hps & _)
  end.
  rewrite Hp, tbind_tlift_ok. cbn [tret fst snd app].
  exists pred. split; [reflexivity | exact Hps].
Qed.

Lemma diffuse_tiles_guided_calls :
  (forall row col, 0 <= row < grid_rows v -> 0 <= col < grid_cols v ->
                   exists e, getitem2 text_embeddings row col = Ok e) ->
  (forall row col, 0 <= row < grid_rows v -> 0 <= col < grid_cols v ->
                   exists g, tile_guidance a row col = Ok g) ->
  exists noise_preds,
    diffuse_tiles Emb unet lms_sigmas a v text_embeddings i t latents =
    (map (tile_call lms_sigmas a i t latents) (grid_tiles (grid_rows v) (grid_cols v)),
     Ok noise_preds) /\
    forall row col,
      0 <= row < grid_rows v -> 0 <= col < grid_cols v ->
      exists pred,
        getitem2 noise_preds row col = Ok pred /\
        tshape pred = tshape (tile_slice a latents row col).
Proof.
  intros Hemb Hgui. unfold diffuse_tiles.
  destruct (tfor_each_append_trace
              (fun row preds_row =>
                 Forall2 (fun col pred => tshape pred = tshape (tile_slice a latents row col))
                         (range (grid_cols v)) preds_row)
              (fun row => map (fun col => tile_call lms_sigmas a i t latents (row, col))
                              (range (grid_cols v)))
              (fun row noise_preds =>
                 noise_preds_row <--
                   tfor_each (range (grid_cols v))
                     (diffuse_tile Emb unet lms_sigmas a text_embeddings i t latents row)
                     [] ;;
                 tret (noise_preds ++ [noise_preds_row]))
              (range (grid_rows v))) with (acc := @nil (list Tensor))
    as (nps & Hrun & Hall).
  - intros row acc Hrow. apply in_range in Hrow.
    destruct (tfor_each_append_trace
                (fun col pred => tshape pred = tshape (tile_slice a latents row col))
                (fun col => [tile_call lms_sigmas a i t latents (row, col)])
                (diffuse_tile Emb unet lms_sigmas a text_embeddings i t latents row)
                (range (grid_cols v))) with (acc := @nil Tensor)
      as (preds & Hinner & Hrowall).
    + intros col acc' Hcol. apply in_range in Hcol.
      destruct (Hemb row col Hrow Hcol) as (e & He).
      destruct (Hgui row col Hrow Hcol) as (g & Hg).
      now apply (diffuse_tile_guided_call row col e g).
    + exists preds. rewrite Hinner, tbind_pair_ok. cbn [tret fst snd app].
      rewrite app_nil_r, flat_map_singleton. now split.
  - exists nps. cbn [app] in Hrun. rewrite Hrun, flat_map_map_pair.
    split; [reflexivity|].
    intros row col Hrow Hcol.
    destruct (Forall2_range_getitem _ _ _ Hall row Hrow) as (preds & Hpreds & Hrowall).
    destruct (Forall2_range_getitem _ _ _ Hrowall col Hcol) as (pred & Hpred & Hq).
    exists pred. unfold getitem2. rewrite Hpreds. cbn [bind]. now split.
Qed.

End GuidedStep.

Lemma tile_slice_shape (in_channels : Z) (a : call_args) (v : checked_args)
  (latents : Tensor) (hh ww row col : Z) :
  tshape latents = latents_shape in_channels a v ->
  0 <= hh -> 0 <= ww ->
  tile_fits in_channels a v hh ww row col ->
  tshape (tile_slice a latents row col) = mkShape 1 in_channels hh ww.
Proof.
  intros Hlat Hhh Hww. unfold tile_fits, tile_slice.
  destruct (_tile2latent_indices row col (tile_width a) (tile_height a)
              (tile_row_overlap a) (tile_col_overlap a)) as [[[r0 r1] c0] c1].
  intros (Hr0 & Hr1 & HrH & Hc0 & Hc1 & HcW).
  unfold getitem_hw, slice_shape, slice_len. cbn [tshape].
  rewrite <- Hlat in HrH, HcW.
  rewrite !slice_bound_in_range by lia. rewrite Hlat.
  cbn [dim_b dim_c latents_shape]. unfold batch_size. f_equal; lia.
Qed.

Section GuidedStepRuns.

Variable in_channels : Z.
Variable Emb : Type.
Variable unet : Tensor -> Z -> Emb -> Z -> Z -> Z -> Z -> R.
Variable lms_sigmas : option (Z -> R).
Variable scheduler_step : Tensor -> Z -> Tensor -> Tensor.
Variable a : call_args.
Variable v : checked_args.
Variable text_embeddings : list (list Emb).
Variables i t : Z.
Variable latents : Tensor.

Let tile_weights :=
  _gaussian_weights in_channels (tile_width a) (tile_height a) batch_size.
Let tiles := grid_tiles (grid_rows v) (grid_cols v).

Hypothesis guidance_on : do_classifier_free_guidance a = true.
Hypothesis rows_pos : 1 <= grid_rows v.
Hypothesis cols_pos : 1 <= grid_cols v.
Hypothesis height_8 : tile_height a mod 8 = 0.
Hypothesis width_8 : tile_width a mod 8 = 0.
Hypothesis row_overlap_8 : tile_row_overlap a mod 8 = 0.
Hypothesis col_overlap_8 : tile_col_overlap a mod 8 = 0.
Hypothesis row_overlap_range : 0 <= tile_row_overlap a < tile_height a.
Hypothesis col_overlap_range : 0 <= tile_col_overlap a < tile_width a.
Hypothesis latents_canvas : tshape latents = latents_shape in_channels a v.
Hypothesis embeddings_given :
  forall row col, 0 <= row < grid_rows v -> 0 <= col < grid_cols v ->
                  exists e, getitem2 text_embeddings row col = Ok e.
Hypothesis scales_given :
  forall row col, 0 <= row < grid_rows v -> 0 <= col < grid_cols v ->
                  exists g, tile_guidance a row col = Ok g.

Lemma guided_step_run :
  exists noise_preds stitched,
    diffuse_tiles Emb unet lms_sigmas a v text_embeddings i t latents =
    (map (tile_call lms_sigmas a i t latents) tiles, Ok noise_preds) /\
    denoising_step Emb unet lms_sigmas scheduler_step a v text_embeddings tile_weights
                   i t latents =
    (map (tile_call lms_sigmas a i t latents) tiles,
     Ok (scheduler_step stitched (match lms_sigmas with Some _ => i | None => t end)
                        latents)) /\
    tshape stitched = tshape latents /\
    forall n k y x,
      in_shape (tshape latents) n k y x ->
      elem stitched n k y x =
      (Rsum (map (pred_share a tile_weights noise_preds n k y x) tiles) /
       Rsum (map (weight_share a tile_weights n k y x) tiles))%R.
Proof.
  destruct (diffuse_tiles_guided_calls Emb unet lms_sigmas a v text_embeddings i t latents
              guidance_on embeddings_given scales_given) as (nps & Hdiff & Hpreds).
  assert (Hsize : 0 <= tile_height a / 8 /\ 0 <= tile_width a / 8)
    by (split; apply Z.div_pos; lia).
  assert (Hshape : forall row col,
             0 <= row < grid_rows v -> 0 <= col < grid_cols v ->
             exists p, getitem2 nps row col = Ok p /\
                       tshape p = mkShape 1 in_channels (tile_height a / 8)
                                          (tile_width a / 8)).
  { intros row col Hrow Hcol. destruct (Hpreds row col Hrow Hcol) as (p & Hp & Hps).
    exists p. split; [exact Hp|]. rewrite Hps.
    apply (tile_slice_shape in_channels a v); [assumption | lia | lia |].
    apply valid_tiles_fit; assumption. }
  destruct (stitched_mean in_channels a v latents nps rows_pos cols_pos height_8 width_8
              row_overlap_8 col_overlap_8 row_overlap_range col_overlap_range
              latents_canvas Hshape) as (np & ct & q & Hacc & Hdiv & Hq & Hel).
  exists nps, q. split; [exact Hdiff|]. split; [|split; [exact Hq|]].
  - unfold denoising_step. rewrite Hdiff, tbind_pair_ok.
    fold tile_weights in Hacc. rewrite Hacc, tbind_tlift_ok.
    cbv beta iota. rewrite Hdiv, tbind_tlift_ok.
    destruct lms_sigmas; cbn [tret fst snd]; now rewrite app_nil_r.
  - intros n k y x Hidx. now apply Hel.
Qed.

(** X16.  A guided step runs to its end.  Under classifier-free guidance,
    in a grid with at least one row and one column, tile sizes and
    overlaps multiples of 8 and every overlap between 0 and the tile
    size, on a latent of the canvas shape, with an embedding (and a
    scale) for every tile: the step calls the denoising network exactly
    once per tile, in row-major order, on the tile's slice doubled and
    scaled, raises nothing, and hands to the scheduler the stitched
    prediction, which has the shape of the canvas and is the weighted
    mean of the per-tile predictions. *)
Theorem guided_step_completes :
  exists noise_preds stitched,
    diffuse_tiles Emb unet lms_sigmas a v text_embeddings i t latents =
    (map (tile_call lms_sigmas a i t latents) tiles, Ok noise_preds) /\
    denoising_step Emb unet lms_sigmas scheduler_step a v text_embeddings tile_weights
                   i t latents =
    (map (tile_call lms_sigmas a i t latents) tiles,
     Ok (scheduler_step stitched (match lms_sigmas with Some _ => i | None => t end)
                        latents)) /\
    tshape stitched = tshape latents /\
    forall n k y x,
      in_shape (tshape latents) n k y x ->
      elem stitched n k y x =
      (Rsum (map (pred_share a tile_weights noise_preds n k y x) tiles) /
       Rsum (map (weight_share a tile_weights n k y x) tiles))%R.
Proof. exact guided_step_run. Qed.

End GuidedStepRuns.

Lemma guided_step_completes_witness :
  exists noise_preds stitched,
    diffuse_tiles unit (fun x _ _ => elem x) None guided_example_args checked_1x2
                  [[tt; tt]] 0 1 (torch_zeros (mkShape 1 4 2 3)) =
    (map (tile_call None guided_example_args 0 1 (torch_zeros (mkShape 1 4 2 3)))
         (grid_tiles 1 2), Ok noise_preds) /\
    denoising_step unit (fun x _ _ => elem x) None (fun _ _ latents => latents)
                   guided_example_args checked_1x2 [[tt; tt]]
                   (_gaussian_weights 4 16 16 batch_size) 0 1
                   (torch_zeros (mkShape 1 4 2 3)) =
    (map (tile_call None guided_example_args 0 1 (torch_zeros (mkShape 1 4 2 3)))
         (grid_tiles 1 2),
     Ok (torch_zeros (mkShape 1 4 2 3))) /\
    tshape stitched = tshape (torch_zeros (mkShape 1 4 2 3)) /\
    forall n k y x,
      in_shape (tshape (torch_zeros (mkShape 1 4 2 3))) n k y x ->
      elem stitched n k y x =
      (Rsum (map (pred_share guided_example_args (_gaussian_weights 4 16 16 batch_size)
                             noise_preds n k y x) (grid_tiles 1 2)) /
       Rsum (map (weight_share guided_example_args (_gaussian_weights 4 16 16 batch_size)
                               n k y x) (grid_tiles 1 2)))%R.
Proof.
  apply (guided_step_completes 4 unit (fun x _ _ => elem x) None
           (fun _ _ latents => latents) guided_example_args checked_1x2 [[tt; tt]] 0 1
           (torch_zeros (mkShape 1 4 2 3))); try reflexivity; try (simpl; lia).
  - unfold do_classifier_free_guidance, guided_example_args. simpl.
    destruct (Rlt_dec 1 7.5) as [_|Hn]; [reflexivity | exfalso; apply Hn; lra].
  - simpl. intros row col Hrow Hcol.
    assert (row = 0) as -> by lia.
    assert (col = 0 \/ col = 1) as [-> | ->] by lia; exists tt; reflexivity.
  - simpl. intros row col Hrow Hcol.
    assert (row = 0) as -> by lia.
    assert (col = 0 \/ col = 1) as [-> | ->] by lia; eexists; reflexivity.
Defined.

(** ** A whole run *)

Lemma getitem2_rectangular {A : Type} (g : list (list A)) (cols row col : Z) :
  Forall (fun r => Z.of_nat (List.length r) = cols) g ->
  0 <= row < Z.of_nat (List.length g) -> 0 <= col < cols ->
  exists x, getitem2 g row col = Ok x.
Proof.
  intros Hrect Hrow Hcol.
  destruct (nth_error_in_range g row Hrow) as (r & Hr).
  assert (Hlen : Z.of_nat (List.length r) = cols).
  { rewrite Forall_forall in Hrect. apply Hrect. eapply nth_error_In; eassumption. }
  destruct (nth_error_in_range r col) as (x & Hx); [lia|].
  exists x. unfold getitem2. rewrite (getitem_nth_error g row r) by (lia || assumption).
  cbn [bind]. apply getitem_nth_error; [lia | assumption].
Qed.

Lemma length_enumerate_from {A : Type} (xs : list A) (i : Z) :
  List.length (enumerate_from i xs) = List.length xs.
Proof.
  revert i. induction xs as [|x xs IH]; intros i; [reflexivity|].
  cbn [enumerate_from List.length]. now rewrite IH.
Qed.

Section GuidedSteps.

Variable in_channels : Z.
Variable Emb : Type.
Variable unet : Tensor -> Z -> Emb -> Z -> Z -> Z -> Z -> R.
Variable lms_sigmas : option (Z -> R).
Variable scheduler_step : Tensor -> Z -> Tensor -> Tensor.
Variable a : call_args.
Variable v : checked_args.
Variable text_embeddings : list (list Emb).

Hypothesis guidance_on : do_classifier_free_guidance a = true.
Hypothesis rows_pos : 1 <= grid_rows v.
Hypothesis cols_pos : 1 <= grid_cols v.
Hypothesis height_8 : tile_height a mod 8 = 0.
Hypothesis width_8 : tile_width a mod 8 = 0.
Hypothesis row_overlap_8 : tile_row_overlap a mod 8 = 0.
Hypothesis col_overlap_8 : tile_col_overlap a mod 8 = 0.
Hypothesis row_overlap_range : 0 <= tile_row_overlap a < tile_height a.
Hypothesis col_overlap_range : 0 <= tile_col_overlap a < tile_width a.
Hypothesis embeddings_given :
  forall row col, 0 <= row < grid_rows v -> 0 <= col < grid_cols v ->
                  exists e, getitem2 text_embeddings row col = Ok e.
Hypothesis scales_given :
  forall row col, 0 <= row < grid_rows v -> 0 <= col < grid_cols v ->
                  exists g, tile_guidance a row col = Ok g.
Hypothesis step_keeps_shape :
  forall model_output t sample,
    tshape (scheduler_step model_output t sample) = tshape sample.

(** The loop over the timesteps: every step runs, and calls the denoising
    network once per tile. *)
Lemma guided_steps_run (steps : list (Z * Z)) :
  forall latents,
    tshape latents = latents_shape in_channels a v ->
    exists calls final,
      tfor_each steps
        (fun '(i, t) =>
           denoising_step Emb unet lms_sigmas scheduler_step a v text_embeddings
             (_gaussian_weights in_channels (tile_width a) (tile_height a) batch_size)
             i t)
        latents = (calls, Ok final) /\
      tshape final = latents_shape in_channels a v /\
      Forall is_unet_call calls /\
      List.length calls =
      (List.length steps * List.length (grid_tiles (grid_rows v) (grid_cols v)))%nat.
Proof.
  induction steps as [|[i t] steps IH]; intros latents Hlat.
  - exists [], latents. repeat split; [assumption | constructor].
  - destruct (guided_step_run in_channels Emb unet lms_sigmas scheduler_step a v
                text_embeddings i t latents guidance_on rows_pos cols_pos height_8
                width_8 row_overlap_8 col_overlap_8 row_overlap_range col_overlap_range
                Hlat embeddings_given scales_given) as (nps & q & _ & Hstep & _).
    destruct (IH (scheduler_step q (match lms_sigmas with Some _ => i | None => t end)
                                 latents))
      as (calls & final & Hrun & Hfinal & Hunet & Hlen).
    { now rewrite step_keeps_shape. }
    exists (map (tile_call lms_sigmas a i t latents)
                (grid_tiles (grid_rows v) (grid_cols v)) ++ calls), final.
    cbn [tfor_each]. cbv beta iota. rewrite Hstep. cbn [tbind]. rewrite Hrun.
    split; [reflexivity|]. split; [assumption|]. split.
    + apply Forall_app. split; [|assumption].
      apply Forall_forall. intros e Hin. apply in_map_iff in Hin as (tile & <- & _).
      exact I.
    + rewrite length_app, length_map, Hlen. cbn [List.length]. lia.
Qed.

End GuidedSteps.

Section RunCompletes.

Variable in_channels : Z.
Variable noise : Z -> shape -> Z -> Z -> Z -> Z -> R.
Variable Emb : Type.
Variable text_encoder : string -> Emb.
Variable emb_cat : Emb -> Emb -> Emb.
Variable unet : Tensor -> Z -> Emb -> Z -> Z -> Z -> Z -> R.
Variable scheduler_timesteps : Z -> list Z.
Variable lms_sigmas : option (Z -> R).
Variable scheduler_step : Tensor -> Z -> Tensor -> Tensor.
Variable Image : Type.
Variable decode_latents : Tensor -> bool -> Image.
Variable a : call_args.
Variable v : checked_args.
Variable latents0 : Tensor.

Hypothesis checks_pass : validate a = Ok v.
Hypothesis canvas_built : initial_latents in_channels noise a v = Ok latents0.
Hypothesis guidance_on : do_classifier_free_guidance a = true.
Hypothesis cols_pos : 1 <= grid_cols v.
Hypothesis height_8 : tile_height a mod 8 = 0.
Hypothesis width_8 : tile_width a mod 8 = 0.
Hypothesis row_overlap_8 : tile_row_overlap a mod 8 = 0.
Hypothesis col_overlap_8 : tile_col_overlap a mod 8 = 0.
Hypothesis row_overlap_range : 0 <= tile_row_overlap a < tile_height a.
Hypothesis col_overlap_range : 0 <= tile_col_overlap a < tile_width a.
Hypothesis scales_given :
  forall row col, 0 <= row < grid_rows v -> 0 <= col < grid_cols v ->
                  exists g, tile_guidance a row col = Ok g.
Hypothesis step_keeps_shape :
  forall model_output t sample,
    tshape (scheduler_step model_output t sample) = tshape sample.

(** The whole of a guided run on a valid grid: its calls, in order, and
    its result. *)
Lemma guided_run_trace :
  exists unet_calls final,
    __call__ in_channels noise Emb text_encoder emb_cat unet scheduler_timesteps
             lms_sigmas scheduler_step Image decode_latents a =
    (map TextEncoderCall (List.concat (prompt_grid v)) ++
     repeat (TextEncoderCall "") (List.length (List.concat (prompt_grid v))) ++
     unet_calls ++ [VaeDecodeCall final],
     Ok (decode_latents final (cpu_vae a))) /\
    Forall is_unet_call unet_calls /\
    List.length unet_calls =
    (List.length (scheduler_timesteps (num_inference_steps a)) *
     List.length (grid_tiles (grid_rows v) (grid_cols v)))%nat /\
    tshape final = latents_shape in_channels a v.
Proof.
  destruct (validate_rectangular a v checks_pass) as (Hrows1 & Hrows & Hrect).
  destruct (initial_latents_shape in_channels noise a v latents0 canvas_built)
    as (Hshape & _).
  set (te := map (map (fun p => emb_cat (text_encoder "") (text_encoder p)))
                 (prompt_grid v)).
  assert (Hte : forall row col,
             0 <= row < grid_rows v -> 0 <= col < grid_cols v ->
             exists e, getitem2 te row col = Ok e).
  { intros row col Hrow Hcol. apply (getitem2_rectangular te (grid_cols v)).
    - unfold te. rewrite Forall_forall in *. intros r Hin.
      apply in_map_iff in Hin as (r' & <- & Hin'). rewrite length_map. now apply Hrect.
    - unfold te. rewrite length_map. lia.
    - assumption. }
  set (latents1 := match lms_sigmas with
                   | Some sigmas => tensor_map (fun x => (x * sigmas 0%Z)%R) latents0
                   | None => latents0
                   end).
  assert (Hl1 : tshape latents1 = latents_shape in_channels a v)
    by (unfold latents1; now destruct lms_sigmas).
  destruct (guided_steps_run in_channels Emb unet lms_sigmas scheduler_step a v te
              guidance_on Hrows1 cols_pos height_8 width_8 row_overlap_8 col_overlap_8
              row_overlap_range col_overlap_range Hte scales_given step_keeps_shape
              (enumerate (scheduler_timesteps (num_inference_steps a))) latents1 Hl1)
    as (calls & final & Hrun & Hfinal & Hunet & Hlen).
  exists calls, final. split; [|split; [exact Hunet|split; [|exact Hfinal]]].
  - unfold __call__. rewrite checks_pass, tbind_tlift_ok, canvas_built, tbind_tlift_ok.
    unfold run_from. cbv zeta.
    rewrite (text_embeddings_run Emb text_encoder emb_cat a v Hrows Hrect), guidance_on.
    rewrite tbind_pair_ok. fold te. fold latents1. rewrite Hrun.
    cbn [tbind emit tret fst snd app]. now rewrite <- app_assoc.
  - rewrite Hlen. unfold enumerate. now rewrite length_enumerate_from.
Qed.

(** X17.  A guided run on a valid grid runs to its end.  When the
    argument checks pass, the canvas latent has been built, guidance is
    on, the grid has a column, tile sizes and overlaps are multiples of 8
    with every overlap between 0 and the tile size, every tile has a
    scale, and the scheduler's step keeps the shape of the sample, then
    [__call__] raises nothing; it calls the text encoder on every prompt
    and then on the empty prompt once per tile, then the denoising
    network once per tile for every timestep and nothing else, and last
    the decoder, once, on a latent of the canvas shape, whose image it
    returns. *)
Theorem guided_run_completes :
  exists unet_calls final,
    __call__ in_channels noise Emb text_encoder emb_cat unet scheduler_timesteps
             lms_sigmas scheduler_step Image decode_latents a =
    (map TextEncoderCall (List.concat (prompt_grid v)) ++
     repeat (TextEncoderCall "") (List.length (List.concat (prompt_grid v))) ++
     unet_calls ++ [VaeDecodeCall final],
     Ok (decode_latents final (cpu_vae a))) /\
    Forall is_unet_call unet_calls /\
    List.length unet_calls =
    (List.length (scheduler_timesteps (num_inference_steps a)) *
     List.length (grid_tiles (grid_rows v) (grid_cols v)))%nat /\
    tshape final = latents_shape in_channels a v.
Proof. exact guided_run_trace. Qed.

End RunCompletes.

Lemma guided_run_completes_witness :
  exists unet_calls final,
    example_call guided_example_args =
    (map TextEncoderCall (List.concat (prompt_grid checked_1x2)) ++
     repeat (TextEncoderCall "") (List.length (List.concat (prompt_grid checked_1x2))) ++
     unet_calls ++ [VaeDecodeCall final],
     Ok final) /\
    Forall is_unet_call unet_calls /\
    List.length unet_calls =
    (List.length [1] * List.length (grid_tiles (grid_rows checked_1x2)
                                               (grid_cols checked_1x2)))%nat /\
    tshape final = latents_shape 4 guided_example_args checked_1x2.
Proof.
  apply (guided_run_completes 4 example_noise unit (fun _ => tt) (fun _ _ => tt)
           (fun x _ _ => elem x) (fun _ => [1]) None (fun _ _ latents => latents)
           Tensor (fun latents _ => latents) guided_example_args checked_1x2
           (mkTensor (latents_shape 4 guided_example_args checked_1x2)
                     (example_noise 1234
                        (latents_shape 4 guided_example_args checked_1x2))));
    try reflexivity; try (simpl; lia).
  - unfold do_classifier_free_guidance, guided_example_args. simpl.
    destruct (Rlt_dec 1 7.5) as [_|Hn]; [reflexivity | exfalso; apply Hn; lra].
  - simpl. intros row col Hrow Hcol.
    assert (row = 0) as -> by lia.
    assert (col = 0 \/ col = 1) as [-> | ->] by lia; eexists; reflexivity.
Defined.

(** ** Seeding, tile after tile *)

Section LastSeed.

Variable in_channels : Z.
Variable noise : Z -> shape -> Z -> Z -> Z -> Z -> R.
Variable a : call_args.
Variable v : checked_args.

Hypothesis height_nonneg : 0 <= tile_height a.
Hypothesis width_nonneg : 0 <= tile_width a.
Hypothesis row_overlap_le : tile_row_overlap a <= tile_height a.
Hypothesis col_overlap_le : tile_col_overlap a <= tile_width a.

Lemma tile_rect_in_canvas (row col r0 r1 c0 c1 : Z) :
  0 <= row < grid_rows v -> 0 <= col < grid_cols v ->
  _tile2latent_indices row col (tile_width a) (tile_height a)
                       (tile_row_overlap a) (tile_col_overlap a) = (r0, r1, c0, c1) ->
  rect_in_canvas in_channels a v r0 r1 c0 c1.
Proof.
  intros Hrow Hcol Hincl.
  rewrite tile2latent_indices_eq in Hincl. injection Hincl as <- <- <- <-.
  unfold rect_in_canvas, latents_shape. cbn [dim_h dim_w].
  destruct (axis_in_canvas (tile_height a) (tile_row_overlap a) (grid_rows v) row
              Hrow height_nonneg row_overlap_le) as (H1 & H2 & _).
  destruct (axis_in_canvas (tile_width a) (tile_col_overlap a) (grid_cols v) col
              Hcol width_nonneg col_overlap_le) as (H3 & H4 & _).
  lia.
Qed.

Lemma seed_tile_body_region (g : list (list (option Z))) (row col s : Z)
  (mode : string) (latents : Tensor) (r0 r1 c0 c1 : Z) :
  0 <= row < grid_rows v -> 0 <= col < grid_cols v ->
  getitem2 g row col = Ok (Some s) ->
  getitem2 (mode_grid v) row col = Ok mode ->
  seeded_region a v mode row col = Ok (r0, r1, c0, c1) ->
  tshape latents = latents_shape in_channels a v -> 0 <= in_channels ->
  exists latents',
    seed_tile_body in_channels noise a v g row col latents = Ok latents' /\
    tshape latents' = latents_shape in_channels a v /\
    forall n k i j,
      0 <= n < 1 -> 0 <= k < in_channels ->
      elem latents' n k i j =
      if in_rect r0 r1 c0 c1 i j
      then noise s (mkShape 1 in_channels (r1 - r0) (c1 - c0)) n k (i - r0) (j - c0)
      else elem latents n k i j.
Proof.
  intros Hrow Hcol Hs Hm Hreg Hsh Hc.
  destruct (_tile2latent_indices row col (tile_width a) (tile_height a)
              (tile_row_overlap a) (tile_col_overlap a))
    as [[[t0 t1] u0] u1] eqn:Hincl.
  pose proof (tile_rect_in_canvas row col t0 t1 u0 u1 Hrow Hcol Hincl) as Hrect.
  assert (Hsub : rect_in_canvas in_channels a v r0 r1 c0 c1).
  { unfold rect_in_canvas in *. unfold seeded_region in Hreg. rewrite Hincl in Hreg.
    destruct (String.eqb mode (SeedTilesMode_value FULL)).
    - injection Hreg as <- <- <- <-. exact Hrect.
    - assert (Hin : t0 <= r0 <= r1 /\ r1 <= t1 /\ u0 <= c0 <= c1 /\ c1 <= u1)
        by (eapply exclusive_within_inclusive; [exact Hincl | lia | lia | exact Hreg]).
      lia. }
  unfold seed_tile_body. rewrite Hs. cbn [bind]. rewrite Hm. cbn [bind].
  unfold seeded_region in Hreg. rewrite Hreg. cbn [bind].
  now apply overwrite_in_canvas.
Qed.

(** X18.  The last seeded tile wins, in either mode.  In a grid whose
    overlaps do not exceed the tile sizes, when the canvas latent is
    built, an entry of the canvas that lies in the region written for a
    seeded tile (its inclusive region in mode ["full"], its exclusive
    region otherwise), in the inclusive region of no seeded tile that
    comes later in row-major order, and in the slice of no reroll region,
    holds the draw of that tile's seed, at the entry's position within
    the region written. *)
Theorem last_seeded_tile_wins (g : list (list (option Z)))
  (pre post : list (Z * Z)) (row col s : Z) (mode : string) (r0 r1 c0 c1 : Z)
  (latents : Tensor) (n k i j : Z) :
  initial_latents in_channels noise a v = Ok latents ->
  seed_tiles a = Some g ->
  grid_tiles (grid_rows v) (grid_cols v) = pre ++ (row, col) :: post ->
  getitem2 g row col = Ok (Some s) ->
  getitem2 (mode_grid v) row col = Ok mode ->
  seeded_region a v mode row col = Ok (r0, r1, c0, c1) ->
  0 <= n < 1 -> 0 <= k < in_channels ->
  in_rect r0 r1 c0 c1 i j = true ->
  (forall row' col' s',
      In (row', col') post -> getitem2 g row' col' = Ok (Some s') ->
      tile_covers a row' col' i j = false) ->
  forallb (fun r => negb (slice_covers in_channels a v r i j)) (reroll_regions v) = true ->
  elem latents n k i j =
  noise s (mkShape 1 in_channels (r1 - r0) (c1 - c0)) n k (i - r0) (j - c0).
Proof.
  intros Hrun Hg Hgrid Hs Hmode Hreg Hn Hk Hcov Hlater Hrerolls.
  assert (Htile : 0 <= row < grid_rows v /\ 0 <= col < grid_cols v).
  { apply in_grid_tiles. rewrite Hgrid. apply in_or_app. right. now left. }
  destruct Htile as (Hrow & Hcol).
  unfold initial_latents, reroll_loop in Hrun.
  apply bind_ok in Hrun as (l0 & H0 & Hrun).
  apply bind_ok in Hrun as (l1 & H1 & H2).
  apply torch_randn_ok in H0 as (-> & _).
  assert (Hsh1 : tshape l1 = latents_shape in_channels a v)
    by (apply seed_tiles_loop_shape in H1; exact H1).
  rewrite (reroll_loop_untouched in_channels noise a v _ l1 latents Hsh1 H2 n k i j
             Hrerolls).
  clear H2 Hrerolls latents Hsh1.
  unfold seed_tiles_loop in H1. rewrite Hg in H1.
  rewrite (for_each_grid_tiles (grid_rows v) (grid_cols v)
             (fun row col => seed_tile_body in_channels noise a v g row col)) in H1.
  rewrite Hgrid, for_each_app in H1.
  apply bind_ok in H1 as (lpre & Hpre & H1). cbn [for_each] in H1.
  apply bind_ok in H1 as (lx & Hx & Hpost). cbn [fst snd] in Hx.
  assert (Hshpre : tshape lpre = latents_shape in_channels a v).
  { eapply (for_each_preserves (fun t => tshape t = latents_shape in_channels a v));
      [| |exact Hpre]; [reflexivity|].
    intros x t1 t2 Ht1 _ Hbody. apply seed_tile_body_shape in Hbody. congruence. }
  destruct (seed_tile_body_region g row col s mode lpre r0 r1 c0 c1
              Hrow Hcol Hs Hmode Hreg Hshpre ltac:(lia))
    as (lx' & Hx' & Hshx & Helx).
  assert (lx' = lx) as -> by congruence.
  pose (P := fun t : Tensor =>
               tshape t = latents_shape in_channels a v /\
               elem t n k i j = elem lx n k i j).
  assert (HP : P l1).
  { eapply (for_each_preserves P); [| |exact Hpost]; [now split|].
    intros [row' col'] t1 t2 (Hsh1 & Hel1) Hin Hbody. cbn [fst snd] in Hbody.
    assert (Htile' : 0 <= row' < grid_rows v /\ 0 <= col' < grid_cols v).
    { apply in_grid_tiles. rewrite Hgrid. apply in_or_app. right. now right. }
    destruct Htile' as (Hrow' & Hcol'). split.
    - apply seed_tile_body_shape in Hbody. congruence.
    - rewrite <- Hel1.
      apply (seed_tile_body_frame in_channels noise a v height_nonneg width_nonneg
               row_overlap_le col_overlap_le g row' col' t1 t2); try assumption.
      intros s' Hs'. now apply (Hlater row' col' s'). }
  destruct HP as (_ & ->). rewrite (Helx n k i j Hn Hk). now rewrite Hcov.
Qed.

End LastSeed.

Lemma last_seeded_tile_wins_witness :
  exists latents,
    initial_latents 4 example_noise exclusive_seed_args exclusive_seed_checked =
    Ok latents /\
    elem latents 0 0 0 0 = example_noise 5 (mkShape 1 4 (1 - 0) (1 - 0)) 0 0 (0 - 0) (0 - 0).
Proof.
  eexists. split; [reflexivity|].
  apply (last_seeded_tile_wins 4 example_noise exclusive_seed_args
           exclusive_seed_checked)
    with (g := [[Some 5; None]; [None; None]]) (pre := @nil (Z * Z))
         (post := [(0, 1); (1, 0); (1, 1)]) (mode := "exclusive"%string)
         (row := 0) (col := 0) (s := 5) (r0 := 0) (r1 := 1) (c0 := 0) (c1 := 1);
    try reflexivity; try (simpl; lia).
  intros row' col' s' [H | [H | [H | []]]] Hs'; injection H as <- <-; discriminate Hs'.
Defined.

Section FullSeeding.

Variable in_channels : Z.
Variable noise : Z -> shape -> Z -> Z -> Z -> Z -> R.
Variable a : call_args.
Variable v : checked_args.

Hypothesis channels_nonneg : 0 <= in_channels.
Hypothesis rows_pos : 1 <= grid_rows v.
Hypothesis cols_pos : 1 <= grid_cols v.
Hypothesis height_nonneg : 0 <= tile_height a.
Hypothesis width_nonneg : 0 <= tile_width a.
Hypothesis row_overlap_le : tile_row_overlap a <= tile_height a.
Hypothesis col_overlap_le : tile_col_overlap a <= tile_width a.
Hypothesis seeds_given :
  forall g row col,
    seed_tiles a = Some g ->
    0 <= row < grid_rows v -> 0 <= col < grid_cols v ->
    exists seed_tile, getitem2 g row col = Ok seed_tile.
Hypothesis full_mode :
  forall row col,
    0 <= row < grid_rows v -> 0 <= col < grid_cols v ->
    getitem2 (mode_grid v) row col = Ok (SeedTilesMode_value FULL).
Hypothesis rerolls_in_canvas :
  Forall (region_in_canvas in_channels a v) (reroll_regions v).

(** X19.  Seeding in full mode runs to its end.  With at least one row
    and one column, non-negative tile sizes, no overlap larger than the
    tile size, a seed grid (if one is given) that has an entry, a seed or
    [None], for every tile, mode ["full"] at every tile, and every reroll
    region inside the canvas, the canvas latent is built without an
    error and has the shape [(1, in_channels, height // 8, width // 8)]. *)
Theorem full_seeding_completes :
  exists latents,
    initial_latents in_channels noise a v = Ok latents /\
    tshape latents = latents_shape in_channels a v.
Proof.
  unfold initial_latents.
  assert (Hdims : 0 <= dim_h (latents_shape in_channels a v) /\
                  0 <= dim_w (latents_shape in_channels a v)).
  { unfold latents_shape. cbn [dim_h dim_w]. split; apply Z.div_pos; nia. }
  destruct Hdims as (Hh & Hw).
  assert (H0 : torch_randn noise (latents_shape in_channels a v) (seed a) =
               Ok (mkTensor (latents_shape in_channels a v)
                            (noise (seed a) (latents_shape in_channels a v)))).
  { unfold torch_randn.
    replace (dim_b (latents_shape in_channels a v) <? 0) with false
      by (symmetry; apply Z.ltb_ge; cbn; unfold batch_size; lia).
    replace (dim_c (latents_shape in_channels a v) <? 0) with false
      by (symmetry; apply Z.ltb_ge; cbn; lia).
    replace (dim_h (latents_shape in_channels a v) <? 0) with false
      by (symmetry; apply Z.ltb_ge; lia).
    replace (dim_w (latents_shape in_channels a v) <? 0) with false
      by (symmetry; apply Z.ltb_ge; lia).
    reflexivity. }
  rewrite H0. cbn [bind].
  assert (H1 : exists l1,
             seed_tiles_loop in_channels noise a v
               (mkTensor (latents_shape in_channels a v)
                         (noise (seed a) (latents_shape in_channels a v))) = Ok l1 /\
             tshape l1 = latents_shape in_channels a v).
  { unfold seed_tiles_loop. destruct (seed_tiles a) as [g|] eqn:Hg;
      [|eexists; split; reflexivity].
    apply (for_each_total (fun t => tshape t = latents_shape in_channels a v));
      [|reflexivity].
    intros row t1 Hrow Ht1. apply in_range in Hrow.
    apply (for_each_total (fun t => tshape t = latents_shape in_channels a v));
      [|exact Ht1].
    intros col t2 Hcol Ht2. apply in_range in Hcol.
    destruct (seeds_given g row col eq_refl Hrow Hcol) as ([s|] & Hs).
    - destruct (_tile2latent_indices row col (tile_width a) (tile_height a)
                  (tile_row_overlap a) (tile_col_overlap a))
        as [[[r0 r1] c0] c1] eqn:Hincl.
      destruct (seed_tile_body_full in_channels noise a v g row col s t2 r0 r1 c0 c1
                  Hs (full_mode row col Hrow Hcol) Hincl Ht2 channels_nonneg
                  (tile_rect_in_canvas in_channels a v height_nonneg width_nonneg
                     row_overlap_le col_overlap_le row col r0 r1 c0 c1 Hrow Hcol Hincl))
        as (t3 & Hbody & Ht3 & _).
      exists t3. now split.
    - exists t2. unfold seed_tile_body. rewrite Hs. now split. }
  destruct H1 as (l1 & H1 & Hsh1). rewrite H1. cbn [bind]. unfold reroll_loop.
  destruct (reroll_regions_in_canvas in_channels noise a v (reroll_regions v)
              channels_nonneg rerolls_in_canvas l1 Hsh1) as (l2 & H2 & Hsh2 & _).
  exists l2. now split.
Qed.

End FullSeeding.

Lemma full_seeding_completes_witness :
  exists latents,
    initial_latents 4 example_noise one_seeded_tile_args one_seeded_tile_checked =
    Ok latents /\
    tshape latents = latents_shape 4 one_seeded_tile_args one_seeded_tile_checked.
Proof.
  apply (full_seeding_completes 4 example_noise one_seeded_tile_args
           one_seeded_tile_checked); try (simpl; lia).
  - intros g row col Hg Hrow Hcol. injection Hg as <-. simpl in Hrow, Hcol.
    assert (row = 0) as -> by lia.
    assert (col = 0 \/ col = 1) as [-> | ->] by lia; eexists; reflexivity.
  - intros row col Hrow Hcol. simpl in Hrow, Hcol.
    assert (row = 0) as -> by lia.
    assert (col = 0 \/ col = 1) as [-> | ->] by lia; reflexivity.
  - repeat constructor; simpl; apply Z.leb_le; reflexivity.
Defined.

(** ** A run without guidance *)

Lemma tbind_trace_forall {A B : Type} (Q : event -> Prop) (m : traced A)
  (k : A -> traced B) :
  Forall Q (fst m) -> (forall x, Forall Q (fst (k x))) -> Forall Q (fst (tbind m k)).
Proof.
  intros Hm Hk. destruct m as [l [x|e]]; cbn [tbind fst] in *; [|exact Hm].
  specialize (Hk x). destruct (k x) as [l' r]. cbn [fst] in *.
  apply Forall_app. now split.
Qed.

Lemma tfor_each_trace_forall {A S : Type} (Q : event -> Prop)
  (body : A -> S -> traced S) (xs : list A) :
  (forall x s, Forall Q (fst (body x s))) ->
  forall s, Forall Q (fst (tfor_each xs body s)).
Proof.
  intros Hbody. induction xs as [|x xs IH]; intros s; [constructor|].
  cbn [tfor_each]. apply tbind_trace_forall; [apply Hbody | apply IH].
Qed.

Lemma tlift_trace_forall {A : Type} (Q : event -> Prop) (r : result A) :
  Forall Q (fst (tlift r)).
Proof. constructor. Qed.

Section UnguidedRun.

Variable in_channels : Z.
Variable noise : Z -> shape -> Z -> Z -> Z -> Z -> R.
Variable Emb : Type.
Variable text_encoder : string -> Emb.
Variable emb_cat : Emb -> Emb -> Emb.
Variable unet : Tensor -> Z -> Emb -> Z -> Z -> Z -> Z -> R.
Variable scheduler_timesteps : Z -> list Z.
Variable lms_sigmas : option (Z -> R).
Variable scheduler_step : Tensor -> Z -> Tensor -> Tensor.
Variable Image : Type.
Variable decode_latents : Tensor -> bool -> Image.
Variable a : call_args.
Variable v : checked_args.
Variable latents0 : Tensor.

(** In any mode, the per-tile loop calls nothing but the denoising
    network. *)
Lemma diffuse_tiles_calls_unet (text_embeddings : list (list Emb)) (i t : Z)
  (latents : Tensor) :
  Forall is_unet_call
         (fst (diffuse_tiles Emb unet lms_sigmas a v text_embeddings i t latents)).
Proof.
  unfold diffuse_tiles. apply tfor_each_trace_forall. intros row nps.
  apply tbind_trace_forall; [|intros x; constructor].
  apply tfor_each_trace_forall. intros col acc. unfold diffuse_tile.
  destruct (_tile2latent_indices row col (tile_width a) (tile_height a)
              (tile_row_overlap a) (tile_col_overlap a)) as [[[r0 r1] c0] c1].
  apply tbind_trace_forall; [apply tlift_trace_forall|]. intros e.
  apply tbind_trace_forall; [repeat constructor|]. intros pred.
  destruct (do_classifier_free_guidance a); [|constructor].
  apply tbind_trace_forall; [apply tlift_trace_forall|]. intros [u c].
  apply tbind_trace_forall; [apply tlift_trace_forall|]. intros g.
  apply tbind_trace_forall; [apply tlift_trace_forall|]. intros p. constructor.
Qed.

Lemma tfor_each_const_trace {A S : Type} (tr : A -> list event)
  (body : A -> S -> traced S) (xs : list A) (s : S) :
  (forall x, In x xs -> body x s = (tr x, Ok s)) ->
  tfor_each xs body s = (flat_map tr xs, Ok s).
Proof.
  induction xs as [|x xs IH]; intros Hbody; [reflexivity|].
  cbn [tfor_each flat_map]. rewrite (Hbody x (or_introl eq_refl)). cbn [tbind].
  rewrite IH by (intros y Hy; apply Hbody; now right). reflexivity.
Qed.

(** Without guidance, with an embedding for every tile, the per-tile loop
    calls the network once per tile and keeps no prediction. *)
Lemma diffuse_tiles_unguided_calls (text_embeddings : list (list Emb)) (i t : Z)
  (latents : Tensor) :
  do_classifier_free_guidance a = false ->
  (forall row col, 0 <= row < grid_rows v -> 0 <= col < grid_cols v ->
                   exists e, getitem2 text_embeddings row col = Ok e) ->
  exists calls noise_preds,
    diffuse_tiles Emb unet lms_sigmas a v text_embeddings i t latents =
    (calls, Ok noise_preds) /\
    List.length calls = List.length (grid_tiles (grid_rows v) (grid_cols v)) /\
    Forall (fun noise_preds_row => noise_preds_row = []) noise_preds.
Proof.
  intros Hoff Hemb. unfold diffuse_tiles.
  destruct (tfor_each_append_trace
              (fun (_ : Z) (preds_row : list Tensor) => preds_row = [])
              (fun row =>
                 map (fun col =>
                        UnetCall (lms_scaled lms_sigmas i (tile_slice a latents row col)) t)
                     (range (grid_cols v)))
              (fun row noise_preds =>
                 noise_preds_row <--
                   tfor_each (range (grid_cols v))
                     (diffuse_tile Emb unet lms_sigmas a text_embeddings i t latents row)
                     [] ;;
                 tret (noise_preds ++ [noise_preds_row]))
              (range (grid_rows v))) with (acc := @nil (list Tensor))
    as (nps & Hrun & Hall).
  - intros row acc Hrow. apply in_range in Hrow. exists [].
    rewrite (tfor_each_const_trace
               (fun col =>
                  [UnetCall (lms_scaled lms_sigmas i (tile_slice a latents row col)) t])).
    + cbn [tbind tret]. rewrite app_nil_r, flat_map_singleton. now split.
    + intros col Hcol. apply in_range in Hcol.
      destruct (Hemb row col Hrow Hcol) as (e & He).
      unfold diffuse_tile, tile_slice, lms_scaled.
      destruct (_tile2latent_indices row col (tile_width a) (tile_height a)
                  (tile_row_overlap a) (tile_col_overlap a)) as [[[r0 r1] c0] c1].
      rewrite Hoff, He, tbind_tlift_ok.
      unfold call_unet, emit, tret. cbn [tbind app]. reflexivity.
  - exists (flat_map
              (fun row =>
                 map (fun col =>
                        UnetCall (lms_scaled lms_sigmas i (tile_slice a latents row col)) t)
                     (range (grid_cols v)))
              (range (grid_rows v))), nps.
    cbn [app] in Hrun. split; [exact Hrun|]. split.
    + rewrite (flat_map_map_pair
                 (fun tile =>
                    UnetCall (lms_scaled lms_sigmas i
                                (tile_slice a latents (fst tile) (snd tile))) t)).
      apply length_map.
    + clear Hrun. induction Hall as [|row preds rs pss Hq _ IH]; constructor; assumption.
Qed.

Hypothesis checks_pass : validate a = Ok v.
Hypothesis canvas_built : initial_latents in_channels noise a v = Ok latents0.
Hypothesis guidance_off : do_classifier_free_guidance a = false.
Hypothesis cols_pos : 1 <= grid_cols v.
Hypothesis some_timestep : scheduler_timesteps (num_inference_steps a) <> [].

(** X20.  Without guidance no run returns an image.  When
    [guidance_scale] is not above 1, the argument checks pass, the canvas
    latent is built, the grid has a column and the scheduler has a
    timestep, [__call__] raises [IndexError] in its first step: it has
    called the text encoder on every prompt (never on the empty prompt)
    and after that the denoising network only, once per tile; the decoder
    is never called. *)
Theorem unguided_run_raises :
  exists unet_calls,
    __call__ in_channels noise Emb text_encoder emb_cat unet scheduler_timesteps
             lms_sigmas scheduler_step Image decode_latents a =
    (map TextEncoderCall (List.concat (prompt_grid v)) ++ unet_calls,
     Raise IndexError) /\
    Forall is_unet_call unet_calls /\
    List.length unet_calls = List.length (grid_tiles (grid_rows v) (grid_cols v)).
Proof.
  destruct (validate_rectangular a v checks_pass) as (Hrows1 & Hrows & Hrect).
  unfold __call__. rewrite checks_pass, tbind_tlift_ok, canvas_built, tbind_tlift_ok.
  unfold run_from. cbv zeta.
  rewrite (text_embeddings_run Emb text_encoder emb_cat a v Hrows Hrect), guidance_off.
  rewrite tbind_pair_ok, app_nil_r.
  destruct (scheduler_timesteps (num_inference_steps a)) as [|t0 ts];
    [now contradiction some_timestep|].
  unfold enumerate. cbn [enumerate_from tfor_each]. cbv beta iota.
  set (te := map (map text_encoder) (prompt_grid v)).
  assert (Hte : forall row col,
             0 <= row < grid_rows v -> 0 <= col < grid_cols v ->
             exists e, getitem2 te row col = Ok e).
  { intros row col Hrow Hcol. apply (getitem2_rectangular te (grid_cols v)).
    - unfold te. rewrite Forall_forall in *. intros r Hin.
      apply in_map_iff in Hin as (r' & <- & Hin'). rewrite length_map. now apply Hrect.
    - unfold te. rewrite length_map. lia.
    - assumption. }
  match goal with
  | |- context [denoising_step Emb unet lms_sigmas scheduler_step a v te ?w 0 t0 ?l] =>
      pose proof (diffuse_tiles_calls_unet te 0 t0 l) as Hcalls;
      destruct (diffuse_tiles_unguided_calls te 0 t0 l guidance_off Hte)
        as (events & nps & Hok & Hlen & Hnps);
      pose proof (accumulate_empty_rows a v w l nps Hrows1 cols_pos Hnps) as Hacc
  end.
  exists events. unfold denoising_step. rewrite Hok in *. rewrite tbind_pair_ok.
  rewrite Hacc. cbn [tlift tbind fst snd] in *. rewrite app_nil_r.
  split; [reflexivity|]. now split.
Qed.

End UnguidedRun.

Lemma unguided_run_raises_witness :
  exists unet_calls,
    example_call unguided_example_args =
    (map TextEncoderCall
         (List.concat (prompt_grid (mkChecked [["a"]]%string 1 1 [["full"]]%string []))) ++
     unet_calls, Raise IndexError) /\
    Forall is_unet_call unet_calls /\
    List.length unet_calls = List.length (grid_tiles 1 1).
Proof.
  apply (unguided_run_raises 4 example_noise unit (fun _ => tt) (fun _ _ => tt)
           (fun x _ _ => elem x) (fun _ => [1]) None (fun _ _ latents => latents)
           Tensor (fun latents _ => latents) unguided_example_args
           (mkChecked [["a"]]%string 1 1 [["full"]]%string [])
           (mkTensor (mkShape 1 4 2 2) (example_noise 1234 (mkShape 1 4 2 2))));
    try reflexivity; try (simpl; lia).
  - unfold do_classifier_free_guidance, unguided_example_args. simpl.
    destruct (Rlt_dec 1 1) as [Hlt|_]; [exfalso; lra | reflexivity].
  - discriminate.
Defined.

(** ** The exclusive region, in general *)

Lemma segment_sub_members (s o s' : Z * Z) :
  fst s <= snd s -> fst o <= snd o -> segment_sub s o = Ok s' ->
  forall i, fst s' <= i < snd s' <-> (fst s <= i < snd s /\ ~ (fst o <= i < snd o)).
Proof.
  destruct s as [lo hi], o as [lo' hi'], s' as [x y]. cbn [fst snd].
  intros Hs Ho. unfold segment_sub, segment_contains. cbn [fst snd].
  destruct (Z.leb_spec hi lo'), (Z.leb_spec hi' lo); cbn [orb].
  1-3: intros Heq; injection Heq as <- <-; intros i; lia.
  destruct (Z.leb_spec lo' lo), (Z.leb_spec hi hi'), (Z.ltb_spec lo lo'),
    (Z.ltb_spec hi' hi); cbn [andb orb]; try discriminate;
    intros Heq; injection Heq as <- <-; intros i; lia.
Qed.

Lemma axis_interval_ordered (t o k : Z) :
  0 <= t -> k * (t - o) / 8 <= (k * (t - o) + t) / 8.
Proof. intros Ht. apply Z.div_le_mono; lia. Qed.

Section ExclusiveRegion.

Variable a : call_args.
Variables rows columns tile_row tile_col : Z.

Hypothesis two_rows : 2 <= rows.
Hypothesis two_columns : 2 <= columns.
Hypothesis row_in_grid : 0 <= tile_row < rows.
Hypothesis col_in_grid : 0 <= tile_col < columns.
Hypothesis height_nonneg : 0 <= tile_height a.
Hypothesis width_nonneg : 0 <= tile_width a.

Lemma tile_covers_bounds (row col i j : Z) :
  tile_covers a row col i j = true <->
  (row * (tile_height a - tile_row_overlap a) / 8 <= i <
   (row * (tile_height a - tile_row_overlap a) + tile_height a) / 8) /\
  (col * (tile_width a - tile_col_overlap a) / 8 <= j <
   (col * (tile_width a - tile_col_overlap a) + tile_width a) / 8).
Proof.
  unfold tile_covers. rewrite tile2latent_indices_eq. unfold in_rect.
  rewrite !andb_true_iff, !Z.leb_le, !Z.ltb_lt. tauto.
Qed.

(** The two intervals that the loop leaves behind, member by member. *)
Lemma exclusive_intervals (e0 e1 f0 f1 : Z) :
  _tile2latent_exclusive_indices tile_row tile_col (tile_width a) (tile_height a)
    (tile_row_overlap a) (tile_col_overlap a) rows columns = Ok (e0, e1, f0, f1) ->
  (forall i,
      e0 <= i < e1 <->
      (tile_row * (tile_height a - tile_row_overlap a) / 8 <= i <
       (tile_row * (tile_height a - tile_row_overlap a) + tile_height a) / 8) /\
      forall r c, In (r, c) (grid_tiles rows columns) ->
                  r <> tile_row -> c <> tile_col ->
                  ~ (r * (tile_height a - tile_row_overlap a) / 8 <= i <
                     (r * (tile_height a - tile_row_overlap a) + tile_height a) / 8)) /\
  (forall j,
      f0 <= j < f1 <->
      (tile_col * (tile_width a - tile_col_overlap a) / 8 <= j <
       (tile_col * (tile_width a - tile_col_overlap a) + tile_width a) / 8) /\
      forall r c, In (r, c) (grid_tiles rows columns) ->
                  r <> tile_row -> c <> tile_col ->
                  ~ (c * (tile_width a - tile_col_overlap a) / 8 <= j <
                     (c * (tile_width a - tile_col_overlap a) + tile_width a) / 8)).
Proof.
  intros Hrun. unfold _tile2latent_exclusive_indices in Hrun.
  rewrite tile2latent_indices_eq in Hrun. cbv beta iota zeta in Hrun.
  rewrite !segment_ordered in Hrun by (apply axis_interval_ordered; assumption).
  apply bind_ok in Hrun as ([rs cs] & Hloop & Hres). injection Hres as <- <- <- <-.
  match type of Hloop with
  | for_each _ (fun row => for_each _ (@?body row)) ?s0 = _ =>
      pose proof (for_each_grid_tiles rows columns body s0) as Heq
  end.
  cbv beta in Heq. rewrite Heq in Hloop. clear Heq.
  pose (P := fun (pre : list (Z * Z)) (st : (Z * Z) * (Z * Z)) =>
    (fst (fst st) <= snd (fst st) /\
     forall i,
       fst (fst st) <= i < snd (fst st) <->
       (tile_row * (tile_height a - tile_row_overlap a) / 8 <= i <
        (tile_row * (tile_height a - tile_row_overlap a) + tile_height a) / 8) /\
       forall r c, In (r, c) pre -> r <> tile_row -> c <> tile_col ->
                   ~ (r * (tile_height a - tile_row_overlap a) / 8 <= i <
                      (r * (tile_height a - tile_row_overlap a) + tile_height a) / 8)) /\
    (fst (snd st) <= snd (snd st) /\
     forall j,
       fst (snd st) <= j < snd (snd st) <->
       (tile_col * (tile_width a - tile_col_overlap a) / 8 <= j <
        (tile_col * (tile_width a - tile_col_overlap a) + tile_width a) / 8) /\
       forall r c, In (r, c) pre -> r <> tile_row -> c <> tile_col ->
                   ~ (c * (tile_width a - tile_col_overlap a) / 8 <= j <
                      (c * (tile_width a - tile_col_overlap a) + tile_width a) / 8))).
  assert (HP : P ([] ++ grid_tiles rows columns) (rs, cs)).
  { eapply (for_each_ind P); [| |exact Hloop].
    - split; (split; [cbn [fst snd]; apply axis_interval_ordered; assumption|]);
        intros x; cbn [fst snd]; (split; [intros H; split; [exact H | intros r c []]
                                         | intros (H & _); exact H]).
    - intros pre [r c] [rs1 cs1] [rs2 cs2] ((Hro & Hri) & (Hco & Hci)) Hin Hbody.
      cbn [fst snd] in *.
      destruct (negb (r =? tile_row) && negb (c =? tile_col)) eqn:Hguard.
      + rewrite tile2latent_indices_eq in Hbody. cbv beta iota zeta in Hbody.
        rewrite !segment_ordered in Hbody by (apply axis_interval_ordered; assumption).
        apply bind_ok in Hbody as (rs' & Hrs & Hbody).
        apply bind_ok in Hbody as (cs' & Hcs & Hbody). injection Hbody as <- <-.
        pose proof (segment_sub_subinterval rs1 _ rs' Hro Hrs) as Hrsub.
        pose proof (segment_sub_subinterval cs1 _ cs' Hco Hcs) as Hcsub.
        pose proof (segment_sub_members rs1
                      (r * (tile_height a - tile_row_overlap a) / 8,
                       (r * (tile_height a - tile_row_overlap a) + tile_height a) / 8)
                      rs' Hro
                      (axis_interval_ordered (tile_height a) (tile_row_overlap a) r
                                             height_nonneg) Hrs) as Hrm.
        pose proof (segment_sub_members cs1
                      (c * (tile_width a - tile_col_overlap a) / 8,
                       (c * (tile_width a - tile_col_overlap a) + tile_width a) / 8)
                      cs' Hco
                      (axis_interval_ordered (tile_width a) (tile_col_overlap a) c
                                             width_nonneg) Hcs) as Hcm.
        cbn [fst snd] in Hrm, Hcm.
        split; cbn [fst snd]; (split; [lia|]); intros x.
        * rewrite Hrm, Hri. split.
          -- intros ((HA & Hpre) & Hn). split; [exact HA|].
             intros r' c' Hin' Hr' Hc'.
             apply in_app_or in Hin' as [Hin' | [Heq | []]];
               [now apply (Hpre r' c') | injection Heq as <- <-; exact Hn].
          -- intros (HA & Hall). split; [split; [exact HA|]|].
             ++ intros r' c' Hin'. apply Hall. apply in_or_app. now left.
             ++ apply (Hall r c); [apply in_or_app; right; now left | lia | lia].
        * rewrite Hcm, Hci. split.
          -- intros ((HA & Hpre) & Hn). split; [exact HA|].
             intros r' c' Hin' Hr' Hc'.
             apply in_app_or in Hin' as [Hin' | [Heq | []]];
               [now apply (Hpre r' c') | injection Heq as <- <-; exact Hn].
          -- intros (HA & Hall). split; [split; [exact HA|]|].
             ++ intros r' c' Hin'. apply Hall. apply in_or_app. now left.
             ++ apply (Hall r c); [apply in_or_app; right; now left | lia | lia].
      + injection Hbody as <- <-.
        split; cbn [fst snd]; (split; [assumption|]); intros x.
        * rewrite Hri. split; intros (HA & Hall); (split; [exact HA|]);
            intros r' c' Hin' Hr' Hc'.
          -- apply in_app_or in Hin' as [Hin' | [Heq | []]];
               [now apply (Hall r' c') | injection Heq as <- <-; lia].
          -- apply (Hall r' c'); [apply in_or_app; now left | assumption | assumption].
        * rewrite Hci. split; intros (HA & Hall); (split; [exact HA|]);
            intros r' c' Hin' Hr' Hc'.
          -- apply in_app_or in Hin' as [Hin' | [Heq | []]];
               [now apply (Hall r' c') | injection Heq as <- <-; lia].
          -- apply (Hall r' c'); [apply in_or_app; now left | assumption | assumption]. }
  destruct HP as ((_ & Hri) & (_ & Hci)). cbn [fst snd app] in Hri, Hci. now split.
Qed.

(** C1, as the code has it.  In a grid with at least two rows and two
    columns, the exclusive latent region returned by
    [_tile2latent_exclusive_indices] is the tile's inclusive latent region
    after subtracting, in row-major order, the inclusive latent region of
    every tile that lies in another row and another column (not of every
    other tile) from the row interval and from the column interval
    independently, with a [ValueError] when a subtraction does not leave
    one interval; and whenever it returns, the region returned is exactly
    the part of the tile's inclusive region that lies in the inclusive
    region of no other tile of the grid. *)
Theorem exclusive_indices_subtract_off_axis_tiles :
  _tile2latent_exclusive_indices tile_row tile_col (tile_width a) (tile_height a)
    (tile_row_overlap a) (tile_col_overlap a) rows columns =
  exclusive_region_spec (off_axis_tile tile_row tile_col)
    tile_row tile_col (tile_width a) (tile_height a)
    (tile_row_overlap a) (tile_col_overlap a) rows columns /\
  forall e0 e1 f0 f1,
    _tile2latent_exclusive_indices tile_row tile_col (tile_width a) (tile_height a)
      (tile_row_overlap a) (tile_col_overlap a) rows columns = Ok (e0, e1, f0, f1) ->
    forall i j,
      in_rect e0 e1 f0 f1 i j = true <->
      (tile_covers a tile_row tile_col i j = true /\
       forall row col,
         0 <= row < rows -> 0 <= col < columns ->
         (row, col) <> (tile_row, tile_col) ->
         tile_covers a row col i j = false).
Proof.
  split; [apply exclusive_indices_as_spec|].
  intros e0 e1 f0 f1 Hrun i j.
  destruct (exclusive_intervals e0 e1 f0 f1 Hrun) as (Hri & Hci).
  unfold in_rect at 1. rewrite !andb_true_iff, !Z.leb_le, !Z.ltb_lt.
  rewrite (Hri i), (Hci j), tile_covers_bounds. split.
  - intros ((HA & Hrows) & (HB & Hcols)). split; [split; assumption|].
    intros row col Hrow Hcol Hne.
    destruct (tile_covers a row col i j) eqn:Hcov; [|reflexivity]. exfalso.
    apply tile_covers_bounds in Hcov as (Hi & Hj).
    destruct (Z.eq_dec row tile_row) as [Hr | Hr].
    + assert (Hc : col <> tile_col) by congruence.
      apply (Hcols (if tile_row =? 0 then 1 else 0) col);
        [apply in_grid_tiles; destruct (Z.eqb_spec tile_row 0); lia
        | destruct (Z.eqb_spec tile_row 0); lia | exact Hc | exact Hj].
    + apply (Hrows row (if tile_col =? 0 then 1 else 0));
        [apply in_grid_tiles; destruct (Z.eqb_spec tile_col 0); lia
        | exact Hr | destruct (Z.eqb_spec tile_col 0); lia | exact Hi].
  - intros ((HA & HB) & Hothers). split; (split; [assumption|]).
    + intros r c Hin Hr Hc Hi. apply in_grid_tiles in Hin as (Hrg & Hcg).
      assert (Hcov : tile_covers a r tile_col i j = true)
        by (apply tile_covers_bounds; split; assumption).
      rewrite (Hothers r tile_col Hrg col_in_grid) in Hcov by congruence.
      discriminate.
    + intros r c Hin Hr Hc Hj. apply in_grid_tiles in Hin as (Hrg & Hcg).
      assert (Hcov : tile_covers a tile_row c i j = true)
        by (apply tile_covers_bounds; split; assumption).
      rewrite (Hothers tile_row c row_in_grid Hcg) in Hcov by congruence.
      discriminate.
Qed.

End ExclusiveRegion.

Lemma exclusive_indices_subtract_off_axis_tiles_witness :
  _tile2latent_exclusive_indices 1 0 (tile_width overlap8_args)
    (tile_height overlap8_args) (tile_row_overlap overlap8_args)
    (tile_col_overlap overlap8_args) 2 3 =
  exclusive_region_spec (off_axis_tile 1 0) 1 0 (tile_width overlap8_args)
    (tile_height overlap8_args) (tile_row_overlap overlap8_args)
    (tile_col_overlap overlap8_args) 2 3 /\
  forall e0 e1 f0 f1,
    _tile2latent_exclusive_indices 1 0 (tile_width overlap8_args)
      (tile_height overlap8_args) (tile_row_overlap overlap8_args)
      (tile_col_overlap overlap8_args) 2 3 = Ok (e0, e1, f0, f1) ->
    forall i j,
      in_rect e0 e1 f0 f1 i j = true <->
      (tile_covers overlap8_args 1 0 i j = true /\
       forall row col,
         0 <= row < 2 -> 0 <= col < 3 -> (row, col) <> (1, 0) ->
         tile_covers overlap8_args row col i j = false).
Proof.
  apply (exclusive_indices_subtract_off_axis_tiles overlap8_args 2 3 1 0);
    simpl; lia.
Defined.

(** ** One image for a run that returns *)



Section OneImage.

Variable in_channels : Z.
Variable noise : Z -> shape -> Z -> Z -> Z -> Z -> R.
Variable Emb : Type.
Variable text_encoder : string -> Emb.
Variable emb_cat : Emb -> Emb -> Emb.
Variable unet : Tensor -> Z -> Emb -> Z -> Z -> Z -> Z -> R.
Variable scheduler_timesteps : Z -> list Z.
Variable lms_sigmas : option (Z -> R).
Variable scheduler_step : Tensor -> Z -> Tensor -> Tensor.
Variable Image : Type.
Variable decode_latents : Tensor -> bool -> Image.

Hypothesis step_keeps_shape :
  forall model_output t sample,
    tshape (scheduler_step model_output t sample) = tshape sample.







End OneImage.

Section OneImagePerRun.

Variable in_channels : Z.
Variable noise : Z -> shape -> Z -> Z -> Z -> Z -> R.
Variable Emb : Type.
Variable text_encoder : string -> Emb.
Variable emb_cat : Emb -> Emb -> Emb.
Variable unet : Tensor -> Z -> Emb -> Z -> Z -> Z -> Z -> R.
Variable scheduler_timesteps : Z -> list Z.
Variable lms_sigmas : option (Z -> R).
Variable scheduler_step : Tensor -> Z -> Tensor -> Tensor.
Variable Image : Type.
Variable decode_latents : Tensor -> bool -> Image.
Variable a : call_args.

Hypothesis step_keeps_shape :
  forall model_output t sample,
    tshape (scheduler_step model_output t sample) = tshape sample.


End OneImagePerRun.


